(** * Potato Racing: race physics and progression engine

    A shallow embedding of the physics helpers ([physics.js]), the base
    sprite ([sprite.js]), the track geometry ([track.js]) and the racer
    state machine (class [Potato] of [powerup.js]), with the properties the
    specification states about them.

    Numbers.  A JavaScript number is modelled as a real number: arithmetic
    is exact, and [NaN] and the infinities are not values of the model.
    Where the source divides, the statements below carry the hypotheses under
    which the divisor is non-zero, so that no result depends on the value
    the reals give to a division by zero.  Module [Binary64] repeats
    [getSpeed] and [limitSpeed] over primitive binary64 floats, the
    arithmetic a JavaScript engine runs, to evaluate them with rounding.
    Array indices and counters ([checkpoint], [lap]) are natural numbers.
    A field that the source guards against [undefined] is an [option]. *)

From Stdlib Require Import Floats.
From Stdlib Require Import Reals Lra Psatz Bool Arith Lia String List.
Import ListNotations.

Local Open Scope R_scope.

(** ** JavaScript operators on numbers *)

Module JS.

(** [v || d] on a number: [0] is falsy. *)
Definition or_num (v d : R) : R :=
  if Req_dec_T v 0 then d else v.

(** [o || d] on a field that may be [undefined]. *)
Definition or_opt (o : option R) (d : R) : R :=
  match o with
  | Some v => or_num v d
  | None => d
  end.

(** [o !== undefined ? o : d]. *)
Definition defined_or (o : option R) (d : R) : R :=
  match o with
  | Some v => v
  | None => d
  end.

(** Truthiness of a numeric field, as in [if (collision.overlap)]. *)
Definition truthy (o : option R) : bool :=
  match o with
  | Some v => if Req_dec_T v 0 then false else true
  | None => false
  end.

Definition ltb (a b : R) : bool := if Rlt_dec a b then true else false.
Definition gtb (a b : R) : bool := ltb b a.
Definition geb (a b : R) : bool := if Rle_dec b a then true else false.

(** Comparisons where an operand may be [undefined]: the operand becomes
    [NaN] and the comparison is false. *)
Definition opt_gtb (a b : option R) : bool :=
  match a, b with
  | Some u, Some v => gtb u v
  | _, _ => false
  end.

Definition opt_ltb (a b : option R) : bool := opt_gtb b a.

(** [a % n] on non-negative integers; [NaN] (here [None]) when [n] is 0. *)
Definition mod_nat (a n : nat) : option nat :=
  match n with
  | O => None
  | S _ => Some (Nat.modulo a n)
  end.

(** [i === m] where [m] may be [NaN]. *)
Definition eq_nat_opt (i : nat) (m : option nat) : bool :=
  match m with
  | Some k => Nat.eqb i k
  | None => false
  end.

End JS.

(** ** Vectors [{x, y}] *)

Module Vector2.

Record t : Type := mk { x : R; y : R }.

Definition zero : t := mk 0 0.
Definition neg (v : t) : t := mk (- x v) (- y v).
Definition sub (u v : t) : t := mk (x u - x v) (y u - y v).
Definition scale (k : R) (v : t) : t := mk (x v * k) (y v * k).
Definition dot (u v : t) : R := x u * x v + y u * y v.
Definition norm (v : t) : R := sqrt (x v * x v + y v * y v).

End Vector2.

Definition Vec : Type := Vector2.t.

(** ** Collision data

    The object literal [{ colliding, normal, overlap, point }] returned by
    the collision tests of [physics.js] and [track.js];
    [{ colliding: false }] leaves the other fields undefined. *)

Record collision : Type := mkCollision {
  colliding : bool;
  normal : option Vec;
  overlap : option R;
  point : option Vec
}.

Definition not_colliding : collision := mkCollision false None None None.

(** ** physics.js *)

Module Physics.

(** The objects handed to [Physics]: sprites, or plain records with a
    [position] and a [radius].  [position], [velocity] and [acceleration]
    are present; the fields the source tests for [undefined] or reads
    through [||] are optional. *)
Record object : Type := mkObject {
  position : Vec;
  velocity : Vec;
  acceleration : Vec;
  rotation : R;
  angularVelocity : option R;
  friction : option R;
  mass : option R;
  restitution : option R;
  radius : option R
}.

Definition set_velocity (o : object) (v : Vec) : object :=
  mkObject (position o) v (acceleration o) (rotation o) (angularVelocity o)
           (friction o) (mass o) (restitution o) (radius o).

Definition set_position (o : object) (p : Vec) : object :=
  mkObject p (velocity o) (acceleration o) (rotation o) (angularVelocity o)
           (friction o) (mass o) (restitution o) (radius o).

Section UpdatePhysics.

(** [Math.pow], taken as given. *)
Variable pow : R -> R -> R.

Definition updatePhysics (o : object) (dt : R) : object :=
  let vx := Vector2.x (velocity o) + Vector2.x (acceleration o) * dt in
  let vy := Vector2.y (velocity o) + Vector2.y (acceleration o) * dt in
  let px := Vector2.x (position o) + vx * dt in
  let py := Vector2.y (position o) + vy * dt in
  let rot :=
    match angularVelocity o with
    | Some w => rotation o + w * dt
    | None => rotation o
    end in
  match friction o with
  | Some f =>
      let frictionFactor := pow (1 - f) dt in
      mkObject (Vector2.mk px py)
               (Vector2.mk (vx * frictionFactor) (vy * frictionFactor))
               (acceleration o) rot
               (match angularVelocity o with
                | Some w => Some (w * frictionFactor)
                | None => None
                end)
               (friction o) (mass o) (restitution o) (radius o)
  | None =>
      mkObject (Vector2.mk px py) (Vector2.mk vx vy)
               (acceleration o) rot (angularVelocity o)
               (friction o) (mass o) (restitution o) (radius o)
  end.

End UpdatePhysics.

(** [checkCircleCollision]: the distance between the centres and the
    divisor [(distance || 1)] of the normal. *)
Definition centreDistance (a b : object) : R :=
  let dx := Vector2.x (position b) - Vector2.x (position a) in
  let dy := Vector2.y (position b) - Vector2.y (position a) in
  sqrt (dx * dx + dy * dy).

Definition normalDivisor (a b : object) : R :=
  JS.or_num (centreDistance a b) 1.

Definition checkCircleCollision (a b : object) : collision :=
  let dx := Vector2.x (position b) - Vector2.x (position a) in
  let dy := Vector2.y (position b) - Vector2.y (position a) in
  let distance := centreDistance a b in
  let minDistance := JS.or_opt (radius a) 0 + JS.or_opt (radius b) 0 in
  if JS.ltb distance minDistance then
    let nx := dx / normalDivisor a b in
    let ny := dy / normalDivisor a b in
    mkCollision true
                (Some (Vector2.mk nx ny))
                (Some (minDistance - distance))
                (Some (Vector2.mk
                         (Vector2.x (position a) + nx * JS.or_opt (radius a) 0)
                         (Vector2.y (position a) + ny * JS.or_opt (radius a) 0)))
  else not_colliding.

(** [resolveCollision] mutates both objects; the model returns the pair. *)
Definition relativeNormalVelocity (a b : object) (c : collision) : R :=
  let relVelX := Vector2.x (velocity a) - Vector2.x (velocity b) in
  let relVelY := Vector2.y (velocity a) - Vector2.y (velocity b) in
  let n := match normal c with Some n => n | None => Vector2.zero end in
  relVelX * Vector2.x n + relVelY * Vector2.y n.

Definition resolveCollision (a b : object) (c : collision)
  : object * object :=
  let n := match normal c with Some n => n | None => Vector2.zero end in
  let dotProduct := relativeNormalVelocity a b c in
  if JS.gtb dotProduct 0 then (a, b)
  else
    let e := Rmin (JS.defined_or (restitution a) (1 / 2))
                  (JS.defined_or (restitution b) (1 / 2)) in
    let ma := JS.or_opt (mass a) 1 in
    let mb := JS.or_opt (mass b) 1 in
    let impulseMag := - (1 + e) * dotProduct / (1 / ma + 1 / mb) in
    let impulseX := impulseMag * Vector2.x n in
    let impulseY := impulseMag * Vector2.y n in
    let va := Vector2.mk (Vector2.x (velocity a) + impulseX / ma)
                         (Vector2.y (velocity a) + impulseY / ma) in
    let vb := Vector2.mk (Vector2.x (velocity b) - impulseX / mb)
                         (Vector2.y (velocity b) - impulseY / mb) in
    if JS.truthy (overlap c) then
      let percent := 2 / 10 in
      let correction := JS.defined_or (overlap c) 0 * percent in
      let pa := Vector2.mk
                  (Vector2.x (position a)
                   + Vector2.x n * correction * mb / (ma + mb))
                  (Vector2.y (position a)
                   + Vector2.y n * correction * mb / (ma + mb)) in
      let pb := Vector2.mk
                  (Vector2.x (position b)
                   - Vector2.x n * correction * ma / (ma + mb))
                  (Vector2.y (position b)
                   - Vector2.y n * correction * ma / (ma + mb)) in
      (set_position (set_velocity a va) pa,
       set_position (set_velocity b vb) pb)
    else (set_velocity a va, set_velocity b vb).

Definition getSpeed (o : object) : R :=
  let vx := JS.or_num (Vector2.x (velocity o)) 0 in
  let vy := JS.or_num (Vector2.y (velocity o)) 0 in
  sqrt (vx * vx + vy * vy).

(** [limitSpeed(object, maxSpeed)].  The division is by a speed above
    [maxSpeed], hence positive when [maxSpeed] is not negative.  For a
    negative [maxSpeed] and a body at rest the code divides by zero and
    stores [NaN]; the statements about [limitSpeed] on real numbers take
    [0 <= maxSpeed] or a body that moves. *)
Definition limitSpeed (o : object) (maxSpeed : R) : object :=
  let currentSpeed := getSpeed o in
  if JS.gtb currentSpeed maxSpeed then
    let ratio := maxSpeed / currentSpeed in
    set_velocity o (Vector2.scale ratio (velocity o))
  else o.

End Physics.

(** ** physics.js in binary64 arithmetic

    [getSpeed] and [limitSpeed] once more, over the IEEE 754 binary64
    numbers that a JavaScript engine computes with: the same expressions,
    with correctly rounded [+], [*], [/] and [Math.sqrt].  This copy runs,
    and shows what rounding does to the statements proved over the
    reals. *)

Module Binary64.

Record velocity : Type := mkVelocity { x : float; y : float }.

(** [v || d]: [0], [-0] and [NaN] are falsy. *)
Definition or_num (v d : float) : float :=
  if PrimFloat.eqb v 0 || PrimFloat.is_nan v then d else v.

Definition getSpeed (v : velocity) : float :=
  let vx := or_num (x v) 0 in
  let vy := or_num (y v) 0 in
  PrimFloat.sqrt (PrimFloat.add (PrimFloat.mul vx vx) (PrimFloat.mul vy vy)).

Definition limitSpeed (v : velocity) (maxSpeed : float) : velocity :=
  let currentSpeed := getSpeed v in
  if PrimFloat.ltb maxSpeed currentSpeed then
    let ratio := PrimFloat.div maxSpeed currentSpeed in
    mkVelocity (PrimFloat.mul (x v) ratio) (PrimFloat.mul (y v) ratio)
  else v.

(** [u === v] on both components. *)
Definition same (u v : velocity) : bool :=
  PrimFloat.eqb (x u) (x v) && PrimFloat.eqb (y u) (y v).

End Binary64.

(** ** sprite.js *)

Module Sprite.

Record t : Type := mk {
  active : bool;
  position : Vec;
  velocity : Vec;
  acceleration : Vec;
  rotation : R;
  angularVelocity : option R;
  friction : option R
}.

(** [update(deltaTime)], called with a number.  The compatibility copies
    [this.x], [this.y] of the position are not modelled. *)
Definition update (s : t) (dt : R) : t :=
  if negb (active s) then s
  else
    let vx := Vector2.x (velocity s) + Vector2.x (acceleration s) * dt in
    let vy := Vector2.y (velocity s) + Vector2.y (acceleration s) * dt in
    let px := Vector2.x (position s) + vx * dt in
    let py := Vector2.y (position s) + vy * dt in
    let rot :=
      match angularVelocity s with
      | Some w => rotation s + w * dt
      | None => rotation s
      end in
    let fr := JS.defined_or (friction s) (98 / 100) in
    mk (active s) (Vector2.mk px py) (Vector2.mk (vx * fr) (vy * fr))
       Vector2.zero rot (angularVelocity s) (friction s).

(** [getDirection()]. *)
Definition getDirection (rot : R) : Vec := Vector2.mk (cos rot) (sin rot).

End Sprite.

(** ** track.js *)

Module Track.

Record segment : Type := mkSegment { start : Vec; end_ : Vec }.

Record checkpoint : Type := mkCheckpoint {
  cx : R;
  cy : R;
  angle : option R;
  width : option R
}.

Record hitbox : Type := mkHitbox {
  hstart : Vec;
  hend : Vec;
  index : nat;
  isFinishLine : bool
}.

(** The track data the geometry queries read.  The segment lists and the
    hitboxes are computed once by the constructor from these fields and
    never changed, so they are functions of the record. *)
Record t : Type := mk {
  innerBoundary : list Vec;
  outerBoundary : list Vec;
  checkpoints : list checkpoint
}.

Definition createBoundarySegments (boundary : list Vec) : list segment :=
  if Nat.ltb (length boundary) 2 then []
  else
    map (fun i =>
           let startPoint := nth i boundary Vector2.zero in
           let endPoint :=
             nth (Nat.modulo (i + 1) (length boundary)) boundary
                 Vector2.zero in
           mkSegment (Vector2.mk (Vector2.x startPoint) (Vector2.y startPoint))
                     (Vector2.mk (Vector2.x endPoint) (Vector2.y endPoint)))
        (seq 0 (length boundary)).

Definition innerBoundarySegments (tr : t) : list segment :=
  createBoundarySegments (innerBoundary tr).

Definition outerBoundarySegments (tr : t) : list segment :=
  createBoundarySegments (outerBoundary tr).

Definition createCheckpointHitboxes (cps : list checkpoint) : list hitbox :=
  map (fun ic : nat * checkpoint =>
         let (i, c) := ic in
         let w := JS.or_opt (width c) 50 in
         let a := JS.or_opt (angle c) 0 in
         let angleRad := a * (PI / 180) in
         let halfWidth := w / 2 in
         mkHitbox
           (Vector2.mk (cx c - cos angleRad * halfWidth)
                       (cy c - sin angleRad * halfWidth))
           (Vector2.mk (cx c + cos angleRad * halfWidth)
                       (cy c + sin angleRad * halfWidth))
           i (Nat.eqb i 0))
      (combine (seq 0 (length cps)) cps).

Definition checkpointHitboxes (tr : t) : list hitbox :=
  createCheckpointHitboxes (checkpoints tr).

(** The closest point of the segment to [p], as both
    [pointToLineDistance] and [lineCircleCollision] compute it. *)
Definition closestPointOn (p lineStart lineEnd : Vec) : Vec :=
  let A := Vector2.x p - Vector2.x lineStart in
  let B := Vector2.y p - Vector2.y lineStart in
  let C := Vector2.x lineEnd - Vector2.x lineStart in
  let D := Vector2.y lineEnd - Vector2.y lineStart in
  let dot := A * C + B * D in
  let lenSq := C * C + D * D in
  let param := if Req_dec_T lenSq 0 then -1 else dot / lenSq in
  if JS.ltb param 0 then
    Vector2.mk (Vector2.x lineStart) (Vector2.y lineStart)
  else if JS.gtb param 1 then
    Vector2.mk (Vector2.x lineEnd) (Vector2.y lineEnd)
  else
    Vector2.mk (Vector2.x lineStart + param * C)
               (Vector2.y lineStart + param * D).

Definition pointToLineDistance (p lineStart lineEnd : Vec) : R :=
  let c := closestPointOn p lineStart lineEnd in
  let dx := Vector2.x p - Vector2.x c in
  let dy := Vector2.y p - Vector2.y c in
  sqrt (dx * dx + dy * dy).

Definition lineCircleCollision
  (lineStart lineEnd circlePos : Vec) (radius : R) : collision :=
  let distance := pointToLineDistance circlePos lineStart lineEnd in
  if JS.geb distance radius then not_colliding
  else
    let closestPoint := closestPointOn circlePos lineStart lineEnd in
    let normalX := Vector2.x circlePos - Vector2.x closestPoint in
    let normalY := Vector2.y circlePos - Vector2.y closestPoint in
    let normalLength := sqrt (normalX * normalX + normalY * normalY) in
    mkCollision true
                (Some (Vector2.mk (normalX / normalLength)
                                  (normalY / normalLength)))
                (Some (radius - distance))
                (Some closestPoint).

(** One turn of the loop of [checkBoundaryCollision]. *)
Definition keepDeeper (circlePos : Vec) (radius : R)
  (closestCollision : collision) (s : segment) : collision :=
  let c := lineCircleCollision (start s) (end_ s) circlePos radius in
  if colliding c
     && (negb (colliding closestCollision)
         || JS.opt_gtb (overlap c) (overlap closestCollision))
  then c else closestCollision.

Definition noBoundaryCollision : collision :=
  mkCollision false (Some Vector2.zero) (Some 0) None.

(** [checkBoundaryCollision(sprite)], on the sprite's [position] and
    [collider.radius]. *)
Definition checkBoundaryCollision
  (tr : t) (circlePos : Vec) (radius : R) : collision :=
  let segments := innerBoundarySegments tr ++ outerBoundarySegments tr in
  fold_left (keepDeeper circlePos radius) segments noBoundaryCollision.

(** The result [{ hit, index, isFinishLine }] of [checkCheckpoint];
    [{ hit: false }] is [None]. *)
Fixpoint firstHit (px py radius : R) (hs : list hitbox)
  : option (nat * bool) :=
  match hs with
  | [] => None
  | h :: rest =>
      let distance :=
        pointToLineDistance (Vector2.mk px py) (hstart h) (hend h) in
      if JS.ltb distance radius then Some (index h, isFinishLine h)
      else firstHit px py radius rest
  end.

Definition checkCheckpoint (tr : t) (px py radius : R)
  : option (nat * bool) :=
  firstHit px py radius (checkpointHitboxes tr).

End Track.

(** ** config.js: the sections of [CONFIG] read by the racer *)

Module Config.

Record powerupDef : Type := mkDef { id : string; duration : R }.

(** [CONFIG.POWERUPS] has the five keys below, in this order, then
    [CONFIG.BALANCE.LAP_HEALTH_BONUS] and [CONFIG.MODES.GRAND_PRIX.laps]. *)
Record t : Type := mk {
  SPEED_BOOST : powerupDef;
  SHIELD : powerupDef;
  GHOST : powerupDef;
  OIL_SLICK : powerupDef;
  SIZE_REDUCTION : powerupDef;
  LAP_HEALTH_BONUS : R;
  GRAND_PRIX_laps : nat
}.

(** The values of [for (const key in CONFIG.POWERUPS)], in key order. *)
Definition POWERUPS (c : t) : list powerupDef :=
  [SPEED_BOOST c; SHIELD c; GHOST c; OIL_SLICK c; SIZE_REDUCTION c].

(** The defaults installed by [config.js]. *)
Definition defaults : t :=
  mk (mkDef "boost" 3000) (mkDef "shield" 5000) (mkDef "ghost" 3000)
     (mkDef "oil" 5000) (mkDef "shrink" 4000) 20 3.

End Config.

(** ** powerup.js: class Potato *)

Module Potato.

Record powerup : Type := mkPowerup { type : string; timeRemaining : R }.

(** The object returned by [addPowerup] for an oil slick. *)
Record oilSlick : Type := mkOilSlick {
  slickType : string;
  slickPosition : Vec;
  slickRadius : R;
  slickDuration : R
}.

(** The fields of a potato that race progress and power-ups read or
    write.  The three time stamps are never set by the constructor. *)
Record t : Type := mk {
  position : Vec;
  rotation : R;
  width : R;
  height : R;
  colliderRadius : R;
  checkpoint : nat;
  lap : nat;
  health : R;
  finished : bool;
  lastCheckpointTime : option R;
  lapStartTime : option R;
  bestLapTime : option R;
  activePowerups : list powerup;
  isShielded : bool
}.

(** The state the constructor leaves, for a potato created at [(x, y)]. *)
Definition constructor (x y : R) : t :=
  mk (Vector2.mk x y) 0 40 60 25 0 0 100 false None None None [] false.

Definition withProgress (p : t) (cp : nat) (lastTime : option R) : t :=
  mk (position p) (rotation p) (width p) (height p) (colliderRadius p)
     cp (lap p) (health p) (finished p) lastTime (lapStartTime p)
     (bestLapTime p) (activePowerups p) (isShielded p).

Definition withLap (p : t) (l : nat) (h : R) (fin : bool)
  (lapStart best : option R) : t :=
  mk (position p) (rotation p) (width p) (height p) (colliderRadius p)
     (checkpoint p) l h fin (lastCheckpointTime p) lapStart best
     (activePowerups p) (isShielded p).

Definition withPowerups (p : t) (l : list powerup) : t :=
  mk (position p) (rotation p) (width p) (height p) (colliderRadius p)
     (checkpoint p) (lap p) (health p) (finished p) (lastCheckpointTime p)
     (lapStartTime p) (bestLapTime p) l (isShielded p).

Definition withSize (p : t) (shield : bool) (w h r : R) : t :=
  mk (position p) (rotation p) w h r
     (checkpoint p) (lap p) (health p) (finished p) (lastCheckpointTime p)
     (lapStartTime p) (bestLapTime p) (activePowerups p) shield.

Section WithConfig.

Variable CONFIG : Config.t.

(** [completeLap()]; [now] is the reading of [Date.now()]. *)
Definition completeLap (now : R) (p : t) : t :=
  let lapTime :=
    match lapStartTime p with
    | Some t0 => Some (now - t0)
    | None => None
    end in
  let best :=
    if JS.opt_ltb lapTime (bestLapTime p) then lapTime
    else bestLapTime p in
  let l := S (lap p) in
  let h := Rmin (health p + Config.LAP_HEALTH_BONUS CONFIG) 100 in
  let fin :=
    if Nat.ltb (Config.GRAND_PRIX_laps CONFIG) l then true
    else finished p in
  withLap p l h fin (Some now) best.

(** [updateRaceProgress(track)] after the call of
    [track.checkCheckpoint]: [hit] is its result and [n] is
    [track.checkpoints.length]. *)
Definition onCheckpoint (n : nat) (now : R) (hit : option (nat * bool))
  (p : t) : t :=
  match hit with
  | None => p
  | Some (index, _) =>
      if JS.eq_nat_opt index (JS.mod_nat (checkpoint p + 1) n) then
        let p1 := withProgress p index (Some now) in
        if Nat.eqb index 0 && Nat.ltb 0 (lap p1) then completeLap now p1
        else if Nat.eqb index 0 then
          withLap p1 1 (health p1) (finished p1) (Some now)
                  (bestLapTime p1)
        else p1
      else p
  end.

Definition updateRaceProgress (track : Track.t) (now : R) (p : t) : t :=
  let hit :=
    Track.checkCheckpoint track (Vector2.x (position p))
                          (Vector2.y (position p)) (width p / 2) in
  onCheckpoint (length (Track.checkpoints track)) now hit p.

(** [getPowerupDuration(type)]. *)
Fixpoint durationIn (defs : list Config.powerupDef) (ty : string) : R :=
  match defs with
  | [] => 3000
  | d :: rest =>
      if String.eqb (Config.id d) ty then Config.duration d
      else durationIn rest ty
  end.

Definition getPowerupDuration (ty : string) : R :=
  durationIn (Config.POWERUPS CONFIG) ty.

(** [activePowerups.findIndex(p => p.type === type)]; [None] is [-1]. *)
Fixpoint findIndex (ty : string) (l : list powerup) : option nat :=
  match l with
  | [] => None
  | q :: rest =>
      if String.eqb (type q) ty then Some O
      else match findIndex ty rest with
           | Some i => Some (S i)
           | None => None
           end
  end.

(** [activePowerups[i].timeRemaining = d]. *)
Fixpoint setTimeRemaining (i : nat) (d : R) (l : list powerup)
  : list powerup :=
  match l, i with
  | [], _ => []
  | q :: rest, O => mkPowerup (type q) d :: rest
  | q :: rest, S j => q :: setTimeRemaining j d rest
  end.

(** [addPowerup(type)]: the new state and the returned value. *)
Definition addPowerup (ty : string) (p : t) : t * option oilSlick :=
  let l :=
    match findIndex ty (activePowerups p) with
    | Some i => setTimeRemaining i (getPowerupDuration ty) (activePowerups p)
    | None => activePowerups p ++ [mkPowerup ty (getPowerupDuration ty)]
    end in
  let p' := withPowerups p l in
  if String.eqb ty (Config.id (Config.OIL_SLICK CONFIG)) then
    let direction := Sprite.getDirection (rotation p) in
    (p', Some (mkOilSlick
                 (Config.id (Config.OIL_SLICK CONFIG))
                 (Vector2.mk
                    (Vector2.x (position p) - Vector2.x direction * width p)
                    (Vector2.y (position p) - Vector2.y direction * width p))
                 40
                 (Config.duration (Config.OIL_SLICK CONFIG))))
  else (p', None).

(** Removal of the entry at index [i]: the filter
    [p => p !== oilSlickPowerup] of [useActivePowerup] drops the one
    object found, which sits at the index [find] stopped at. *)
Fixpoint removeAt (i : nat) (l : list powerup) : list powerup :=
  match l, i with
  | [], _ => []
  | _ :: rest, O => rest
  | q :: rest, S j => q :: removeAt j rest
  end.

Definition useActivePowerup (p : t) : t * option oilSlick :=
  let oil := Config.id (Config.OIL_SLICK CONFIG) in
  match findIndex oil (activePowerups p) with
  | Some i =>
      let (p', result) := addPowerup oil p in
      (withPowerups p' (removeAt i (activePowerups p')), result)
  | None => (p, None)
  end.

Definition hasType (ty : string) (l : list powerup) : bool :=
  existsb (fun q => String.eqb (type q) ty) l.

(** [updatePowerups(deltaTime)]. *)
Definition updatePowerups (deltaTime : R) (p : t) : t :=
  let l :=
    filter (fun q => JS.gtb (timeRemaining q) 0)
           (map (fun q =>
                   mkPowerup (type q) (timeRemaining q - deltaTime * 1000))
                (activePowerups p)) in
  let shield := hasType (Config.id (Config.SHIELD CONFIG)) l in
  let hasSizeReduction :=
    hasType (Config.id (Config.SIZE_REDUCTION CONFIG)) l in
  let p' := withPowerups p l in
  if hasSizeReduction then withSize p' shield 30 (225 / 10) 15
  else withSize p' shield 40 30 20.

(** The calls that change [activePowerups], and a run of them. *)
Inductive call : Type :=
| AddPowerup (ty : string)
| UpdatePowerups (deltaTime : R)
| UseActivePowerup.

Definition perform (p : t) (c : call) : t :=
  match c with
  | AddPowerup ty => fst (addPowerup ty p)
  | UpdatePowerups dt => updatePowerups dt p
  | UseActivePowerup => fst (useActivePowerup p)
  end.

Definition performAll (p : t) (cs : list call) : t :=
  fold_left perform cs p.

(** A run of checkpoint tests on a track with [n] checkpoints: each
    element is the clock reading and the result of
    [track.checkCheckpoint] at one tick. *)
Definition progress (n : nat) (p : t)
  (ticks : list (R * option (nat * bool))) : t :=
  fold_left (fun q tick => onCheckpoint n (fst tick) (snd tick) q) ticks p.

(** The checkpoint index at the start of a run and after each tick. *)
Fixpoint visited (n : nat) (p : t)
  (ticks : list (R * option (nat * bool))) : list nat :=
  match ticks with
  | [] => [checkpoint p]
  | tick :: rest =>
      checkpoint p
      :: visited n (onCheckpoint n (fst tick) (snd tick) p) rest
  end.

End WithConfig.

End Potato.

(** [subseq u l]: the elements of [u] occur in [l] in this order. *)
Fixpoint subseq (u l : list nat) : bool :=
  match u, l with
  | [], _ => true
  | _ :: _, [] => false
  | a :: u', b :: l' => if Nat.eqb a b then subseq u' l' else subseq u l'
  end.

(** ** helpers.js *)

Module Helpers.

Definition clamp (value min max : R) : R := Rmax min (Rmin max value).

End Helpers.

(** ** physics.js: forces, line collisions and steering *)

Module Forces.

Definition set_acceleration (o : Physics.object) (a : Vec) : Physics.object :=
  Physics.mkObject (Physics.position o) (Physics.velocity o) a
                   (Physics.rotation o) (Physics.angularVelocity o)
                   (Physics.friction o) (Physics.mass o)
                   (Physics.restitution o) (Physics.radius o).

(** [applyForce(object, force)]. *)
Definition applyForce (o : Physics.object) (force : Vec) : Physics.object :=
  let mass := JS.or_opt (Physics.mass o) 1 in
  set_acceleration o
    (Vector2.mk
       (Vector2.x (Physics.acceleration o) + Vector2.x force / mass)
       (Vector2.y (Physics.acceleration o) + Vector2.y force / mass)).

(** [resetAcceleration(object)]. *)
Definition resetAcceleration (o : Physics.object) : Physics.object :=
  set_acceleration o (Vector2.mk 0 0).

End Forces.

Module LineCollision.

(** The closest point of the line to the object, by projection on the
    normalised line vector. *)
Definition closest (p : Vec) (line : Track.segment) : Vec :=
  let lineVecX := Vector2.x (Track.end_ line) - Vector2.x (Track.start line) in
  let lineVecY := Vector2.y (Track.end_ line) - Vector2.y (Track.start line) in
  let objectVecX := Vector2.x p - Vector2.x (Track.start line) in
  let objectVecY := Vector2.y p - Vector2.y (Track.start line) in
  let lineLength := sqrt (lineVecX * lineVecX + lineVecY * lineVecY) in
  let normLineVecX := lineVecX / lineLength in
  let normLineVecY := lineVecY / lineLength in
  let projection := objectVecX * normLineVecX + objectVecY * normLineVecY in
  let clampedProjection := Rmax 0 (Rmin lineLength projection) in
  Vector2.mk (Vector2.x (Track.start line) + normLineVecX * clampedProjection)
             (Vector2.y (Track.start line) + normLineVecY * clampedProjection).

(** [checkLineCollision(object, line)]; a comparison with an undefined
    [radius] is false. *)
Definition checkLineCollision (o : Physics.object) (line : Track.segment)
  : collision :=
  let c := closest (Physics.position o) line in
  let distanceX := Vector2.x (Physics.position o) - Vector2.x c in
  let distanceY := Vector2.y (Physics.position o) - Vector2.y c in
  let distance := sqrt (distanceX * distanceX + distanceY * distanceY) in
  match Physics.radius o with
  | Some r =>
      if JS.ltb distance r then
        mkCollision true
                    (Some (Vector2.mk (distanceX / distance)
                                      (distanceY / distance)))
                    (Some (r - distance))
                    (Some c)
      else not_colliding
  | None => not_colliding
  end.

(** [resolveLineCollision(object, collision)].  The source reads
    [collision.normal] and [collision.overlap] unguarded: without them the
    call throws or computes with [NaN], which is [None] here. *)
Definition resolveLineCollision (o : Physics.object) (c : collision)
  : option Physics.object :=
  match normal c, overlap c with
  | Some n, Some ov =>
      let p := Vector2.mk
                 (Vector2.x (Physics.position o) + Vector2.x n * ov)
                 (Vector2.y (Physics.position o) + Vector2.y n * ov) in
      let dotProduct :=
        Vector2.x (Physics.velocity o) * Vector2.x n
        + Vector2.y (Physics.velocity o) * Vector2.y n in
      if JS.ltb dotProduct 0 then
        let restitution := JS.or_opt (Physics.restitution o) (1 / 2) in
        Some (Physics.set_velocity (Physics.set_position o p)
                (Vector2.mk
                   (Vector2.x (Physics.velocity o)
                    - (1 + restitution) * dotProduct * Vector2.x n)
                   (Vector2.y (Physics.velocity o)
                    - (1 + restitution) * dotProduct * Vector2.y n)))
      else Some (Physics.set_position o p)
  | _, _ => None
  end.

End LineCollision.

Module Steering.

(** [seek(object, target, maxForce)] reads [object.maxSpeed], a field
    that no constructor of the repository sets; it is an argument here,
    [None] when the object has none.  Without it the desired velocity is
    [NaN], the comparison with [maxForce] is false and the result is
    [{x: NaN, y: NaN}], which is [None] here. *)
Definition seek (o : Physics.object) (maxSpeed : option R) (target : Vec)
  (maxForce : R) : option Vec :=
  let desiredVelocityX := Vector2.x target - Vector2.x (Physics.position o) in
  let desiredVelocityY := Vector2.y target - Vector2.y (Physics.position o) in
  let distance :=
    sqrt (desiredVelocityX * desiredVelocityX
          + desiredVelocityY * desiredVelocityY) in
  if JS.ltb distance (1 / 100) then Some (Vector2.mk 0 0)
  else
    match maxSpeed with
    | None => None
    | Some speed =>
        let desiredX := desiredVelocityX / distance * speed in
        let desiredY := desiredVelocityY / distance * speed in
        let steerX := desiredX - Vector2.x (Physics.velocity o) in
        let steerY := desiredY - Vector2.y (Physics.velocity o) in
        let steerMagnitude := sqrt (steerX * steerX + steerY * steerY) in
        if JS.gtb steerMagnitude maxForce then
          Some (Vector2.mk (steerX / steerMagnitude * maxForce)
                           (steerY / steerMagnitude * maxForce))
        else Some (Vector2.mk steerX steerY)
    end.

End Steering.

(** ** track.js: polygons, the drivable area and terrain *)

Module Area.

(** One turn of the loop of [isPointInPolygon]: does the edge between
    [polygon[i]] and [polygon[j]] toggle [inside]?  Horizontal edges are
    skipped. *)
Definition intersect (x y : R) (pi pj : Vec) : bool :=
  let xi := Vector2.x pi in
  let yi := Vector2.y pi in
  let xj := Vector2.x pj in
  let yj := Vector2.y pj in
  if Req_dec_T yi yj then false
  else xorb (JS.gtb yi y) (JS.gtb yj y)
       && JS.ltb x ((xj - xi) * (y - yi) / (yj - yi) + xi).

(** The loop [for (i = 0, j = length - 1; i < length; j = i++)]: [pj] is
    the point before the remaining ones. *)
Fixpoint scan (x y : R) (pj : Vec) (rest : list Vec) (inside : bool) : bool :=
  match rest with
  | [] => inside
  | pi :: rest' =>
      scan x y pi rest' (if intersect x y pi pj then negb inside else inside)
  end.

Definition isPointInPolygon (x y : R) (polygon : list Vec) : bool :=
  if Nat.ltb (length polygon) 3 then false
  else scan x y (last polygon Vector2.zero) polygon false.

(** [isPointOutsideTrack(x, y)] for numbers [x], [y]. *)
Definition isPointOutsideTrack (tr : Track.t) (x y : R) : bool :=
  if Nat.ltb (length (Track.outerBoundary tr)) 3 then false
  else
    let outsideOuter := negb (isPointInPolygon x y (Track.outerBoundary tr)) in
    let insideInner :=
      if Nat.leb 3 (length (Track.innerBoundary tr))
      then isPointInPolygon x y (Track.innerBoundary tr)
      else false in
    outsideOuter || insideInner.

(** Terrain patches: [shape] is ['circle'], ['rect'], ['polygon'] or
    anything else; [angle], [points] and [type] may be missing. *)
Inductive shape : Type :=
| Circle (cx cy radius : R)
| Rect (cx cy width height : R) (angle : option R)
| Polygon (points : option (list Vec))
| Unknown.

Record patch : Type := mkPatch { patchShape : shape; patchType : option string }.

Definition isPointInPatch (x y : R) (p : patch) : bool :=
  match patchShape p with
  | Circle cx cy radius =>
      let distX := x - cx in
      let distY := y - cy in
      JS.ltb (distX * distX + distY * distY) (radius * radius)
  | Rect cx cy width height angle =>
      if JS.truthy angle then
        let transX := x - cx in
        let transY := y - cy in
        let angleRad := - JS.defined_or angle 0 * (PI / 180) in
        let rotX := transX * cos angleRad - transY * sin angleRad in
        let rotY := transX * sin angleRad + transY * cos angleRad in
        JS.geb rotX (- width / 2) && JS.geb (width / 2) rotX
        && JS.geb rotY (- height / 2) && JS.geb (height / 2) rotY
      else
        JS.geb x (cx - width / 2) && JS.geb (cx + width / 2) x
        && JS.geb y (cy - height / 2) && JS.geb (cy + height / 2) y
  | Polygon (Some points) => isPointInPolygon x y points
  | Polygon None => false
  | Unknown => false
  end.

Record terrain : Type := mkTerrain {
  id : string;
  friction : R;
  grip : R;
  color : string
}.

(** [CONFIG.TERRAIN]: the terrain objects by key, an object literal. *)
Definition table : Type := list (string * terrain).

(** The own properties of the table. *)
Fixpoint own (key : string) (t : table) : option terrain :=
  match t with
  | [] => None
  | (k, v) :: rest => if String.eqb k key then Some v else own key rest
  end.

(** The names that an object literal inherits from [Object.prototype] in a
    browser; the value of each of them is truthy (functions, and the
    prototype itself for [__proto__]). *)
Definition inherited : list string :=
  ["constructor"; "hasOwnProperty"; "isPrototypeOf"; "propertyIsEnumerable";
   "toLocaleString"; "toString"; "valueOf"; "__defineGetter__";
   "__defineSetter__"; "__lookupGetter__"; "__lookupSetter__";
   "__proto__"]%string.

Definition isInherited (key : string) : bool :=
  existsb (String.eqb key) inherited.

(** What a read of the table gives: a terrain object, or the member of
    [Object.prototype] of that name. *)
Inductive value : Type :=
| Terrain (t : terrain)
| Member (name : string).

(** [CONFIG.TERRAIN[key]]: an own property first, then the prototype;
    [None] is [undefined]. *)
Definition lookup (key : string) (t : table) : option value :=
  match own key t with
  | Some v => Some (Terrain v)
  | None => if isInherited key then Some (Member key) else None
  end.

Definition asphaltLiteral : terrain :=
  mkTerrain "asphalt"%string (1 / 10) 1 "#555555"%string.

Definition grassLiteral : terrain :=
  mkTerrain "grass"%string (3 / 10) (7 / 10) "#7EC850"%string.

(** [a || b] on values that may be undefined; the others are truthy. *)
Definition orElse (a : option value) (b : value) : value :=
  match a with
  | Some v => v
  | None => b
  end.

(** [patch.type || 'asphalt']: the empty string is falsy too. *)
Definition typeKey (p : patch) : string :=
  match patchType p with
  | Some s => if String.eqb s ""%string then "asphalt"%string else s
  | None => "asphalt"%string
  end.

(** The loop over the patches of [getTerrainAt]: the first patch that
    contains the point sets the terrain and ends the loop. *)
Fixpoint firstPatch (TERRAIN : table) (x y : R) (patches : list patch)
  (current : value) : value :=
  match patches with
  | [] => current
  | p :: rest =>
      if isPointInPatch x y p then
        orElse (lookup (typeKey p) TERRAIN)
               (orElse (lookup "ASPHALT"%string TERRAIN) current)
      else firstPatch TERRAIN x y rest current
  end.

(** [getTerrainAt(x, y)], with [CONFIG.TERRAIN] present;
    [terrainPatches] is the track's list of patches. *)
Definition getTerrainAt (TERRAIN : table) (tr : Track.t)
  (terrainPatches : list patch) (x y : R) : value :=
  let asphalt :=
    orElse (lookup "ASPHALT"%string TERRAIN) (Terrain asphaltLiteral) in
  let base :=
    if isPointOutsideTrack tr x y
    then orElse (lookup "GRASS"%string TERRAIN) (Terrain grassLiteral)
    else asphalt in
  firstPatch TERRAIN x y terrainPatches base.

End Area.

(** ** powerup.js: health and race progress of a potato *)

Module PotatoHealth.

Definition withHealth (p : Potato.t) (h : R) : Potato.t :=
  Potato.withLap p (Potato.lap p) h (Potato.finished p)
                 (Potato.lapStartTime p) (Potato.bestLapTime p).

(** [applyDamage(amount)]. *)
Definition applyDamage (amount : R) (p : Potato.t) : Potato.t :=
  if negb (Potato.isShielded p) then
    withHealth p (Helpers.clamp (Potato.health p - amount) 0 100)
  else p.

(** [regenerateHealth(deltaTime)]; [HEALTH_REGEN] is
    [CONFIG.BALANCE.HEALTH_REGEN]. *)
Definition regenerateHealth (HEALTH_REGEN deltaTime : R) (p : Potato.t)
  : Potato.t :=
  if JS.ltb (Potato.health p) 100 then
    withHealth p (Rmin (Potato.health p + HEALTH_REGEN * deltaTime) 100)
  else p.

(** [getRaceProgress(totalCheckpoints, totalLaps)]. *)
Definition getRaceProgress (totalCheckpoints totalLaps : R) (p : Potato.t)
  : R :=
  let checkpointProgress := INR (Potato.checkpoint p) / totalCheckpoints in
  let lapProgress := (INR (Potato.lap p) - 1) / totalLaps in
  Helpers.clamp (lapProgress + checkpointProgress / totalLaps) 0 1.

End PotatoHealth.

(** ** powerup.js: class PowerUp *)

Module PowerUp.

(** The fields of a power-up that collecting and respawning read or
    write.  [effectDuration] and [effectStrength] are the values that
    [setupPowerUpType] stores for the type. *)
Record t : Type := mk {
  active : bool;
  type : string;
  respawnTime : R;
  respawnTimer : R;
  effectDuration : R;
  effectStrength : R
}.

(** [setupPowerUpType()]: duration and strength by type. *)
Definition setupPowerUpType (ty : string) : R * R :=
  if String.eqb ty "boost"%string then (3000, 15 / 10)
  else if String.eqb ty "shield"%string then (5000, 100)
  else if String.eqb ty "missile"%string then (0, 1)
  else if String.eqb ty "oil"%string then (0, 1)
  else if String.eqb ty "repair"%string then (0, 30)
  else (3000, 1).

(** The state the constructor leaves for a type other than ['random'];
    [RESPAWN_TIME] is [CONFIG.POWERUPS.RESPAWN_TIME], which may be
    missing. *)
Definition constructor (RESPAWN_TIME : option R) (ty : string) : t :=
  mk true ty (JS.or_opt RESPAWN_TIME 10000) 0
     (fst (setupPowerUpType ty)) (snd (setupPowerUpType ty)).

(** [update(deltaTime)]; for an active power-up it only animates the
    drawing. *)
Definition update (deltaTime : R) (u : t) : t :=
  if negb (active u) then
    let timer := respawnTimer u + deltaTime * 1000 in
    if JS.geb timer (respawnTime u) then
      mk true (type u) (respawnTime u) 0 (effectDuration u) (effectStrength u)
    else
      mk false (type u) (respawnTime u) timer
         (effectDuration u) (effectStrength u)
  else u.

(** The object returned by [collect], without its colour string. *)
Record effect : Type := mkEffect {
  effectType : string;
  duration : R;
  strength : R
}.

(** [collect(potato)] for a potato: the power-up, the potato and the
    returned value ([None] is [null]). *)
Definition collect (CONFIG : Config.t) (u : t) (potato : Potato.t)
  : t * Potato.t * option effect :=
  if negb (active u) then (u, potato, None)
  else
    (mk false (type u) (respawnTime u) 0 (effectDuration u) (effectStrength u),
     fst (Potato.addPowerup CONFIG (type u) potato),
     Some (mkEffect (type u) (effectDuration u) (effectStrength u))).

End PowerUp.

(** ** sprite.js: the collision test *)

Module SpriteCollision.

(** The value returned by [checkCollision]: [false], [true], or the
    collision data of a sprite with [advancedCollision]. *)
Inductive result : Type :=
| NoCollision
| Simple
| Advanced (c : collision).

(** [(collider && collider.radius) || radius || 20]. *)
Definition collisionRadius (colliderRadius radius : option R) : R :=
  JS.or_opt colliderRadius (JS.or_opt radius 20).

(** [dx / distance || 0]: [0 / 0] is [NaN], which is falsy. *)
Definition component (dx distance : R) : R :=
  if Req_dec_T distance 0 then 0 else JS.or_num (dx / distance) 0.

(** [checkCollision(other)] on the positions and collision radii of the
    two sprites. *)
Definition checkCollision (advancedCollision : bool)
  (thisPos : Vec) (thisRadius : R) (otherPos : Vec) (otherRadius : R)
  : result :=
  let dx := Vector2.x thisPos - Vector2.x otherPos in
  let dy := Vector2.y thisPos - Vector2.y otherPos in
  let distance := sqrt (dx * dx + dy * dy) in
  let minDistance := thisRadius + otherRadius in
  if JS.ltb distance minDistance then
    if advancedCollision then
      let nx := component dx distance in
      let ny := component dy distance in
      Advanced
        (mkCollision true
           (Some (Vector2.mk nx ny))
           (Some (minDistance - distance))
           (Some (Vector2.mk (Vector2.x thisPos + nx * thisRadius)
                             (Vector2.y thisPos + ny * thisRadius))))
    else Simple
  else NoCollision.

(** What [Physics.resolveCollision] finds in a truthy result: the fields
    of the data, and nothing in [true]. *)
Definition dataOf (r : result) : collision :=
  match r with
  | Advanced c => c
  | _ => mkCollision false None None None
  end.

End SpriteCollision.

(** ** powerup.js: the motion of a potato *)

Module PotatoMotion.

(** A potato with the fields that speed limit and collisions read or
    write beside those of [Potato.t].  [advancedCollision] and
    [isColliding] are set by no constructor. *)
Record t : Type := mk {
  potato : Potato.t;
  active : bool;
  velocity : Vec;
  topSpeed : R;
  mass : R;
  restitution : R;
  currentTerrain : option Area.terrain;
  advancedCollision : bool;
  isColliding : option bool
}.

Definition position (r : t) : Vec := Potato.position (potato r).

Definition setPosition (p : Potato.t) (pos : Vec) : Potato.t :=
  Potato.mk pos (Potato.rotation p) (Potato.width p) (Potato.height p)
            (Potato.colliderRadius p) (Potato.checkpoint p) (Potato.lap p)
            (Potato.health p) (Potato.finished p)
            (Potato.lastCheckpointTime p) (Potato.lapStartTime p)
            (Potato.bestLapTime p) (Potato.activePowerups p)
            (Potato.isShielded p).

Definition withPotato (r : t) (p : Potato.t) : t :=
  mk p (active r) (velocity r) (topSpeed r) (mass r) (restitution r)
     (currentTerrain r) (advancedCollision r) (isColliding r).

Definition withVelocity (r : t) (v : Vec) : t :=
  mk (potato r) (active r) v (topSpeed r) (mass r) (restitution r)
     (currentTerrain r) (advancedCollision r) (isColliding r).

Definition withColliding (r : t) (b : bool) : t :=
  mk (potato r) (active r) (velocity r) (topSpeed r) (mass r) (restitution r)
     (currentTerrain r) (advancedCollision r) (Some b).

(** The potato as [Physics] reads it: position, velocity, mass and
    restitution; a potato has no [radius] of its own. *)
Definition asObject (r : t) : Physics.object :=
  Physics.mkObject (position r) (velocity r) Vector2.zero
                   (Potato.rotation (potato r)) None None
                   (Some (mass r)) (Some (restitution r)) None.

(** The position and velocity that [Physics] left in the object. *)
Definition fromObject (r : t) (o : Physics.object) : t :=
  withVelocity (withPotato r (setPosition (potato r) (Physics.position o)))
               (Physics.velocity o).

Section WithConfig.

Variable CONFIG : Config.t.

(** The loop of [limitSpeed] over the active power-ups. *)
Definition boosted (effectiveTopSpeed : R) (q : Potato.powerup) : R :=
  if String.eqb (Potato.type q) (Config.id (Config.SPEED_BOOST CONFIG))
  then effectiveTopSpeed * (13 / 10)
  else if String.eqb (Potato.type q)
                     (Config.id (Config.SIZE_REDUCTION CONFIG))
  then effectiveTopSpeed * (11 / 10)
  else effectiveTopSpeed.

Definition effectiveTopSpeed (r : t) : R :=
  let s := fold_left boosted (Potato.activePowerups (potato r)) (topSpeed r) in
  match currentTerrain r with
  | Some terrain =>
      if String.eqb (Area.id terrain) "mud" then s * (7 / 10) else s
  | None => s
  end.

(** [limitSpeed()]. *)
Definition limitSpeed (r : t) : t :=
  withVelocity r
    (Physics.velocity (Physics.limitSpeed (asObject r) (effectiveTopSpeed r))).

(** [checkTrackBoundaries(track)]; [BOUNCE_FACTOR] is
    [CONFIG.PHYSICS.BOUNCE_FACTOR].  A colliding result of
    [checkBoundaryCollision] always carries a normal and an overlap. *)
Definition checkTrackBoundaries (BOUNCE_FACTOR : R) (track : Track.t)
  (r : t) : t :=
  let collision :=
    Track.checkBoundaryCollision track (position r)
                                 (Potato.colliderRadius (potato r)) in
  if colliding collision then
    match normal collision, overlap collision with
    | Some n, Some ov =>
        let pos :=
          Vector2.mk (Vector2.x (position r) + Vector2.x n * ov)
                     (Vector2.y (position r) + Vector2.y n * ov) in
        let moved := withPotato r (setPosition (potato r) pos) in
        let dotProduct :=
          Vector2.x (velocity r) * Vector2.x n
          + Vector2.y (velocity r) * Vector2.y n in
        if JS.ltb dotProduct 0 then
          let vx :=
            (Vector2.x (velocity r)
             - 2 * dotProduct * Vector2.x n * BOUNCE_FACTOR) * (8 / 10) in
          let vy :=
            (Vector2.y (velocity r)
             - 2 * dotProduct * Vector2.y n * BOUNCE_FACTOR) * (8 / 10) in
          let bounced :=
            withColliding (withVelocity moved (Vector2.mk vx vy)) true in
          if negb (Potato.isShielded (potato bounced)) then
            withPotato bounced (PotatoHealth.applyDamage 5 (potato bounced))
          else bounced
        else moved
    | _, _ => r
    end
  else withColliding r false.

(** [activePowerups.some(p => p.type === CONFIG.POWERUPS.GHOST.id)]. *)
Definition hasGhost (r : t) : bool :=
  Potato.hasType (Config.id (Config.GHOST CONFIG))
                 (Potato.activePowerups (potato r)).

Definition damaged (damageFactor relativeSpeed : R) (r : t) : t :=
  if negb (Potato.isShielded (potato r)) && JS.gtb relativeSpeed 1 then
    withPotato r
      (PotatoHealth.applyDamage
         (damageFactor * relativeSpeed / JS.or_num (topSpeed r) 5)
         (potato r))
  else r.

(** One turn of the loop of [checkPotatoCollisions], for another potato
    than [this], with [Physics] loaded; [COLLISION_DAMAGE] is
    [CONFIG.PHYSICS.COLLISION_DAMAGE], which may be missing. *)
Definition pairCollision (COLLISION_DAMAGE : option R) (this other : t)
  : t * t :=
  if negb (active other) then (this, other)
  else if hasGhost this || hasGhost other then (this, other)
  else
    let collision :=
      SpriteCollision.checkCollision
        (advancedCollision this)
        (position this)
        (SpriteCollision.collisionRadius
           (Some (Potato.colliderRadius (potato this))) None)
        (position other)
        (SpriteCollision.collisionRadius
           (Some (Potato.colliderRadius (potato other))) None) in
    match collision with
    | SpriteCollision.NoCollision => (this, other)
    | _ =>
        let (a, b) :=
          Physics.resolveCollision (asObject this) (asObject other)
                                   (SpriteCollision.dataOf collision) in
        let this1 := fromObject this a in
        let other1 := fromObject other b in
        let relativeSpeed :=
          Rabs (Physics.getSpeed (asObject this1)
                - Physics.getSpeed (asObject other1)) in
        let damageFactor := JS.or_opt COLLISION_DAMAGE 5 in
        (damaged damageFactor relativeSpeed this1,
         damaged damageFactor relativeSpeed other1)
    end.

(** [checkPotatoCollisions(otherPotatoes)], for a list of potatoes other
    than [this]: the potato and the others after the loop. *)
Fixpoint checkPotatoCollisions (COLLISION_DAMAGE : option R) (this : t)
  (otherPotatoes : list t) : t * list t :=
  match otherPotatoes with
  | [] => (this, [])
  | other :: rest =>
      let (this1, other1) := pairCollision COLLISION_DAMAGE this other in
      let (this2, rest1) := checkPotatoCollisions COLLISION_DAMAGE this1 rest in
      (this2, other1 :: rest1)
  end.

End WithConfig.

End PotatoMotion.

(** ** track.js: the starting grid *)

Module Grid.

(** [generateStartPositions()]: four pairs of a position and an angle;
    [startPosition] and [startAngle] are the fields of the track. *)
Definition generateStartPositions (startPosition : Vec) (startAngle : R)
  : list (Vec * R) :=
  let angleRad := startAngle * (PI / 180) in
  let dirX := cos angleRad in
  let dirY := sin angleRad in
  let perpX := - dirY in
  let perpY := dirX in
  [(Vector2.mk (Vector2.x startPosition - perpX * 25)
               (Vector2.y startPosition - perpY * 25), startAngle);
   (Vector2.mk (Vector2.x startPosition + perpX * 25)
               (Vector2.y startPosition + perpY * 25), startAngle);
   (Vector2.mk (Vector2.x startPosition - perpX * 25 - dirX * 50)
               (Vector2.y startPosition - perpY * 25 - dirY * 50), startAngle);
   (Vector2.mk (Vector2.x startPosition + perpX * 25 - dirX * 50)
               (Vector2.y startPosition + perpY * 25 - dirY * 50), startAngle)].

End Grid.

(** ** camera.js: zoom and coordinates *)

Module Camera.

Record t : Type := mk {
  position : Vec;
  width : R;
  height : R;
  zoom : R;
  maxZoom : R;
  minZoom : R
}.

Definition constructor (width height : R) : t :=
  mk Vector2.zero width height 1 2 (1 / 2).

Definition setZoom (z : R) (c : t) : t :=
  mk (position c) (width c) (height c)
     (Helpers.clamp z (minZoom c) (maxZoom c)) (maxZoom c) (minZoom c).

Definition worldToScreen (c : t) (worldX worldY : R) : Vec :=
  Vector2.mk (worldX * zoom c + Vector2.x (position c))
             (worldY * zoom c + Vector2.y (position c)).

Definition screenToWorld (c : t) (screenX screenY : R) : Vec :=
  Vector2.mk ((screenX - Vector2.x (position c)) / zoom c)
             ((screenY - Vector2.y (position c)) / zoom c).

End Camera.

(** ** Vocabulary of the statements *)

(** The unit vector along [v]. *)
Definition direction (v : Vec) : Vec := Vector2.scale (/ Vector2.norm v) v.

(** A body at the origin with velocity [v], and a circle of radius [r]
    centred at [c]: the concrete inputs of the examples. *)
Definition movingBody (v : Vec) : Physics.object :=
  Physics.mkObject Vector2.zero v Vector2.zero 0 None None None None None.

Definition circleAt (c : Vec) (r : R) : Physics.object :=
  Physics.mkObject c Vector2.zero Vector2.zero 0 None None None None (Some r).

(** A body of radius [r] at [c] with velocity [v]. *)
Definition bodyAt (c v : Vec) (r : R) : Physics.object :=
  Physics.mkObject c v Vector2.zero 0 None None None None (Some r).

(** [deeper c1 c2]: both results carry an overlap and the overlap of [c2]
    is at least that of [c1]. *)
Definition deeper (c1 c2 : collision) : Prop :=
  exists o1 o2 : R, overlap c1 = Some o1 /\ overlap c2 = Some o2 /\ o1 <= o2.

(** The sprite of the friction example: at the origin, moving at
    [(4, 0)], with [friction = 1/4]. *)
Definition slidingSprite : Sprite.t :=
  Sprite.mk true Vector2.zero (Vector2.mk 4 0) Vector2.zero 0 (Some 0)
            (Some (1 / 4)).

(** The test of one boundary segment against the circle [(p, r)], as
    [checkBoundaryCollision] runs it. *)
Definition segmentHit (p : Vec) (r : R) (s : Track.segment) : collision :=
  Track.lineCircleCollision (Track.start s) (Track.end_ s) p r.

(** The kinds of the active power-ups of a potato, in list order. *)
Definition kinds (p : Potato.t) : list string :=
  map Potato.type (Potato.activePowerups p).

(** A track whose outer boundary is the square with corners [(0, 0)] and
    [(10, 10)], without inner boundary and without checkpoints. *)
Definition squareTrack : Track.t :=
  Track.mk []
           [Vector2.mk 0 0; Vector2.mk 10 0; Vector2.mk 10 10; Vector2.mk 0 10]
           [].

(** Checkpoint tests of a run, given as clock readings and results. *)
Definition firstLapTicks : list (R * option (nat * bool)) :=
  [(1, Some (1%nat, false)); (2, Some (3%nat, false));
   (3, Some (2%nat, false)); (4, None); (5, Some (0%nat, true));
   (6, Some (3%nat, false))].

(** The sum of two vectors, and the vector [n] turned by a quarter turn. *)
Definition vadd (u v : Vec) : Vec :=
  Vector2.mk (Vector2.x u + Vector2.x v) (Vector2.y u + Vector2.y v).

Definition perp (n : Vec) : Vec := Vector2.mk (- Vector2.y n) (Vector2.x n).

(** The momentum [mass * velocity] of a body, with the mass that
    [resolveCollision] uses. *)
Definition momentum (o : Physics.object) : Vec :=
  Vector2.scale (JS.or_opt (Physics.mass o) 1) (Physics.velocity o).

(** The restitution that [resolveCollision] uses for a pair. *)
Definition pairRestitution (a b : Physics.object) : R :=
  Rmin (JS.defined_or (Physics.restitution a) (1 / 2))
       (JS.defined_or (Physics.restitution b) (1 / 2)).

(** A body with mass [m] and velocity [v] at position [c]. *)
Definition massiveBody (c v : Vec) (m : R) : Physics.object :=
  Physics.mkObject c v Vector2.zero 0 None None (Some m) None (Some 1).

(** The point of the segment from [s] to [e] at parameter [t]. *)
Definition pointAt (s e : Vec) (t : R) : Vec :=
  Vector2.mk (Vector2.x s + t * (Vector2.x e - Vector2.x s))
             (Vector2.y s + t * (Vector2.y e - Vector2.y s)).

(** The distance between two points. *)
Definition dist (p q : Vec) : R := Vector2.norm (Vector2.sub p q).

(** The middle of a checkpoint hitbox. *)
Definition midpoint (h : Track.hitbox) : Vec :=
  Vector2.mk ((Vector2.x (Track.hstart h) + Vector2.x (Track.hend h)) / 2)
             ((Vector2.y (Track.hstart h) + Vector2.y (Track.hend h)) / 2).

(** The distance from [(px, py)] to a checkpoint hitbox, as
    [checkCheckpoint] computes it. *)
Definition hitboxDistance (px py : R) (h : Track.hitbox) : R :=
  Track.pointToLineDistance (Vector2.mk px py) (Track.hstart h) (Track.hend h).

(** A track with two checkpoints on the x axis, 100 apart. *)
Definition twoGateTrack : Track.t :=
  Track.mk [] []
           [Track.mkCheckpoint 0 0 (Some 90) (Some 40);
            Track.mkCheckpoint 100 0 None None].

(** A terrain table with asphalt and mud, and three patches: a far circle
    of mud, a circle round [(20, 20)] whose type is written in lower case,
    and a square of mud over the same place. *)
Definition asphaltAndMud : Area.table :=
  [("ASPHALT"%string, Area.asphaltLiteral);
   ("MUD"%string, Area.mkTerrain "mud"%string (5 / 10) (4 / 10) "#8B4513"%string)].

Definition farMud : Area.patch :=
  Area.mkPatch (Area.Circle 100 100 1) (Some "MUD"%string).

Definition lowerCaseMud : Area.patch :=
  Area.mkPatch (Area.Circle 20 20 5) (Some "mud"%string).

Definition squareOfMud : Area.patch :=
  Area.mkPatch (Area.Rect 20 20 10 10 None) (Some "MUD"%string).

(** A circle round [(20, 20)] whose type is the name of a method that every
    object has. *)
Definition toStringPatch : Area.patch :=
  Area.mkPatch (Area.Circle 20 20 5) (Some "toString"%string).

(** A fresh potato that has collected an oil slick. *)
Definition holdingSlick : Potato.t :=
  fst (Potato.addPowerup Config.defaults "oil"%string (Potato.constructor 0 0)).

(** The calls that write the health of a potato, and a run of them;
    [regen] is [CONFIG.BALANCE.HEALTH_REGEN]. *)
Inductive healthCall : Type :=
| ApplyDamage (amount : R)
| RegenerateHealth (deltaTime : R)
| CompleteLap (now : R).

Definition healthStep (cfg : Config.t) (regen : R) (p : Potato.t)
  (c : healthCall) : Potato.t :=
  match c with
  | ApplyDamage amount => PotatoHealth.applyDamage amount p
  | RegenerateHealth dt => PotatoHealth.regenerateHealth regen dt p
  | CompleteLap now => Potato.completeLap cfg now p
  end.

Definition healthRun (cfg : Config.t) (regen : R) (p : Potato.t)
  (cs : list healthCall) : Potato.t :=
  fold_left (healthStep cfg regen) cs p.

(** The frames of a run of [update] calls on a power-up, and the
    milliseconds they add up to. *)
Definition frames (dts : list R) (u : PowerUp.t) : PowerUp.t :=
  fold_left (fun v dt => PowerUp.update dt v) dts u.

Definition elapsed (dts : list R) : R :=
  fold_right (fun dt acc => dt * 1000 + acc) 0 dts.

(** The speed of a potato. *)
Definition speed (r : PotatoMotion.t) : R :=
  Vector2.norm (PotatoMotion.velocity r).

(** A potato at [(x, y)] with velocity [v] and top speed 5, as the
    constructors leave the other fields. *)
Definition racer (x y : R) (v : Vec) : PotatoMotion.t :=
  PotatoMotion.mk (Potato.constructor x y) true v 5 1 (1 / 2) None false None.

(** The boundary segments of a track, in the order in which
    [checkBoundaryCollision] tests them. *)
Definition boundarySegments (tr : Track.t) : list Track.segment :=
  Track.innerBoundarySegments tr ++ Track.outerBoundarySegments tr.

(** The distance from [p] to a boundary segment. *)
Definition segmentDistance (p : Vec) (s : Track.segment) : R :=
  Track.pointToLineDistance p (Track.start s) (Track.end_ s).

(** A track whose only boundary is a wall from [(0, 0)] to [(10, 0)], run
    in both directions. *)
Definition wallTrack : Track.t :=
  Track.mk [] [Vector2.mk 0 0; Vector2.mk 10 0] [].

(** The potatoes of a list hold positive masses. *)
Definition positiveMasses (rs : list PotatoMotion.t) : Prop :=
  Forall (fun r => 0 < PotatoMotion.mass r) rs.

(** [n] calls of [Sprite.update] with the same frame time. *)
Definition updates (n : nat) (dt : R) (s : Sprite.t) : Sprite.t :=
  Nat.iter n (fun s' => Sprite.update s' dt) s.

(** The rectangle with corners [(x0, y0)] and [(x1, y1)] as a polygon. *)
Definition rectangle (x0 y0 x1 y1 : R) : list Vec :=
  [Vector2.mk x0 y0; Vector2.mk x1 y0; Vector2.mk x1 y1; Vector2.mk x0 y1].

(** * Properties *)

(** ** Comparisons and guards *)

Lemma ltb_true (a b : R) : JS.ltb a b = true <-> a < b.
Proof.
  unfold JS.ltb. destruct (Rlt_dec a b); split; intro H;
    [assumption | reflexivity | discriminate | contradiction].
Qed.

Lemma ltb_false (a b : R) : JS.ltb a b = false <-> b <= a.
Proof.
  unfold JS.ltb. destruct (Rlt_dec a b); split; intro H;
    [discriminate | lra | lra | reflexivity].
Qed.

Lemma gtb_true (a b : R) : JS.gtb a b = true <-> b < a.
Proof. unfold JS.gtb. apply ltb_true. Qed.

Lemma gtb_false (a b : R) : JS.gtb a b = false <-> a <= b.
Proof. unfold JS.gtb. apply ltb_false. Qed.

Lemma geb_true (a b : R) : JS.geb a b = true <-> b <= a.
Proof.
  unfold JS.geb. destruct (Rle_dec b a); split; intro H;
    [assumption | reflexivity | discriminate | contradiction].
Qed.

Lemma geb_false (a b : R) : JS.geb a b = false <-> a < b.
Proof.
  unfold JS.geb. destruct (Rle_dec b a); split; intro H;
    [discriminate | lra | lra | reflexivity].
Qed.

Lemma or_num_zero (v : R) : JS.or_num v 0 = v.
Proof. unfold JS.or_num. destruct (Req_dec_T v 0); congruence. Qed.

Lemma or_num_nonzero (v d : R) : d <> 0 -> JS.or_num v d <> 0.
Proof. unfold JS.or_num. destruct (Req_dec_T v 0); auto. Qed.

Lemma or_num_of_zero (d : R) : JS.or_num 0 d = d.
Proof. unfold JS.or_num. destruct (Req_dec_T 0 0); congruence. Qed.

Lemma or_num_keep (v d : R) : v <> 0 -> JS.or_num v d = v.
Proof. unfold JS.or_num. destruct (Req_dec_T v 0); congruence. Qed.

(** ** Vectors *)

Lemma vec_eta (v : Vec) : Vector2.mk (Vector2.x v) (Vector2.y v) = v.
Proof. destruct v; reflexivity. Qed.

Lemma norm_nonneg (v : Vec) : 0 <= Vector2.norm v.
Proof. apply sqrt_pos. Qed.

Lemma sqrt_of_square (s : R) : 0 <= s -> sqrt (s * s) = s.
Proof. intro H. apply sqrt_square; assumption. Qed.

Lemma norm_scale (k : R) (v : Vec) :
  0 <= k -> Vector2.norm (Vector2.scale k v) = k * Vector2.norm v.
Proof.
  intro Hk. unfold Vector2.norm, Vector2.scale; simpl.
  replace (Vector2.x v * k * (Vector2.x v * k) + Vector2.y v * k * (Vector2.y v * k))
    with ((k * k) * (Vector2.x v * Vector2.x v + Vector2.y v * Vector2.y v))
    by ring.
  rewrite sqrt_mult_alt by nra.
  rewrite sqrt_of_square by assumption. reflexivity.
Qed.

Lemma norm_zero_iff (v : Vec) : Vector2.norm v = 0 <-> v = Vector2.zero.
Proof.
  unfold Vector2.norm, Vector2.zero. destruct v as [a b]; simpl. split.
  - intro H. apply sqrt_eq_0 in H; [| nra].
    assert (a = 0) by nra. assert (b = 0) by nra. subst. reflexivity.
  - intro H. injection H as -> ->.
    replace (0 * 0 + 0 * 0) with 0 by ring. apply sqrt_0.
Qed.

(** ** [Physics.getSpeed] and [Physics.limitSpeed] *)

Lemma getSpeed_norm (o : Physics.object) :
  Physics.getSpeed o = Vector2.norm (Physics.velocity o).
Proof. unfold Physics.getSpeed. rewrite !or_num_zero. reflexivity. Qed.

Lemma getSpeed_set_velocity (o : Physics.object) (v : Vec) :
  Physics.getSpeed (Physics.set_velocity o v) = Vector2.norm v.
Proof. rewrite getSpeed_norm. reflexivity. Qed.

Lemma limitSpeed_over (o : Physics.object) (m : R) :
  m < Physics.getSpeed o ->
  Physics.limitSpeed o m =
  Physics.set_velocity o
    (Vector2.scale (m / Physics.getSpeed o) (Physics.velocity o)).
Proof.
  intro H. unfold Physics.limitSpeed.
  apply gtb_true in H. rewrite H. reflexivity.
Qed.

Lemma limitSpeed_under (o : Physics.object) (m : R) :
  Physics.getSpeed o <= m -> Physics.limitSpeed o m = o.
Proof.
  intro H. unfold Physics.limitSpeed.
  apply gtb_false in H. rewrite H. reflexivity.
Qed.

Lemma limitSpeed_speed (o : Physics.object) (m : R) :
  0 <= m -> m < Physics.getSpeed o ->
  Physics.getSpeed (Physics.limitSpeed o m) = m.
Proof.
  intros Hm H. rewrite limitSpeed_over by assumption.
  rewrite getSpeed_set_velocity.
  assert (Hs : 0 < Physics.getSpeed o) by lra.
  rewrite norm_scale.
  - rewrite <- getSpeed_norm. field. lra.
  - apply Rmult_le_pos; [assumption |].
    apply Rlt_le, Rinv_0_lt_compat; assumption.
Qed.

Lemma norm_of (a b s : R) :
  0 <= s -> a * a + b * b = s * s -> Vector2.norm (Vector2.mk a b) = s.
Proof.
  intros Hs H. unfold Vector2.norm; simpl. rewrite H.
  apply sqrt_of_square; assumption.
Qed.

Lemma direction_scale (k : R) (v : Vec) :
  0 < k -> Vector2.norm v <> 0 ->
  direction (Vector2.scale k v) = direction v.
Proof.
  intros Hk Hv. unfold direction.
  rewrite norm_scale by lra.
  unfold Vector2.scale; simpl. f_equal; field; split; lra.
Qed.

(** C4 (as amended), in exact arithmetic.  For a non-negative [maxSpeed]:
    a body faster than [maxSpeed] leaves [limitSpeed] with speed exactly
    [maxSpeed], its velocity multiplied by the non-negative ratio
    [maxSpeed / speed], hence with the same direction (the same unit
    vector when [maxSpeed] is positive); a body with speed at most
    [maxSpeed] is left unchanged. *)
Theorem limitSpeed_caps_speed (o : Physics.object) (maxSpeed : R) :
  0 <= maxSpeed ->
  (maxSpeed < Physics.getSpeed o ->
   Physics.getSpeed (Physics.limitSpeed o maxSpeed) = maxSpeed /\
   Physics.velocity (Physics.limitSpeed o maxSpeed) =
     Vector2.scale (maxSpeed / Physics.getSpeed o) (Physics.velocity o) /\
   0 <= maxSpeed / Physics.getSpeed o /\
   (0 < maxSpeed ->
    direction (Physics.velocity (Physics.limitSpeed o maxSpeed)) =
    direction (Physics.velocity o))) /\
  (Physics.getSpeed o <= maxSpeed -> Physics.limitSpeed o maxSpeed = o).
Proof.
  intro Hm. split.
  - intro Hover.
    assert (Hs : 0 < Physics.getSpeed o) by lra.
    split; [apply limitSpeed_speed; assumption |].
    rewrite limitSpeed_over by assumption. simpl.
    split; [reflexivity |]. split.
    + apply Rmult_le_pos; [assumption |].
      apply Rlt_le, Rinv_0_lt_compat; assumption.
    + intro Hpos. apply direction_scale.
      * apply Rmult_lt_0_compat; [assumption |].
        apply Rinv_0_lt_compat; assumption.
      * rewrite <- getSpeed_norm. lra.
  - apply limitSpeed_under.
Qed.

Lemma speed_10_0 :
  Physics.getSpeed (movingBody (Vector2.mk 10 0)) = 10.
Proof. rewrite getSpeed_norm. apply norm_of; lra. Qed.

(** The scenario of the specification: velocity [(10, 0)] and top speed 5
    give speed 5 and velocity [(5, 0)]. *)
Lemma limitSpeed_caps_speed_witness :
  Physics.getSpeed (Physics.limitSpeed (movingBody (Vector2.mk 10 0)) 5) = 5.
Proof.
  apply (limitSpeed_caps_speed (movingBody (Vector2.mk 10 0)) 5).
  - lra.
  - rewrite speed_10_0. lra.
Defined.

(** In binary64 arithmetic too, a body that is not faster than [maxSpeed]
    is left unchanged. *)
Lemma limitSpeed_under_binary64 (v : Binary64.velocity) (maxSpeed : float) :
  PrimFloat.ltb maxSpeed (Binary64.getSpeed v) = false ->
  Binary64.limitSpeed v maxSpeed = v.
Proof. intro H. unfold Binary64.limitSpeed. rewrite H. reflexivity. Qed.

(** The same scenario in binary64 arithmetic, where it is exact: the
    ratio is [0.5] and the velocity becomes [(5, 0)]. *)
Lemma limitSpeed_scenario_binary64 :
  Binary64.same (Binary64.limitSpeed (Binary64.mkVelocity 10 0) 5)
                (Binary64.mkVelocity 5 0) = true /\
  PrimFloat.eqb
    (Binary64.getSpeed (Binary64.limitSpeed (Binary64.mkVelocity 10 0) 5)) 5
  = true.
Proof. split; vm_compute; reflexivity. Qed.

Lemma speed_3_4 :
  Physics.getSpeed (movingBody (Vector2.mk 3 4)) = 5.
Proof. rewrite getSpeed_norm. apply norm_of; lra. Qed.

Lemma speed_m3_m4 :
  Physics.getSpeed (movingBody (Vector2.mk (-3) (-4))) = 5.
Proof. rewrite getSpeed_norm. apply norm_of; lra. Qed.

Lemma limitSpeed_3_4_minus5 :
  Physics.limitSpeed (movingBody (Vector2.mk 3 4)) (-5) =
  movingBody (Vector2.mk (-3) (-4)).
Proof.
  rewrite limitSpeed_over by (rewrite speed_3_4; lra).
  rewrite speed_3_4. unfold movingBody, Physics.set_velocity, Vector2.scale.
  simpl. do 2 f_equal; field.
Qed.

Lemma limitSpeed_m3_m4_minus5 :
  Physics.limitSpeed (movingBody (Vector2.mk (-3) (-4))) (-5) =
  movingBody (Vector2.mk 3 4).
Proof.
  rewrite limitSpeed_over by (rewrite speed_m3_m4; lra).
  rewrite speed_m3_m4. unfold movingBody, Physics.set_velocity, Vector2.scale.
  simpl. do 2 f_equal; field.
Qed.

(** C4, counterexample.  The claim fails as stated in two ways.
    With a negative [maxSpeed]: for velocity [(3, 4)] (speed 5) and
    [maxSpeed = -5] the speed exceeds [maxSpeed], yet [limitSpeed] leaves
    speed 5, not [-5], and reverses the velocity to [(-3, -4)].
    In binary64 arithmetic: for velocity [(3, 3)] and [maxSpeed = 3] the
    speed exceeds 3, and the speed after [limitSpeed] is not 3: rounding
    leaves it one unit in the last place above. *)
Lemma limitSpeed_speed_not_exactly_max :
  (-5 < Physics.getSpeed (movingBody (Vector2.mk 3 4)) /\
   Physics.getSpeed (Physics.limitSpeed (movingBody (Vector2.mk 3 4)) (-5))
     <> -5 /\
   Physics.velocity (Physics.limitSpeed (movingBody (Vector2.mk 3 4)) (-5))
     = Vector2.mk (-3) (-4)) /\
  (PrimFloat.ltb 3 (Binary64.getSpeed (Binary64.mkVelocity 3 3)) = true /\
   PrimFloat.eqb
     (Binary64.getSpeed
        (Binary64.limitSpeed (Binary64.mkVelocity 3 3) 3)) 3 = false /\
   PrimFloat.ltb 3
     (Binary64.getSpeed
        (Binary64.limitSpeed (Binary64.mkVelocity 3 3) 3)) = true).
Proof.
  split.
  - rewrite limitSpeed_3_4_minus5, speed_3_4, speed_m3_m4.
    repeat split; [lra | lra].
  - repeat split; vm_compute; reflexivity.
Qed.

(** C5 (as amended), in exact arithmetic.  For a non-negative [maxSpeed],
    [limitSpeed] is idempotent: a second application changes nothing. *)
Theorem limitSpeed_idempotent (o : Physics.object) (maxSpeed : R) :
  0 <= maxSpeed ->
  Physics.limitSpeed (Physics.limitSpeed o maxSpeed) maxSpeed =
  Physics.limitSpeed o maxSpeed.
Proof.
  intro Hm. destruct (Rlt_dec maxSpeed (Physics.getSpeed o)) as [Hover | Hunder].
  - apply limitSpeed_under. rewrite limitSpeed_speed by assumption. lra.
  - rewrite (limitSpeed_under o maxSpeed) by lra.
    apply limitSpeed_under. lra.
Qed.

Lemma limitSpeed_idempotent_witness :
  Physics.limitSpeed
    (Physics.limitSpeed (movingBody (Vector2.mk 10 0)) 5) 5 =
  Physics.limitSpeed (movingBody (Vector2.mk 10 0)) 5.
Proof.
  apply (limitSpeed_idempotent (movingBody (Vector2.mk 10 0)) 5). lra.
Defined.

(** C5, counterexample.  The claim fails as stated in two ways.
    With [maxSpeed = -5] and velocity [(3, 4)] the first application gives
    velocity [(-3, -4)] and the second gives [(3, 4)] back.
    In binary64 arithmetic, with velocity [(3, 3)] and [maxSpeed = 3]: the
    first application leaves a speed that rounding puts just above 3, so
    the second application scales the velocity once more, and the two
    results differ. *)
Lemma limitSpeed_twice_differs_from_once :
  Physics.limitSpeed
    (Physics.limitSpeed (movingBody (Vector2.mk 3 4)) (-5)) (-5) <>
  Physics.limitSpeed (movingBody (Vector2.mk 3 4)) (-5) /\
  Binary64.same
    (Binary64.limitSpeed
       (Binary64.limitSpeed (Binary64.mkVelocity 3 3) 3) 3)
    (Binary64.limitSpeed (Binary64.mkVelocity 3 3) 3) = false.
Proof.
  split.
  - rewrite limitSpeed_3_4_minus5, limitSpeed_m3_m4_minus5.
    unfold movingBody. intro H. injection H as H1 H2. lra.
  - vm_compute. reflexivity.
Qed.

(** ** [Physics.checkCircleCollision] *)

(** Decides the comparisons of a goal whose operands are numerals, the
    equality tests first: they sit inside the compared terms. *)
Ltac decide_numbers :=
  repeat (match goal with
          | |- context [Req_dec_T ?a ?b] => destruct (Req_dec_T a b)
          | |- context [Rlt_dec ?a ?b] => destruct (Rlt_dec a b)
          | |- context [Rle_dec ?a ?b] => destruct (Rle_dec a b)
          end; cbv beta iota; try lra).

Lemma sum_squares_nonneg (u v : R) : 0 <= u * u + v * v.
Proof. nra. Qed.

Lemma sum_squares_zero (u v : R) : u * u + v * v = 0 -> u = 0 /\ v = 0.
Proof. intro H. split; nra. Qed.

Lemma centreDistance_sym (a b : Physics.object) :
  Physics.centreDistance a b = Physics.centreDistance b a.
Proof. unfold Physics.centreDistance. f_equal. ring. Qed.

Lemma centreDistance_nonneg (a b : Physics.object) :
  0 <= Physics.centreDistance a b.
Proof. apply sqrt_pos. Qed.

Lemma centreDistance_zero (a b : Physics.object) :
  Physics.position a = Physics.position b -> Physics.centreDistance a b = 0.
Proof.
  intro H. unfold Physics.centreDistance. rewrite H.
  rewrite !Rminus_diag. rewrite Rmult_0_l, Rplus_0_l. apply sqrt_0.
Qed.

Lemma centreDistance_pos (a b : Physics.object) :
  Physics.position a <> Physics.position b -> 0 < Physics.centreDistance a b.
Proof.
  intro H. destruct (centreDistance_nonneg a b) as [Hp | Hz]; [assumption |].
  exfalso. apply H. symmetry in Hz. unfold Physics.centreDistance in Hz.
  cbv zeta in Hz. apply sqrt_eq_0 in Hz; [| apply sum_squares_nonneg].
  apply sum_squares_zero in Hz. destruct Hz as [Hx Hy].
  destruct (Physics.position a) as [xa ya], (Physics.position b) as [xb yb].
  simpl in Hx, Hy. f_equal; lra.
Qed.

Lemma normalDivisor_sym (a b : Physics.object) :
  Physics.normalDivisor a b = Physics.normalDivisor b a.
Proof. unfold Physics.normalDivisor. rewrite centreDistance_sym. reflexivity. Qed.

(** The divisor of the normal is never zero. *)
Lemma normalDivisor_nonzero (a b : Physics.object) :
  Physics.normalDivisor a b <> 0.
Proof. apply or_num_nonzero. lra. Qed.

Lemma checkCircleCollision_colliding (a b : Physics.object) :
  colliding (Physics.checkCircleCollision a b) =
  JS.ltb (Physics.centreDistance a b)
         (JS.or_opt (Physics.radius a) 0 + JS.or_opt (Physics.radius b) 0).
Proof.
  unfold Physics.checkCircleCollision.
  destruct (JS.ltb _ _); reflexivity.
Qed.

Lemma checkCircleCollision_normal (a b : Physics.object) :
  colliding (Physics.checkCircleCollision a b) = true ->
  normal (Physics.checkCircleCollision a b) =
  Some (Vector2.mk
          ((Vector2.x (Physics.position b) - Vector2.x (Physics.position a))
           / Physics.normalDivisor a b)
          ((Vector2.y (Physics.position b) - Vector2.y (Physics.position a))
           / Physics.normalDivisor a b)).
Proof.
  unfold Physics.checkCircleCollision.
  destruct (JS.ltb _ _); [reflexivity | discriminate].
Qed.

Lemma unit_normal (dx dy : R) :
  0 < sqrt (dx * dx + dy * dy) ->
  Vector2.norm (Vector2.mk (dx / sqrt (dx * dx + dy * dy))
                           (dy / sqrt (dx * dx + dy * dy))) = 1.
Proof.
  intro Hd. set (d := sqrt (dx * dx + dy * dy)) in *.
  assert (Hsq : d * d = dx * dx + dy * dy).
  { unfold d. apply sqrt_sqrt. apply sum_squares_nonneg. }
  apply norm_of; [lra |].
  replace (dx / d * (dx / d) + dy / d * (dy / d))
    with ((dx * dx + dy * dy) / (d * d)) by (field; lra).
  rewrite <- Hsq. field. lra.
Qed.

(** C6 (as amended).  Circle-circle detection is symmetric in [colliding];
    when the circles collide the normal of [(b, a)] is the negation of the
    normal of [(a, b)], and it is a unit vector whenever the two centres
    differ. *)
Theorem checkCircleCollision_symmetric (a b : Physics.object) :
  colliding (Physics.checkCircleCollision a b) =
  colliding (Physics.checkCircleCollision b a) /\
  (colliding (Physics.checkCircleCollision a b) = true ->
   exists n : Vec,
     normal (Physics.checkCircleCollision a b) = Some n /\
     normal (Physics.checkCircleCollision b a) = Some (Vector2.neg n) /\
     (Physics.position a <> Physics.position b -> Vector2.norm n = 1)).
Proof.
  assert (Hsym : colliding (Physics.checkCircleCollision a b) =
                 colliding (Physics.checkCircleCollision b a)).
  { rewrite !checkCircleCollision_colliding.
    rewrite centreDistance_sym. f_equal. ring. }
  split; [exact Hsym |].
  intro Hab. assert (Hba := Hab). rewrite Hsym in Hba.
  eexists. split; [apply checkCircleCollision_normal; assumption |].
  split.
  - rewrite checkCircleCollision_normal by assumption.
    rewrite (normalDivisor_sym b a).
    unfold Vector2.neg; simpl. do 2 f_equal; field;
      apply normalDivisor_nonzero.
  - intro Hne. apply centreDistance_pos in Hne.
    unfold Physics.normalDivisor. rewrite or_num_keep by lra.
    apply unit_normal. exact Hne.
Qed.

Lemma unit_circles_collide :
  colliding (Physics.checkCircleCollision
               (circleAt (Vector2.mk 0 0) 1) (circleAt (Vector2.mk 1 0) 1))
  = true.
Proof.
  rewrite checkCircleCollision_colliding. apply ltb_true.
  unfold Physics.centreDistance, circleAt, JS.or_opt; simpl.
  rewrite !or_num_keep by lra.
  replace ((1 - 0) * (1 - 0) + (0 - 0) * (0 - 0)) with (1 * 1) by ring.
  rewrite sqrt_of_square; lra.
Qed.

(** Two unit circles centred at [(0, 0)] and [(1, 0)]: opposite unit
    normals. *)
Lemma checkCircleCollision_symmetric_witness :
  exists n : Vec,
    normal (Physics.checkCircleCollision
              (circleAt (Vector2.mk 0 0) 1) (circleAt (Vector2.mk 1 0) 1))
      = Some n /\
    normal (Physics.checkCircleCollision
              (circleAt (Vector2.mk 1 0) 1) (circleAt (Vector2.mk 0 0) 1))
      = Some (Vector2.neg n) /\
    Vector2.norm n = 1.
Proof.
  destruct (proj2 (checkCircleCollision_symmetric
                     (circleAt (Vector2.mk 0 0) 1)
                     (circleAt (Vector2.mk 1 0) 1))
                  unit_circles_collide) as (n & H1 & H2 & H3).
  exists n. split; [exact H1 |]. split; [exact H2 |].
  apply H3. simpl. intro H. injection H as H. lra.
Defined.


Lemma norm_zero_not_unit : Vector2.norm Vector2.zero <> 1.
Proof.
  replace (Vector2.norm Vector2.zero) with 0; [lra |].
  symmetry. apply norm_zero_iff. reflexivity.
Qed.

Lemma checkCircleCollision_same_centre (a b : Physics.object) :
  Physics.position a = Physics.position b ->
  0 < JS.or_opt (Physics.radius a) 0 + JS.or_opt (Physics.radius b) 0 ->
  Physics.checkCircleCollision a b =
  mkCollision true (Some Vector2.zero)
              (Some (JS.or_opt (Physics.radius a) 0
                     + JS.or_opt (Physics.radius b) 0))
              (Some (Physics.position a)).
Proof.
  intros Hpos Hr. unfold Physics.checkCircleCollision, Physics.normalDivisor.
  rewrite (centreDistance_zero a b Hpos).
  apply ltb_true in Hr. rewrite Hr. rewrite or_num_of_zero, Hpos.
  rewrite !Rminus_diag. unfold Vector2.zero.
  replace (0 / 1) with 0 by field. rewrite !Rmult_0_l, !Rplus_0_r, Rminus_0_r.
  rewrite vec_eta. reflexivity.
Qed.

(** C6, counterexample.  Two circles with the same centre [(1, 2)] and
    radii 1 and 2 collide in both orders, and both normals are the zero
    vector, which is not a unit vector. *)
Lemma checkCircleCollision_same_centre_normals_not_unit :
  let a := circleAt (Vector2.mk 1 2) 1 in
  let b := circleAt (Vector2.mk 1 2) 2 in
  colliding (Physics.checkCircleCollision a b) = true /\
  colliding (Physics.checkCircleCollision b a) = true /\
  normal (Physics.checkCircleCollision a b) = Some Vector2.zero /\
  normal (Physics.checkCircleCollision b a) = Some Vector2.zero /\
  Vector2.norm Vector2.zero <> 1.
Proof.
  intros a b.
  rewrite (checkCircleCollision_same_centre a b), (checkCircleCollision_same_centre b a);
    try reflexivity;
    try (unfold a, b, circleAt, JS.or_opt, JS.or_num; simpl; decide_numbers).
  simpl. repeat split; try reflexivity. apply norm_zero_not_unit.
Qed.

(** C7 (as amended).  When the centres coincide the divisor of the normal
    is 1, so nothing is divided by zero; the circles collide exactly when
    the sum of the radii is positive, and then the normal is the zero
    vector, the overlap is the sum of the radii and the contact point is
    the common centre. *)
Theorem checkCircleCollision_coincident (a b : Physics.object) :
  Physics.position a = Physics.position b ->
  Physics.normalDivisor a b = 1 /\
  (0 < JS.or_opt (Physics.radius a) 0 + JS.or_opt (Physics.radius b) 0 ->
   Physics.checkCircleCollision a b =
   mkCollision true (Some Vector2.zero)
               (Some (JS.or_opt (Physics.radius a) 0
                      + JS.or_opt (Physics.radius b) 0))
               (Some (Physics.position a))) /\
  (JS.or_opt (Physics.radius a) 0 + JS.or_opt (Physics.radius b) 0 <= 0 ->
   Physics.checkCircleCollision a b = not_colliding).
Proof.
  intro Hpos. split; [| split].
  - unfold Physics.normalDivisor.
    rewrite (centreDistance_zero a b Hpos). apply or_num_of_zero.
  - apply checkCircleCollision_same_centre; assumption.
  - intro Hr. unfold Physics.checkCircleCollision.
    rewrite (centreDistance_zero a b Hpos).
    apply ltb_false in Hr. rewrite Hr. reflexivity.
Qed.

Lemma checkCircleCollision_coincident_witness :
  Physics.normalDivisor (circleAt Vector2.zero 20) (circleAt Vector2.zero 20)
  = 1.
Proof.
  apply (checkCircleCollision_coincident
           (circleAt Vector2.zero 20) (circleAt Vector2.zero 20)).
  reflexivity.
Defined.

(** C7, counterexample.  Two circles of radius 20 centred at the origin:
    the test reports a collision whose normal is [(0, 0)], of length 0,
    not 1. *)
Lemma checkCircleCollision_coincident_normal_is_zero :
  let c :=
    Physics.checkCircleCollision (circleAt Vector2.zero 20)
                                 (circleAt Vector2.zero 20) in
  colliding c = true /\
  normal c = Some (Vector2.mk 0 0) /\
  Vector2.norm (Vector2.mk 0 0) <> 1.
Proof.
  intro c. unfold c.
  rewrite checkCircleCollision_same_centre;
    try reflexivity;
    try (unfold circleAt, JS.or_opt, JS.or_num; simpl; decide_numbers).
  simpl. repeat split; try reflexivity. apply norm_zero_not_unit.
Qed.

(** ** [Physics.resolveCollision] *)

Lemma object_eta (o : Physics.object) :
  Physics.set_velocity o (Physics.velocity o) = o.
Proof. destruct o; reflexivity. Qed.

(** The quantity tested by [resolveCollision] is the dot product of the
    relative velocity [v_a - v_b] with the normal. *)
Lemma relativeNormalVelocity_dot
  (a b : Physics.object) (c : collision) (n : Vec) :
  normal c = Some n ->
  Physics.relativeNormalVelocity a b c =
  Vector2.dot (Vector2.sub (Physics.velocity a) (Physics.velocity b)) n.
Proof.
  intro H. unfold Physics.relativeNormalVelocity. rewrite H. reflexivity.
Qed.

Lemma resolveCollision_skips (a b : Physics.object) (c : collision) :
  0 < Physics.relativeNormalVelocity a b c ->
  Physics.resolveCollision a b c = (a, b).
Proof.
  intro H. unfold Physics.resolveCollision.
  apply gtb_true in H. rewrite H. reflexivity.
Qed.

Lemma no_impulse (e d n m v : R) : v + - (1 + e) * 0 / d * n / m = v.
Proof. unfold Rdiv. ring. Qed.

Lemma no_impulse_back (e d n m v : R) : v - - (1 + e) * 0 / d * n / m = v.
Proof. unfold Rdiv. ring. Qed.

Lemma or_opt_nonzero (o : option R) (d : R) : d <> 0 -> JS.or_opt o d <> 0.
Proof.
  intro H. destruct o as [v |]; simpl; [apply or_num_nonzero |]; assumption.
Qed.

Lemma masses_sum_nonzero (ma mb : R) :
  ma <> 0 -> mb <> 0 -> 1 / ma + 1 / mb <> 0 -> mb + ma <> 0.
Proof.
  intros Ha Hb Hsum H. apply Hsum.
  replace (1 / ma + 1 / mb) with ((mb + ma) / (ma * mb)) by (field; auto).
  rewrite H. field. auto.
Qed.

(** C8 (as amended).  When the relative velocity along the normal is
    positive, [resolveCollision] leaves both bodies unchanged.  When it is
    zero the impulse is zero, so both velocities are unchanged, and the
    bodies are unchanged altogether if the collision carries no overlap.
    With a non-zero overlap the positions are corrected along the normal:
    [a] is moved by [0.2 * overlap * m_b / (m_a + m_b)] times the normal
    and [b] by [0.2 * overlap * m_a / (m_a + m_b)] times its opposite, so
    that the vector from [a] to [b] changes by minus [0.2 * overlap] times
    the normal. *)
Theorem resolveCollision_separating
  (a b : Physics.object) (c : collision) :
  (0 < Physics.relativeNormalVelocity a b c ->
   Physics.resolveCollision a b c = (a, b)) /\
  (Physics.relativeNormalVelocity a b c = 0 ->
   1 / JS.or_opt (Physics.mass a) 1 + 1 / JS.or_opt (Physics.mass b) 1 <> 0 ->
   Physics.velocity (fst (Physics.resolveCollision a b c)) =
     Physics.velocity a /\
   Physics.velocity (snd (Physics.resolveCollision a b c)) =
     Physics.velocity b /\
   (JS.truthy (overlap c) = false ->
    Physics.resolveCollision a b c = (a, b)) /\
   (forall (n : Vec) (ov : R),
      normal c = Some n -> overlap c = Some ov -> ov <> 0 ->
      let ma := JS.or_opt (Physics.mass a) 1 in
      let mb := JS.or_opt (Physics.mass b) 1 in
      Physics.position (fst (Physics.resolveCollision a b c)) =
        Vector2.mk
          (Vector2.x (Physics.position a)
           + Vector2.x n * (ov * (2 / 10)) * mb / (ma + mb))
          (Vector2.y (Physics.position a)
           + Vector2.y n * (ov * (2 / 10)) * mb / (ma + mb)) /\
      Physics.position (snd (Physics.resolveCollision a b c)) =
        Vector2.mk
          (Vector2.x (Physics.position b)
           - Vector2.x n * (ov * (2 / 10)) * ma / (ma + mb))
          (Vector2.y (Physics.position b)
           - Vector2.y n * (ov * (2 / 10)) * ma / (ma + mb)) /\
      Vector2.sub (Physics.position (snd (Physics.resolveCollision a b c)))
                  (Physics.position (fst (Physics.resolveCollision a b c))) =
        Vector2.sub (Vector2.sub (Physics.position b) (Physics.position a))
                    (Vector2.scale (ov * (2 / 10)) n))).
Proof.
  split; [apply resolveCollision_skips |].
  intros Hdot Hsum.
  assert (Hgt : JS.gtb 0 0 = false) by (apply gtb_false; lra).
  split; [| split; [| split]].
  - unfold Physics.resolveCollision. rewrite Hdot, Hgt.
    rewrite !no_impulse, !no_impulse_back, !vec_eta.
    destruct (JS.truthy (overlap c)); reflexivity.
  - unfold Physics.resolveCollision. rewrite Hdot, Hgt.
    rewrite !no_impulse, !no_impulse_back, !vec_eta.
    destruct (JS.truthy (overlap c)); reflexivity.
  - intro Hov. unfold Physics.resolveCollision. rewrite Hdot, Hgt, Hov.
    rewrite !no_impulse, !no_impulse_back, !vec_eta, !object_eta.
    reflexivity.
  - intros n ov Hn Hov Hne ma mb.
    assert (Hma : ma <> 0) by (apply or_opt_nonzero; lra).
    assert (Hmb : mb <> 0) by (apply or_opt_nonzero; lra).
    assert (Hab : mb + ma <> 0)
      by (apply masses_sum_nonzero; assumption).
    assert (Ht : JS.truthy (Some ov) = true).
    { unfold JS.truthy. destruct (Req_dec_T ov 0); [contradiction |].
      reflexivity. }
    unfold Physics.resolveCollision. rewrite Hdot, Hgt, Hn, Hov, Ht.
    cbn [fst snd JS.defined_or Physics.set_position Physics.set_velocity
         Physics.position].
    fold ma mb.
    split; [reflexivity |]. split; [reflexivity |].
    unfold Vector2.sub, Vector2.scale. cbn [Vector2.x Vector2.y].
    f_equal; field; lra.
Qed.

(** A body moving away along the normal from a body at rest is left as
    it is; for two bodies at rest that overlap by 1 along the normal
    [(1, 0)], the vector from the first to the second changes by
    [(-0.2, 0)]. *)
Lemma resolveCollision_separating_witness :
  Physics.resolveCollision
    (bodyAt (Vector2.mk 1 0) (Vector2.mk 1 0) 1)
    (bodyAt (Vector2.mk 0 0) (Vector2.mk 0 0) 1)
    (mkCollision true (Some (Vector2.mk 1 0)) (Some 1)
                 (Some (Vector2.mk 1 0))) =
  (bodyAt (Vector2.mk 1 0) (Vector2.mk 1 0) 1,
   bodyAt (Vector2.mk 0 0) (Vector2.mk 0 0) 1) /\
  Vector2.sub
    (Physics.position
       (snd (Physics.resolveCollision
               (bodyAt (Vector2.mk 0 0) (Vector2.mk 0 0) 1)
               (bodyAt (Vector2.mk 1 0) (Vector2.mk 0 0) 1)
               (mkCollision true (Some (Vector2.mk 1 0)) (Some 1)
                            (Some (Vector2.mk 1 0))))))
    (Physics.position
       (fst (Physics.resolveCollision
               (bodyAt (Vector2.mk 0 0) (Vector2.mk 0 0) 1)
               (bodyAt (Vector2.mk 1 0) (Vector2.mk 0 0) 1)
               (mkCollision true (Some (Vector2.mk 1 0)) (Some 1)
                            (Some (Vector2.mk 1 0)))))) =
  Vector2.sub
    (Vector2.sub (Vector2.mk 1 0) (Vector2.mk 0 0))
    (Vector2.scale (1 * (2 / 10)) (Vector2.mk 1 0)).
Proof.
  split.
  - apply (proj1 (resolveCollision_separating
                    (bodyAt (Vector2.mk 1 0) (Vector2.mk 1 0) 1)
                    (bodyAt (Vector2.mk 0 0) (Vector2.mk 0 0) 1) _)).
    unfold Physics.relativeNormalVelocity; simpl. lra.
  - apply (proj2 (resolveCollision_separating
                    (bodyAt (Vector2.mk 0 0) (Vector2.mk 0 0) 1)
                    (bodyAt (Vector2.mk 1 0) (Vector2.mk 0 0) 1)
                    (mkCollision true (Some (Vector2.mk 1 0)) (Some 1)
                                 (Some (Vector2.mk 1 0))))).
    + unfold Physics.relativeNormalVelocity; simpl. ring.
    + unfold JS.or_opt; simpl. lra.
    + reflexivity.
    + reflexivity.
    + lra.
Defined.

(** C8, counterexample.  Two bodies at rest, of radius 1, centred at
    [(0, 0)] and [(1, 0)], with the collision data of their overlap
    (normal [(1, 0)], overlap 1): the relative velocity along the normal
    is 0, which satisfies [>= 0], yet both positions are moved, to
    [(1/10, 0)] and [(9/10, 0)]. *)
Lemma resolveCollision_at_rest_moves_positions :
  let a := bodyAt (Vector2.mk 0 0) (Vector2.mk 0 0) 1 in
  let b := bodyAt (Vector2.mk 1 0) (Vector2.mk 0 0) 1 in
  let c := mkCollision true (Some (Vector2.mk 1 0)) (Some 1)
                       (Some (Vector2.mk 1 0)) in
  0 <= Physics.relativeNormalVelocity a b c /\
  Physics.position (fst (Physics.resolveCollision a b c)) =
    Vector2.mk (1 / 10) 0 /\
  Physics.position (snd (Physics.resolveCollision a b c)) =
    Vector2.mk (9 / 10) 0 /\
  Physics.resolveCollision a b c <> (a, b).
Proof.
  intros a b c.
  assert (Hdot : Physics.relativeNormalVelocity a b c = 0).
  { unfold Physics.relativeNormalVelocity; simpl. ring. }
  assert (Ha : Physics.position (fst (Physics.resolveCollision a b c)) =
               Vector2.mk (1 / 10) 0).
  { unfold Physics.resolveCollision. rewrite Hdot.
    assert (Hgt : JS.gtb 0 0 = false) by (apply gtb_false; lra).
    rewrite Hgt. unfold JS.truthy; simpl.
    destruct (Req_dec_T 1 0); [lra |]. simpl. f_equal; field. }
  assert (Hb : Physics.position (snd (Physics.resolveCollision a b c)) =
               Vector2.mk (9 / 10) 0).
  { unfold Physics.resolveCollision. rewrite Hdot.
    assert (Hgt : JS.gtb 0 0 = false) by (apply gtb_false; lra).
    rewrite Hgt. unfold JS.truthy; simpl.
    destruct (Req_dec_T 1 0); [lra |]. simpl. f_equal; field. }
  repeat split; [lra | exact Ha | exact Hb |].
  intro H. rewrite H in Ha. simpl in Ha. injection Ha as Hx. lra.
Qed.

(** ** Friction: [Physics.updatePhysics] and [Sprite.update] *)

(** [Physics.updatePhysics] scales the integrated velocity by
    [pow (1 - friction) dt]. *)
Lemma updatePhysics_exponential_friction
  (pow : R -> R -> R) (o : Physics.object) (f dt : R) :
  Physics.friction o = Some f ->
  Physics.velocity (Physics.updatePhysics pow o dt) =
  Vector2.scale (pow (1 - f) dt)
    (Vector2.mk
       (Vector2.x (Physics.velocity o) + Vector2.x (Physics.acceleration o) * dt)
       (Vector2.y (Physics.velocity o) + Vector2.y (Physics.acceleration o) * dt)).
Proof.
  intro Hf. unfold Physics.updatePhysics. rewrite Hf. reflexivity.
Qed.

(** [Sprite.update] scales the integrated velocity by the friction value
    itself, whatever [dt] is. *)
Lemma Sprite_update_velocity (s : Sprite.t) (dt : R) :
  Sprite.active s = true ->
  Sprite.velocity (Sprite.update s dt) =
  Vector2.scale (JS.defined_or (Sprite.friction s) (98 / 100))
    (Vector2.mk
       (Vector2.x (Sprite.velocity s) + Vector2.x (Sprite.acceleration s) * dt)
       (Vector2.y (Sprite.velocity s) + Vector2.y (Sprite.acceleration s) * dt)).
Proof.
  intro Ha. unfold Sprite.update. rewrite Ha. reflexivity.
Qed.

(** C2, the code at the failing input.  A sprite moving at [(4, 0)] with
    friction [1/4], updated with [dt = 1], ends with velocity [(1, 0)]:
    the velocity was multiplied by the friction value.  The exponential
    form [(1 - 1/4) ^ 1] would give [(3, 0)]. *)
Theorem Sprite_update_friction_is_per_tick :
  Sprite.velocity (Sprite.update slidingSprite 1) = Vector2.mk 1 0 /\
  Vector2.scale (Rpower (1 - 1 / 4) 1) (Vector2.mk 4 0) = Vector2.mk 3 0 /\
  Sprite.velocity (Sprite.update slidingSprite 1) <>
  Vector2.scale (Rpower (1 - 1 / 4) 1) (Vector2.mk 4 0).
Proof.
  assert (H1 : Sprite.velocity (Sprite.update slidingSprite 1) =
               Vector2.mk 1 0).
  { rewrite Sprite_update_velocity by reflexivity.
    unfold Vector2.scale, slidingSprite; simpl. f_equal; field. }
  assert (H3 : Vector2.scale (Rpower (1 - 1 / 4) 1) (Vector2.mk 4 0) =
               Vector2.mk 3 0).
  { rewrite Rpower_1 by lra. unfold Vector2.scale; simpl. f_equal; field. }
  repeat split; [exact H1 | exact H3 |].
  rewrite H1, H3. intro H. injection H as H. lra.
Qed.

(** ** [Track.checkBoundaryCollision] *)

Lemma lineCircleCollision_colliding (s e p : Vec) (r : R) :
  colliding (Track.lineCircleCollision s e p r) =
  JS.ltb (Track.pointToLineDistance p s e) r.
Proof.
  unfold Track.lineCircleCollision, JS.geb, JS.ltb.
  destruct (Rle_dec r (Track.pointToLineDistance p s e)),
           (Rlt_dec (Track.pointToLineDistance p s e) r);
    simpl; try reflexivity; lra.
Qed.

Lemma lineCircleCollision_overlap (s e p : Vec) (r : R) :
  colliding (Track.lineCircleCollision s e p r) = true ->
  overlap (Track.lineCircleCollision s e p r) =
  Some (r - Track.pointToLineDistance p s e).
Proof.
  unfold Track.lineCircleCollision.
  destruct (JS.geb _ _); [discriminate | reflexivity].
Qed.

Lemma deeper_refl (c : collision) (o : R) : overlap c = Some o -> deeper c c.
Proof. intro H. exists o, o. repeat split; try assumption. lra. Qed.

Lemma deeper_trans (c1 c2 c3 : collision) :
  deeper c1 c2 -> deeper c2 c3 -> deeper c1 c3.
Proof.
  intros (o1 & o2 & H1 & H2 & H12) (o2' & o3 & H2' & H3 & H23).
  rewrite H2 in H2'. injection H2' as <-.
  exists o1, o3. repeat split; try assumption. lra.
Qed.

Lemma opt_gtb_false_deeper (c1 c2 : collision) (o1 o2 : R) :
  overlap c1 = Some o1 -> overlap c2 = Some o2 ->
  JS.opt_gtb (overlap c1) (overlap c2) = false -> deeper c1 c2.
Proof.
  intros H1 H2 H. rewrite H1, H2 in H. simpl in H. apply gtb_false in H.
  exists o1, o2. repeat split; assumption.
Qed.

Lemma opt_gtb_true_deeper (c1 c2 : collision) :
  JS.opt_gtb (overlap c1) (overlap c2) = true -> deeper c2 c1.
Proof.
  unfold JS.opt_gtb.
  destruct (overlap c1) as [o1 |] eqn:E1; [| discriminate].
  destruct (overlap c2) as [o2 |] eqn:E2; [| discriminate].
  intro H. apply gtb_true in H.
  exists o2, o1. repeat split; try assumption. lra.
Qed.

Lemma segmentHit_overlap (p : Vec) (r : R) (s : Track.segment) :
  colliding (segmentHit p r s) = true ->
  exists o : R, overlap (segmentHit p r s) = Some o.
Proof.
  intro H. eexists. apply lineCircleCollision_overlap. exact H.
Qed.

Lemma keepDeeper_cases (p : Vec) (r : R) (acc : collision) (s : Track.segment) :
  (Track.keepDeeper p r acc s = segmentHit p r s /\
   colliding (segmentHit p r s) = true /\
   (colliding acc = false \/
    JS.opt_gtb (overlap (segmentHit p r s)) (overlap acc) = true)) \/
  (Track.keepDeeper p r acc s = acc /\
   (colliding (segmentHit p r s) = false \/
    (colliding acc = true /\
     JS.opt_gtb (overlap (segmentHit p r s)) (overlap acc) = false))).
Proof.
  unfold Track.keepDeeper. fold (segmentHit p r s).
  destruct (colliding (segmentHit p r s)); simpl.
  - destruct (colliding acc); simpl.
    + destruct (JS.opt_gtb _ _) eqn:E; [left | right]; auto.
    + left. auto.
  - right. auto.
Qed.

Lemma fold_keepDeeper (p : Vec) (r : R) (segs : list Track.segment) :
  forall acc : collision,
    (colliding acc = true -> exists o : R, overlap acc = Some o) ->
    (fold_left (Track.keepDeeper p r) segs acc = acc \/
     exists s, In s segs /\
               fold_left (Track.keepDeeper p r) segs acc = segmentHit p r s /\
               colliding (segmentHit p r s) = true) /\
    (colliding acc = true ->
     colliding (fold_left (Track.keepDeeper p r) segs acc) = true /\
     deeper acc (fold_left (Track.keepDeeper p r) segs acc)) /\
    (forall s, In s segs -> colliding (segmentHit p r s) = true ->
     colliding (fold_left (Track.keepDeeper p r) segs acc) = true /\
     deeper (segmentHit p r s) (fold_left (Track.keepDeeper p r) segs acc)).
Proof.
  induction segs as [| s segs IH]; intros acc Hacc; simpl.
  - split; [left; reflexivity |]. split.
    + intro Hc. split; [assumption |].
      destruct (Hacc Hc) as [o Ho]. exact (deeper_refl acc o Ho).
    + intros s [].
  - assert (Hacc' : colliding (Track.keepDeeper p r acc s) = true ->
                    exists o, overlap (Track.keepDeeper p r acc s) = Some o).
    { destruct (keepDeeper_cases p r acc s) as [(-> & Hc & _) | (-> & _)];
        [intros _; apply segmentHit_overlap; assumption | assumption]. }
    destruct (IH _ Hacc') as (IH1 & IH2 & IH3).
    destruct (keepDeeper_cases p r acc s) as [(Hk & Hc & Hwhy) | (Hk & Hwhy)];
      rewrite Hk in *.
    + (* the segment's collision replaces the accumulator *)
      destruct (IH2 Hc) as [Hres Hdeep].
      split; [| split].
      * right. destruct IH1 as [-> | (s' & Hin & Heq & Hcs)].
        -- exists s. auto.
        -- exists s'. auto.
      * intro Hca. split; [assumption |].
        destruct Hwhy as [Hf | Hgt]; [congruence |].
        apply (deeper_trans _ (segmentHit p r s)); [| assumption].
        apply opt_gtb_true_deeper. assumption.
      * intros s0 [Heq | Hin] Hcs;
          [subst s0; split; assumption | apply IH3; assumption].
    + (* the accumulator is kept *)
      split; [| split].
      * destruct IH1 as [-> | (s' & Hin & Heq & Hcs)];
          [left; reflexivity | right; exists s'; auto].
      * exact IH2.
      * intros s0 [Heq | Hin] Hcs; [subst s0 | apply IH3; assumption].
        destruct Hwhy as [Hf | [Hca Hngt]]; [congruence |].
        destruct (IH2 Hca) as [Hres Hdeep]. split; [assumption |].
        apply (deeper_trans _ acc); [| assumption].
        destruct (segmentHit_overlap p r s Hcs) as [o1 Ho1].
        destruct (Hacc Hca) as [o2 Ho2].
        exact (opt_gtb_false_deeper _ _ o1 o2 Ho1 Ho2 Hngt).
Qed.

(** C9.  [checkBoundaryCollision] tests the circle against every inner and
    outer boundary segment.  If no segment collides, the result is the
    initial non-colliding record.  If some segment collides, the result is
    the collision of one of the segments, it is colliding, and its overlap
    is at least the overlap of every colliding segment: the deepest
    penetration is returned, wherever it is found in the list. *)
Theorem checkBoundaryCollision_deepest (tr : Track.t) (p : Vec) (r : R) :
  let segments :=
    Track.innerBoundarySegments tr ++ Track.outerBoundarySegments tr in
  let result := Track.checkBoundaryCollision tr p r in
  ((forall s, In s segments -> colliding (segmentHit p r s) = false) ->
   result = Track.noBoundaryCollision /\ colliding result = false) /\
  ((exists s, In s segments /\ colliding (segmentHit p r s) = true) ->
   colliding result = true /\
   (exists s, In s segments /\ result = segmentHit p r s) /\
   (forall s, In s segments -> colliding (segmentHit p r s) = true ->
    deeper (segmentHit p r s) result)).
Proof.
  intros segments result.
  assert (Hinit : colliding Track.noBoundaryCollision = true ->
                  exists o : R, overlap Track.noBoundaryCollision = Some o).
  { discriminate. }
  destruct (fold_keepDeeper p r segments Track.noBoundaryCollision Hinit)
    as (H1 & _ & H3).
  assert (Hr : result =
               fold_left (Track.keepDeeper p r) segments
                         Track.noBoundaryCollision) by reflexivity.
  rewrite <- Hr in H1, H3. clearbody result.
  split.
  - intro Hnone. destruct H1 as [-> | (s & Hin & _ & Hc)].
    + split; reflexivity.
    + rewrite (Hnone s Hin) in Hc. discriminate.
  - intros (s & Hin & Hc).
    destruct (H3 s Hin Hc) as [Hres _].
    split; [assumption |]. split.
    + destruct H1 as [Heq | (s' & Hin' & Heq & _)].
      * rewrite Heq in Hres. discriminate.
      * exists s'. auto.
    + intros s0 Hin0 Hc0. apply (H3 s0 Hin0 Hc0).
Qed.

Lemma sqrt_is (e s : R) : 0 <= s -> e = s * s -> sqrt e = s.
Proof. intros Hs ->. apply sqrt_of_square. exact Hs. Qed.

Lemma squareTrack_segments :
  Track.innerBoundarySegments squareTrack
  ++ Track.outerBoundarySegments squareTrack =
  [Track.mkSegment (Vector2.mk 0 0) (Vector2.mk 10 0);
   Track.mkSegment (Vector2.mk 10 0) (Vector2.mk 10 10);
   Track.mkSegment (Vector2.mk 10 10) (Vector2.mk 0 10);
   Track.mkSegment (Vector2.mk 0 10) (Vector2.mk 0 0)].
Proof. reflexivity. Qed.

(** The circle of radius 3 at [(1, 2)] is 2 away from the bottom side,
    the first segment, and 1 away from the left side, the last one. *)
Lemma distance_to_bottom_side :
  Track.pointToLineDistance (Vector2.mk 1 2) (Vector2.mk 0 0)
                            (Vector2.mk 10 0) = 2.
Proof.
  unfold Track.pointToLineDistance, Track.closestPointOn, JS.gtb, JS.ltb.
  simpl. decide_numbers; simpl; apply sqrt_is; try lra; field.
Qed.

Lemma distance_to_left_side :
  Track.pointToLineDistance (Vector2.mk 1 2) (Vector2.mk 0 10)
                            (Vector2.mk 0 0) = 1.
Proof.
  unfold Track.pointToLineDistance, Track.closestPointOn, JS.gtb, JS.ltb.
  simpl. decide_numbers; simpl; apply sqrt_is; try lra; field.
Qed.

Lemma left_side_collides :
  colliding (segmentHit (Vector2.mk 1 2) 3
               (Track.mkSegment (Vector2.mk 0 10) (Vector2.mk 0 0))) = true /\
  overlap (segmentHit (Vector2.mk 1 2) 3
             (Track.mkSegment (Vector2.mk 0 10) (Vector2.mk 0 0)))
    = Some (3 - 1).
Proof.
  assert (Hc : colliding (segmentHit (Vector2.mk 1 2) 3
                 (Track.mkSegment (Vector2.mk 0 10) (Vector2.mk 0 0))) = true).
  { unfold segmentHit. rewrite lineCircleCollision_colliding. simpl.
    rewrite distance_to_left_side. apply ltb_true. lra. }
  split; [exact Hc |].
  unfold segmentHit in *. rewrite lineCircleCollision_overlap by exact Hc.
  simpl. rewrite distance_to_left_side. reflexivity.
Qed.

Lemma bottom_side_collides :
  colliding (segmentHit (Vector2.mk 1 2) 3
               (Track.mkSegment (Vector2.mk 0 0) (Vector2.mk 10 0))) = true /\
  overlap (segmentHit (Vector2.mk 1 2) 3
             (Track.mkSegment (Vector2.mk 0 0) (Vector2.mk 10 0)))
    = Some (3 - 2).
Proof.
  assert (Hc : colliding (segmentHit (Vector2.mk 1 2) 3
                 (Track.mkSegment (Vector2.mk 0 0) (Vector2.mk 10 0))) = true).
  { unfold segmentHit. rewrite lineCircleCollision_colliding. simpl.
    rewrite distance_to_bottom_side. apply ltb_true. lra. }
  split; [exact Hc |].
  unfold segmentHit in *. rewrite lineCircleCollision_overlap by exact Hc.
  simpl. rewrite distance_to_bottom_side. reflexivity.
Qed.

(** On the square track the first colliding segment, the bottom side, has
    overlap 1; the result has overlap at least 2, that of the left side,
    so it is not the first collision found. *)
Lemma checkBoundaryCollision_deepest_witness :
  colliding (Track.checkBoundaryCollision squareTrack (Vector2.mk 1 2) 3)
    = true /\
  (exists o : R,
     overlap (Track.checkBoundaryCollision squareTrack (Vector2.mk 1 2) 3)
       = Some o /\ 2 <= o) /\
  Track.checkBoundaryCollision squareTrack (Vector2.mk 1 2) 3 <>
  segmentHit (Vector2.mk 1 2) 3
             (Track.mkSegment (Vector2.mk 0 0) (Vector2.mk 10 0)).
Proof.
  assert (Hin : In (Track.mkSegment (Vector2.mk 0 10) (Vector2.mk 0 0))
                   (Track.innerBoundarySegments squareTrack
                    ++ Track.outerBoundarySegments squareTrack)).
  { rewrite squareTrack_segments. simpl. tauto. }
  destruct left_side_collides as [Hc Ho].
  destruct (proj2 (checkBoundaryCollision_deepest squareTrack
                     (Vector2.mk 1 2) 3))
    as (Hres & _ & Hdeep).
  { eexists. split; [exact Hin | exact Hc]. }
  destruct (Hdeep _ Hin Hc) as (o1 & o2 & H1 & H2 & Hle).
  rewrite Ho in H1. injection H1 as <-.
  split; [exact Hres |]. split.
  - exists o2. split; [exact H2 | lra].
  - intro Heq. rewrite Heq in H2.
    rewrite (proj2 bottom_side_collides) in H2. injection H2 as H2. lra.
Defined.


(** ** [Potato.updatePowerups]: the collider size *)

Lemma updatePowerups_activePowerups (cfg : Config.t) (dt : R) (p : Potato.t) :
  Potato.activePowerups (Potato.updatePowerups cfg dt p) =
  filter (fun q => JS.gtb (Potato.timeRemaining q) 0)
         (map (fun q =>
                 Potato.mkPowerup (Potato.type q)
                                  (Potato.timeRemaining q - dt * 1000))
              (Potato.activePowerups p)).
Proof.
  unfold Potato.updatePowerups.
  destruct (Potato.hasType _ _); reflexivity.
Qed.

Lemma hasType_true (ty : string) (l : list Potato.powerup) :
  Potato.hasType ty l = true <-> exists q, In q l /\ Potato.type q = ty.
Proof.
  unfold Potato.hasType. rewrite existsb_exists.
  split; intros (q & Hin & H); exists q; split; try assumption.
  - now apply String.eqb_eq.
  - now apply String.eqb_eq.
Qed.

(** A kind is held after [updatePowerups(deltaTime)] exactly when an entry
    of that kind was held with more than [deltaTime * 1000] left. *)
Lemma updatePowerups_keeps
  (cfg : Config.t) (dt : R) (p : Potato.t) (ty : string) :
  Potato.hasType ty (Potato.activePowerups (Potato.updatePowerups cfg dt p))
  = true <->
  exists q, In q (Potato.activePowerups p) /\ Potato.type q = ty /\
            dt * 1000 < Potato.timeRemaining q.
Proof.
  rewrite updatePowerups_activePowerups, hasType_true. split.
  - intros (q' & Hq' & Hty). apply filter_In in Hq'.
    destruct Hq' as (Hin & Hpos). apply in_map_iff in Hin.
    destruct Hin as (q & <- & Hq). simpl in Hpos, Hty.
    apply gtb_true in Hpos. exists q. repeat split; [exact Hq | exact Hty | lra].
  - intros (q & Hq & Hty & Hlt).
    exists (Potato.mkPowerup (Potato.type q)
                             (Potato.timeRemaining q - dt * 1000)).
    split; [| exact Hty]. apply filter_In. split.
    + apply in_map_iff. exists q. split; [reflexivity | exact Hq].
    + simpl. apply gtb_true. lra.
Qed.

(** C10.  After [updatePowerups(deltaTime)] the collider radius is 15 (and
    the size 30 x 22.5) when a size-reduction power-up is active, that is
    when the potato held a size-reduction entry with more than
    [deltaTime * 1000] ms left, which is when the updated list holds one;
    it is 20 (size 40 x 30) otherwise.  The constructor leaves radius 25
    and size 40 x 60, so the first update of a new potato, which holds no
    power-up, replaces them by 20 and 40 x 30, and no later update gives
    radius 25 again. *)
Theorem updatePowerups_sets_collider
  (cfg : Config.t) (dt : R) (p : Potato.t) (x y : R) :
  let p' := Potato.updatePowerups cfg dt p in
  let shrunk :=
    Potato.hasType (Config.id (Config.SIZE_REDUCTION cfg))
                   (Potato.activePowerups p') in
  (if shrunk
   then Potato.colliderRadius p' = 15 /\ Potato.width p' = 30
        /\ Potato.height p' = 225 / 10
   else Potato.colliderRadius p' = 20 /\ Potato.width p' = 40
        /\ Potato.height p' = 30) /\
  Potato.colliderRadius p' <> 25 /\
  (Potato.colliderRadius (Potato.constructor x y) = 25 /\
   Potato.width (Potato.constructor x y) = 40 /\
   Potato.height (Potato.constructor x y) = 60) /\
  (Potato.colliderRadius (Potato.updatePowerups cfg dt (Potato.constructor x y))
     = 20 /\
   Potato.width (Potato.updatePowerups cfg dt (Potato.constructor x y)) = 40 /\
   Potato.height (Potato.updatePowerups cfg dt (Potato.constructor x y)) = 30) /\
  (shrunk = true <->
   exists q, In q (Potato.activePowerups p) /\
             Potato.type q = Config.id (Config.SIZE_REDUCTION cfg) /\
             dt * 1000 < Potato.timeRemaining q) /\
  ((exists q, In q (Potato.activePowerups p) /\
              Potato.type q = Config.id (Config.SIZE_REDUCTION cfg) /\
              dt * 1000 < Potato.timeRemaining q) ->
   Potato.colliderRadius p' = 15 /\ Potato.width p' = 30
   /\ Potato.height p' = 225 / 10) /\
  ((forall q, In q (Potato.activePowerups p) ->
              Potato.type q = Config.id (Config.SIZE_REDUCTION cfg) ->
              Potato.timeRemaining q <= dt * 1000) ->
   Potato.colliderRadius p' = 20 /\ Potato.width p' = 40
   /\ Potato.height p' = 30).
Proof.
  intros p' shrunk.
  assert (Hcase :
            if shrunk
            then Potato.colliderRadius p' = 15 /\ Potato.width p' = 30
                 /\ Potato.height p' = 225 / 10
            else Potato.colliderRadius p' = 20 /\ Potato.width p' = 40
                 /\ Potato.height p' = 30).
  { subst shrunk p'. rewrite (updatePowerups_activePowerups cfg dt p).
    unfold Potato.updatePowerups. cbv zeta.
    destruct (Potato.hasType (Config.id (Config.SIZE_REDUCTION cfg)) _);
      simpl; repeat split; reflexivity. }
  assert (Hkeeps := updatePowerups_keeps cfg dt p
                      (Config.id (Config.SIZE_REDUCTION cfg))).
  fold p' in Hkeeps. fold shrunk in Hkeeps.
  split; [exact Hcase |]. split.
  { destruct shrunk; destruct Hcase as [Hr _]; rewrite Hr; lra. }
  split; [repeat split; reflexivity |].
  split.
  { unfold Potato.updatePowerups, Potato.constructor; simpl.
    repeat split; reflexivity. }
  split; [exact Hkeeps |].
  split.
  - intro Hex. apply Hkeeps in Hex. rewrite Hex in Hcase. exact Hcase.
  - intro Hall. destruct shrunk eqn:E; [| exact Hcase].
    exfalso. destruct (proj1 Hkeeps eq_refl) as (q & Hq & Hty & Hlt).
    specialize (Hall q Hq Hty). lra.
Qed.

(** A potato that collected a size reduction (4000 ms): radius 15 after an
    update of one second, radius 20 after an update of five seconds. *)
Lemma updatePowerups_sets_collider_witness :
  Potato.colliderRadius
    (Potato.updatePowerups Config.defaults 1
       (fst (Potato.addPowerup Config.defaults "shrink"
               (Potato.constructor 0 0)))) = 15 /\
  Potato.colliderRadius
    (Potato.updatePowerups Config.defaults 5
       (fst (Potato.addPowerup Config.defaults "shrink"
               (Potato.constructor 0 0)))) = 20.
Proof.
  split.
  - apply (proj1 (proj2 (proj2 (proj2 (proj2 (proj2
             (updatePowerups_sets_collider
                Config.defaults 1
                (fst (Potato.addPowerup Config.defaults "shrink"
                        (Potato.constructor 0 0))) 0 0))))))).
    exists (Potato.mkPowerup "shrink" 4000).
    split; [left; reflexivity |]. split; [reflexivity |]. simpl. lra.
  - apply (proj2 (proj2 (proj2 (proj2 (proj2 (proj2
             (updatePowerups_sets_collider
                Config.defaults 5
                (fst (Potato.addPowerup Config.defaults "shrink"
                        (Potato.constructor 0 0))) 0 0))))))).
    intros q [<- | []] _. cbn [Potato.timeRemaining].
    change (Potato.getPowerupDuration Config.defaults "shrink") with 4000.
    lra.
Defined.

(** ** [Potato.addPowerup]: one entry per kind *)

Lemma findIndex_none (ty : string) (l : list Potato.powerup) :
  Potato.findIndex ty l = None -> ~ In ty (map Potato.type l).
Proof.
  induction l as [| q l IH]; simpl; [tauto |].
  destruct (String.eqb (Potato.type q) ty) eqn:E; [discriminate |].
  destruct (Potato.findIndex ty l); [discriminate |].
  intros _ [H | H].
  - apply String.eqb_neq in E. contradiction.
  - apply IH; [reflexivity | assumption].
Qed.

Lemma findIndex_some (ty : string) (l : list Potato.powerup) :
  In ty (map Potato.type l) -> exists i, Potato.findIndex ty l = Some i.
Proof.
  intro H. destruct (Potato.findIndex ty l) as [i |] eqn:E; [eauto |].
  exfalso. exact (findIndex_none ty l E H).
Qed.

Lemma setTimeRemaining_kinds (i : nat) (d : R) (l : list Potato.powerup) :
  map Potato.type (Potato.setTimeRemaining i d l) = map Potato.type l.
Proof.
  revert i. induction l as [| q l IH]; intros [| i]; simpl;
    try reflexivity. rewrite IH. reflexivity.
Qed.

Lemma setTimeRemaining_length (i : nat) (d : R) (l : list Potato.powerup) :
  length (Potato.setTimeRemaining i d l) = length l.
Proof.
  rewrite <- (length_map Potato.type), setTimeRemaining_kinds.
  apply length_map.
Qed.

(** After a refresh at the index found for [ty], an entry of kind [ty]
    that is the only one of its kind holds the new time. *)
Lemma setTimeRemaining_refreshed (ty : string) (d : R) :
  forall (l : list Potato.powerup) (i : nat),
    Potato.findIndex ty l = Some i ->
    NoDup (map Potato.type l) ->
    forall q, In q (Potato.setTimeRemaining i d l) ->
              Potato.type q = ty -> Potato.timeRemaining q = d.
Proof.
  induction l as [| q0 l IH]; intros i Hi Hnd q Hin Hty; simpl in *;
    [discriminate |].
  inversion Hnd as [| ? ? Hnotin Hnd']; subst.
  destruct (String.eqb (Potato.type q0) (Potato.type q)) eqn:E.
  - injection Hi as <-. simpl in Hin. destruct Hin as [<- | Hin];
      [reflexivity |].
    apply String.eqb_eq in E. exfalso. apply Hnotin. rewrite E.
    apply in_map. assumption.
  - destruct (Potato.findIndex (Potato.type q) l) as [j |] eqn:Ej;
      [| discriminate].
    injection Hi as <-. simpl in Hin. destruct Hin as [<- | Hin].
    + rewrite String.eqb_refl in E. discriminate.
    + apply (IH j); auto.
Qed.

(** Entries of another kind are the same before and after a refresh. *)
Lemma setTimeRemaining_others (ty : string) (d : R) :
  forall (l : list Potato.powerup) (i : nat),
    Potato.findIndex ty l = Some i ->
    forall q, Potato.type q <> ty ->
              (In q (Potato.setTimeRemaining i d l) <-> In q l).
Proof.
  induction l as [| q0 l IH]; intros i Hi q Hty; simpl in *;
    [discriminate |].
  destruct (String.eqb (Potato.type q0) ty) eqn:E.
  - injection Hi as <-. simpl. apply String.eqb_eq in E.
    split; intros [H | H]; auto; exfalso; subst; simpl in *; congruence.
  - destruct (Potato.findIndex ty l) as [j |] eqn:Ej; [| discriminate].
    injection Hi as <-. simpl. rewrite (IH j eq_refl q Hty). tauto.
Qed.

(** With distinct ids in the table, the duration found for the id of a
    definition is the duration of that definition. *)
Lemma durationIn_defined (defs : list Config.powerupDef) (d : Config.powerupDef) :
  NoDup (map Config.id defs) -> In d defs ->
  Potato.durationIn defs (Config.id d) = Config.duration d.
Proof.
  induction defs as [| d0 defs IH]; intros Hnd Hin; simpl in *; [tauto |].
  inversion Hnd as [| ? ? Hnotin Hnd']; subst.
  destruct (String.eqb (Config.id d0) (Config.id d)) eqn:E.
  - destruct Hin as [-> | Hin]; [reflexivity |].
    apply String.eqb_eq in E. exfalso. apply Hnotin. rewrite E.
    apply in_map. exact Hin.
  - destruct Hin as [-> | Hin]; [| auto].
    rewrite String.eqb_refl in E. discriminate.
Qed.

Lemma addPowerup_activePowerups (cfg : Config.t) (ty : string) (p : Potato.t) :
  Potato.activePowerups (fst (Potato.addPowerup cfg ty p)) =
  match Potato.findIndex ty (Potato.activePowerups p) with
  | Some i =>
      Potato.setTimeRemaining i (Potato.getPowerupDuration cfg ty)
                              (Potato.activePowerups p)
  | None =>
      Potato.activePowerups p
      ++ [Potato.mkPowerup ty (Potato.getPowerupDuration cfg ty)]
  end.
Proof.
  unfold Potato.addPowerup.
  destruct (String.eqb ty _); reflexivity.
Qed.

Lemma addPowerup_unique (cfg : Config.t) (ty : string) (p : Potato.t) :
  NoDup (kinds p) -> NoDup (kinds (fst (Potato.addPowerup cfg ty p))).
Proof.
  unfold kinds. intro H. rewrite addPowerup_activePowerups.
  destruct (Potato.findIndex ty (Potato.activePowerups p)) as [i |] eqn:E.
  - rewrite setTimeRemaining_kinds. exact H.
  - rewrite map_app; simpl. apply NoDup_app; [exact H | | ].
    + constructor; [simpl; tauto | constructor].
    + intros a Ha [<- | []]. exact (findIndex_none _ _ E Ha).
Qed.

Lemma filter_unique (f : Potato.powerup -> bool) (l : list Potato.powerup) :
  NoDup (map Potato.type l) -> NoDup (map Potato.type (filter f l)).
Proof.
  induction l as [| q l IH]; simpl; intro H; [constructor |].
  inversion H as [| ? ? Hnotin Hnd]; subst.
  destruct (f q); simpl; [constructor |]; auto.
  intro Hin. apply Hnotin. apply in_map_iff in Hin.
  destruct Hin as (q' & Hq' & Hin). apply filter_In in Hin.
  rewrite <- Hq'. apply in_map. tauto.
Qed.

Lemma updatePowerups_unique (cfg : Config.t) (dt : R) (p : Potato.t) :
  NoDup (kinds p) -> NoDup (kinds (Potato.updatePowerups cfg dt p)).
Proof.
  unfold kinds. intro H. rewrite updatePowerups_activePowerups.
  apply filter_unique. rewrite map_map. simpl. exact H.
Qed.

Lemma removeAt_in (i : nat) (l : list Potato.powerup) (q : Potato.powerup) :
  In q (Potato.removeAt i l) -> In q l.
Proof.
  revert i. induction l as [| q0 l IH]; intros [| i]; simpl; auto.
  intros [H | H]; eauto.
Qed.

Lemma removeAt_unique (i : nat) (l : list Potato.powerup) :
  NoDup (map Potato.type l) -> NoDup (map Potato.type (Potato.removeAt i l)).
Proof.
  revert i. induction l as [| q l IH]; intros [| i] H; simpl;
    try constructor; inversion H as [| ? ? Hnotin Hnd]; subst; auto.
  intro Hin. apply Hnotin. apply in_map_iff in Hin.
  destruct Hin as (q' & Hq' & Hin). rewrite <- Hq'.
  apply in_map. exact (removeAt_in i l q' Hin).
Qed.

Lemma useActivePowerup_unique (cfg : Config.t) (p : Potato.t) :
  NoDup (kinds p) -> NoDup (kinds (fst (Potato.useActivePowerup cfg p))).
Proof.
  intro H. unfold Potato.useActivePowerup.
  destruct (Potato.findIndex _ (Potato.activePowerups p)) as [i |];
    [| exact H].
  pose proof (addPowerup_unique cfg (Config.id (Config.OIL_SLICK cfg)) p H)
    as Hadd.
  destruct (Potato.addPowerup cfg (Config.id (Config.OIL_SLICK cfg)) p)
    as [p' result]. simpl in *.
  unfold kinds in *. simpl. apply removeAt_unique. exact Hadd.
Qed.

Lemma perform_unique (cfg : Config.t) (p : Potato.t) (c : Potato.call) :
  NoDup (kinds p) -> NoDup (kinds (Potato.perform cfg p c)).
Proof.
  destruct c; simpl;
    [apply addPowerup_unique | apply updatePowerups_unique
     | apply useActivePowerup_unique].
Qed.

Lemma performAll_unique (cfg : Config.t) (cs : list Potato.call) :
  forall p, NoDup (kinds p) -> NoDup (kinds (Potato.performAll cfg p cs)).
Proof.
  unfold Potato.performAll.
  induction cs as [| c cs IH]; intros p H; simpl; [exact H |].
  apply IH. apply perform_unique. exact H.
Qed.

Lemma findIndex_found (ty : string) (l : list Potato.powerup) (i : nat) :
  Potato.findIndex ty l = Some i -> In ty (map Potato.type l).
Proof.
revert i. induction l as [|q l IH]; intros i H; simpl in H; [discriminate|].
destruct (String.eqb (Potato.type q) ty) eqn:E.
- left. now apply String.eqb_eq.
- right. destruct (Potato.findIndex ty l) as [j|]; [|discriminate].
  now apply (IH j).
Qed.

(** After [addPowerup(ty)] on a potato with one entry per kind, an entry
    of kind [ty] is held and every entry of that kind holds the full
    duration. *)
Lemma addPowerup_entry (cfg : Config.t) (ty : string) (p : Potato.t) :
  NoDup (kinds p) ->
  (exists q, In q (Potato.activePowerups (fst (Potato.addPowerup cfg ty p)))
             /\ Potato.type q = ty)
  /\ forall q, In q (Potato.activePowerups (fst (Potato.addPowerup cfg ty p))) ->
               Potato.type q = ty ->
               Potato.timeRemaining q = Potato.getPowerupDuration cfg ty.
Proof.
intro Hnd. rewrite addPowerup_activePowerups.
destruct (Potato.findIndex ty (Potato.activePowerups p)) as [i|] eqn:E.
- split.
  + pose proof (findIndex_found _ _ _ E) as Hin.
    rewrite <- (setTimeRemaining_kinds i (Potato.getPowerupDuration cfg ty))
      in Hin.
    apply in_map_iff in Hin. destruct Hin as (q & Hq & Hin).
    exists q. split; assumption.
  + intros q Hin Hty.
    exact (setTimeRemaining_refreshed ty _ _ i E Hnd q Hin Hty).
- split.
  + exists (Potato.mkPowerup ty (Potato.getPowerupDuration cfg ty)).
    split; [|reflexivity]. apply in_or_app. right. now left.
  + intros q Hin Hty. apply in_app_or in Hin.
    destruct Hin as [Hin | [<- | []]]; [|reflexivity].
    exfalso. apply (findIndex_none _ _ E).
    rewrite <- Hty. apply in_map. exact Hin.
Qed.

(** C3.  In every state a potato reaches from its constructor through
    [addPowerup], [updatePowerups] and [useActivePowerup], the active
    power-ups hold at most one entry per kind, and [addPowerup] of any kind
    leaves such a state.  After [addPowerup(type)] an entry of that kind is
    held, every entry of that kind holds [getPowerupDuration] of the kind
    as its remaining time, whatever time it held before, and the entries
    of the other kinds are untouched.  Collecting a kind that is already
    held adds no entry: the list keeps its length and its kinds;
    collecting a kind that is not held appends one entry.  With distinct
    ids in [CONFIG.POWERUPS], [getPowerupDuration] of the id of a
    definition is the full duration of that definition. *)
Theorem addPowerup_one_entry_per_kind
  (cfg : Config.t) (x y : R) (calls : list Potato.call) :
  let p := Potato.performAll cfg (Potato.constructor x y) calls in
  NoDup (kinds p) /\
  (forall ty : string,
     let p' := fst (Potato.addPowerup cfg ty p) in
     NoDup (kinds p') /\
     (exists q, In q (Potato.activePowerups p') /\ Potato.type q = ty /\
                Potato.timeRemaining q = Potato.getPowerupDuration cfg ty) /\
     (forall q, In q (Potato.activePowerups p') -> Potato.type q = ty ->
                Potato.timeRemaining q = Potato.getPowerupDuration cfg ty) /\
     (forall q, Potato.type q <> ty ->
                (In q (Potato.activePowerups p') <->
                 In q (Potato.activePowerups p))) /\
     (In ty (kinds p) ->
      length (Potato.activePowerups p') = length (Potato.activePowerups p) /\
      kinds p' = kinds p) /\
     (~ In ty (kinds p) ->
      Potato.activePowerups p' =
      Potato.activePowerups p
      ++ [Potato.mkPowerup ty (Potato.getPowerupDuration cfg ty)])) /\
  (forall d : Config.powerupDef,
     NoDup (map Config.id (Config.POWERUPS cfg)) ->
     In d (Config.POWERUPS cfg) ->
     Potato.getPowerupDuration cfg (Config.id d) = Config.duration d).
Proof.
  intro p.
  assert (Hnd : NoDup (kinds p)).
  { apply performAll_unique. constructor. }
  split; [exact Hnd |].
  split; [| intros d Hids Hd; apply durationIn_defined; assumption].
  intros ty p'.
  destruct (addPowerup_entry cfg ty p Hnd) as (Hex & Hall).
  fold p' in Hex, Hall.
  split; [apply addPowerup_unique; exact Hnd |].
  split; [destruct Hex as (q & Hq & Hty); exists q; repeat split;
          [exact Hq | exact Hty | exact (Hall q Hq Hty)] |].
  split; [exact Hall |].
  subst p'. unfold kinds in *. rewrite addPowerup_activePowerups.
  destruct (Potato.findIndex ty (Potato.activePowerups p)) as [i |] eqn:Hi.
  - split; [intros q Hq; apply (setTimeRemaining_others ty); assumption |].
    split.
    + intros _. split;
        [apply setTimeRemaining_length | apply setTimeRemaining_kinds].
    + intro Hnot. exfalso. apply Hnot. exact (findIndex_found _ _ _ Hi).
  - split.
    + intros q Hq. split; intro H.
      * apply in_app_or in H. destruct H as [H | [H | []]]; [exact H |].
        exfalso. apply Hq. rewrite <- H. reflexivity.
      * apply in_or_app. left. exact H.
    + split; [| intros _; reflexivity].
      intro Hin. exfalso. exact (findIndex_none _ _ Hi Hin).
Qed.

(** A speed boost held for one second, with 2000 ms left. *)
Lemma boost_after_one_second :
  Potato.activePowerups
    (Potato.performAll Config.defaults (Potato.constructor 0 0)
       [Potato.AddPowerup "boost"; Potato.UpdatePowerups 1]) =
  [Potato.mkPowerup "boost" (3000 - 1 * 1000)].
Proof.
  unfold Potato.performAll; simpl.
  rewrite updatePowerups_activePowerups. simpl.
  replace (JS.gtb (Potato.getPowerupDuration Config.defaults "boost" - 1 * 1000) 0)
    with true.
  - reflexivity.
  - symmetry. apply gtb_true. unfold Potato.getPowerupDuration; simpl. lra.
Qed.

(** The boost of [boost_after_one_second] collected again: the entry holds
    3000 ms again and the list still has one entry. *)
Lemma addPowerup_one_entry_per_kind_witness :
  (exists q,
     In q (Potato.activePowerups
             (fst (Potato.addPowerup Config.defaults "boost"
                     (Potato.performAll Config.defaults (Potato.constructor 0 0)
                        [Potato.AddPowerup "boost"; Potato.UpdatePowerups 1]))))
     /\ Potato.type q = "boost"%string /\ Potato.timeRemaining q = 3000) /\
  length (Potato.activePowerups
            (fst (Potato.addPowerup Config.defaults "boost"
                    (Potato.performAll Config.defaults (Potato.constructor 0 0)
                       [Potato.AddPowerup "boost"; Potato.UpdatePowerups 1]))))
  = length (Potato.activePowerups
              (Potato.performAll Config.defaults (Potato.constructor 0 0)
                 [Potato.AddPowerup "boost"; Potato.UpdatePowerups 1])).
Proof.
  destruct (proj1 (proj2 (addPowerup_one_entry_per_kind
                            Config.defaults 0 0
                            [Potato.AddPowerup "boost";
                             Potato.UpdatePowerups 1])) "boost"%string)
    as (_ & Hex & _ & _ & Hheld & _).
  split; [exact Hex |].
  apply Hheld. unfold kinds. rewrite boost_after_one_second.
  left. reflexivity.
Defined.

(** The durations of the default table, and the scenario of the
    specification: a speed boost collected, one second of updates, and the
    boost collected again leave one entry with 3000 ms. *)
Lemma default_durations :
  Potato.getPowerupDuration Config.defaults "boost" = 3000 /\
  Potato.getPowerupDuration Config.defaults "shield" = 5000 /\
  Potato.getPowerupDuration Config.defaults "shrink" = 4000 /\
  Potato.getPowerupDuration Config.defaults "missile" = 3000.
Proof. repeat split; reflexivity. Qed.

Lemma boost_collected_twice (x y : R) :
  Potato.activePowerups
    (Potato.performAll Config.defaults (Potato.constructor x y)
       [Potato.AddPowerup "boost"; Potato.UpdatePowerups 1;
        Potato.AddPowerup "boost"]) =
  [Potato.mkPowerup "boost" 3000].
Proof.
  unfold Potato.performAll; simpl.
  rewrite updatePowerups_activePowerups. simpl.
  replace (JS.gtb (Potato.getPowerupDuration Config.defaults "boost" - 1 * 1000) 0)
    with true.
  - reflexivity.
  - symmetry. apply gtb_true. unfold Potato.getPowerupDuration; simpl. lra.
Qed.

(** ** [Potato.updateRaceProgress]: checkpoints in order, laps after a cycle *)

Lemma subseq_tail (a : nat) (u l : list nat) :
  subseq (a :: u) l = true -> subseq u l = true.
Proof.
  revert a u. induction l as [| b l IH]; intros a u H; simpl in H.
  - discriminate.
  - destruct u as [| a' u']; [reflexivity |].
    simpl. destruct (Nat.eqb a b).
    + destruct (Nat.eqb a' b); [exact (IH _ _ H) | exact H].
    + destruct (Nat.eqb a' b); [apply (IH a'), (IH a); exact H
                               | exact (IH _ _ H)].
Qed.

Lemma subseq_skip (b : nat) (u l : list nat) :
  subseq u l = true -> subseq u (b :: l) = true.
Proof.
  intro H. destruct u as [| a u]; [reflexivity |].
  simpl. destruct (Nat.eqb a b); [exact (subseq_tail a u l H) | exact H].
Qed.

Lemma subseq_keep (a : nat) (u l : list nat) :
  subseq u l = true -> subseq (a :: u) (a :: l) = true.
Proof. intro H. simpl. rewrite Nat.eqb_refl. exact H. Qed.

(** The three outcomes of one checkpoint test. *)
Lemma onCheckpoint_cases
  (cfg : Config.t) (n : nat) (now : R) (i : nat) (fl : bool) (p : Potato.t) :
  (JS.eq_nat_opt i (JS.mod_nat (Potato.checkpoint p + 1) n) = false /\
   Potato.onCheckpoint cfg n now (Some (i, fl)) p = p) \/
  (JS.mod_nat (Potato.checkpoint p + 1) n = Some i /\ i <> O /\
   Potato.onCheckpoint cfg n now (Some (i, fl)) p =
     Potato.withProgress p i (Some now)) \/
  (JS.mod_nat (Potato.checkpoint p + 1) n = Some i /\ i = O /\
   Potato.checkpoint (Potato.onCheckpoint cfg n now (Some (i, fl)) p) = O /\
   Potato.lap (Potato.onCheckpoint cfg n now (Some (i, fl)) p) =
     S (Potato.lap p)).
Proof.
  unfold Potato.onCheckpoint.
  destruct (JS.eq_nat_opt i _) eqn:E; [| left; auto].
  right.
  assert (Hm : JS.mod_nat (Potato.checkpoint p + 1) n = Some i).
  { unfold JS.eq_nat_opt in E.
    destruct (JS.mod_nat _ n) as [k |]; [| discriminate].
    apply Nat.eqb_eq in E. congruence. }
  destruct i as [| i]; simpl.
  - right. destruct (Potato.lap p) as [| l] eqn:El; simpl;
      rewrite ?El; auto.
  - left. repeat split; auto.
Qed.

Lemma onCheckpoint_lap_le
  (cfg : Config.t) (n : nat) (now : R) (hit : option (nat * bool))
  (p : Potato.t) :
  (Potato.lap p <= Potato.lap (Potato.onCheckpoint cfg n now hit p))%nat.
Proof.
  destruct hit as [[i fl] |]; [| simpl; lia].
  destruct (onCheckpoint_cases cfg n now i fl p)
    as [(_ & ->) | [(_ & _ & ->) | (_ & _ & _ & ->)]]; simpl; lia.
Qed.

Lemma progress_lap_le
  (cfg : Config.t) (n : nat) (ticks : list (R * option (nat * bool))) :
  forall p, (Potato.lap p <= Potato.lap (Potato.progress cfg n p ticks))%nat.
Proof.
  unfold Potato.progress.
  induction ticks as [| t ticks IH]; intro p; simpl; [lia |].
  specialize (IH (Potato.onCheckpoint cfg n (fst t) (snd t) p)).
  pose proof (onCheckpoint_lap_le cfg n (fst t) (snd t) p). lia.
Qed.

Lemma mod_nat_succ (c n i : nat) :
  (c < n)%nat -> JS.mod_nat (c + 1) n = Some i ->
  (i = O /\ c + 1 = n)%nat \/ (i = c + 1 /\ c + 1 < n)%nat.
Proof.
  intros Hc H. destruct n as [| n']; [lia |].
  assert (Hi : i = Nat.modulo (c + 1) (S n')).
  { unfold JS.mod_nat in H. congruence. }
  clear H. destruct (Nat.eq_dec (c + 1) (S n')) as [E | E].
  - left. split; [| exact E]. rewrite Hi, E. apply Nat.Div0.mod_same.
  - right. split; [| lia]. rewrite Hi. apply Nat.mod_small. lia.
Qed.

(** From a potato whose checkpoint index is [c], a run that does not
    change the lap counter and is followed by a test that changes it has
    visited [c, c + 1, ..., n - 1] in order. *)
Lemma cycle_before_lap (cfg : Config.t) (n : nat) :
  forall (ticks : list (R * option (nat * bool))) (p : Potato.t)
         (tick : R * option (nat * bool)),
    (Potato.checkpoint p < n)%nat ->
    Potato.lap (Potato.progress cfg n p ticks) = Potato.lap p ->
    Potato.lap (Potato.onCheckpoint cfg n (fst tick) (snd tick)
                  (Potato.progress cfg n p ticks))
      <> Potato.lap (Potato.progress cfg n p ticks) ->
    subseq (seq (Potato.checkpoint p) (n - Potato.checkpoint p))
           (Potato.visited cfg n p ticks) = true.
Proof.
  induction ticks as [| t ticks IH]; intros p tick Hc Hlap Hinc.
  - unfold Potato.progress in Hinc. simpl fold_left in Hinc.
    destruct tick as [now [[i fl] |]]; cbn [fst snd] in Hinc;
      [| simpl in Hinc; congruence].
    destruct (onCheckpoint_cases cfg n now i fl p)
      as [(_ & E) | [(_ & _ & E) | (Hm & Hi & _ & _)]];
      try (rewrite E in Hinc; simpl in Hinc; congruence).
    destruct (mod_nat_succ _ _ _ Hc Hm) as [[_ Hn] | [Hi' _]]; [| lia].
    replace (n - Potato.checkpoint p)%nat with 1%nat by lia.
    simpl. rewrite Nat.eqb_refl. reflexivity.
  - change (Potato.progress cfg n p (t :: ticks))
      with (Potato.progress cfg n
              (Potato.onCheckpoint cfg n (fst t) (snd t) p) ticks) in *.
    change (Potato.visited cfg n p (t :: ticks))
      with (Potato.checkpoint p
            :: Potato.visited cfg n
                 (Potato.onCheckpoint cfg n (fst t) (snd t) p) ticks).
    pose proof (onCheckpoint_lap_le cfg n (fst t) (snd t) p) as Hle1.
    pose proof (progress_lap_le cfg n ticks
                  (Potato.onCheckpoint cfg n (fst t) (snd t) p)) as Hle2.
    assert (Hlap1 : Potato.lap (Potato.onCheckpoint cfg n (fst t) (snd t) p)
                    = Potato.lap p) by lia.
    assert (Hlap2 :
              Potato.lap (Potato.progress cfg n
                            (Potato.onCheckpoint cfg n (fst t) (snd t) p) ticks)
              = Potato.lap (Potato.onCheckpoint cfg n (fst t) (snd t) p))
      by lia.
    destruct t as [now [[i fl] |]]; cbn [fst snd] in *.
    + destruct (onCheckpoint_cases cfg n now i fl p)
        as [(_ & E) | [(Hm & Hi & E) | (_ & _ & _ & E)]].
      * rewrite E in *. apply subseq_skip. apply (IH p tick); assumption.
      * destruct (mod_nat_succ _ _ _ Hc Hm) as [[Hi' _] | [Hi' Hn]];
          [contradiction |].
        rewrite E in *. simpl in IH.
        specialize (IH (Potato.withProgress p i (Some now)) tick).
        simpl in IH. rewrite Hi' in IH.
        replace (n - Potato.checkpoint p)%nat
          with (S (n - (Potato.checkpoint p + 1)))%nat by lia.
        simpl. rewrite Nat.eqb_refl.
        replace (S (Potato.checkpoint p)) with (Potato.checkpoint p + 1)%nat
          by lia.
        rewrite Hi' in *. apply IH; [lia | assumption | assumption].
      * lia.
    + apply subseq_skip. apply (IH p tick); assumption.
Qed.

Lemma eq_nat_opt_false (i : nat) (m : option nat) :
  m <> Some i -> JS.eq_nat_opt i m = false.
Proof.
  intro H. destruct m as [k |]; simpl; [| reflexivity].
  apply Nat.eqb_neq. congruence.
Qed.

Lemma onCheckpoint_rejected
  (cfg : Config.t) (n : nat) (now : R) (i : nat) (fl : bool) (p : Potato.t) :
  JS.mod_nat (Potato.checkpoint p + 1) n <> Some i ->
  Potato.onCheckpoint cfg n now (Some (i, fl)) p = p.
Proof.
  intro H. unfold Potato.onCheckpoint.
  rewrite (eq_nat_opt_false _ _ H). reflexivity.
Qed.

(** [updateRaceProgress] itself: unless the checkpoint test reports the
    next index, the racer is unchanged. *)
Lemma updateRaceProgress_out_of_order
  (cfg : Config.t) (track : Track.t) (now : R) (p : Potato.t) :
  (forall i fl,
     Track.checkCheckpoint track (Vector2.x (Potato.position p))
                           (Vector2.y (Potato.position p))
                           (Potato.width p / 2) = Some (i, fl) ->
     JS.mod_nat (Potato.checkpoint p + 1) (length (Track.checkpoints track))
     <> Some i) ->
  Potato.updateRaceProgress cfg track now p = p.
Proof.
  intro H. unfold Potato.updateRaceProgress.
  destruct (Track.checkCheckpoint _ _ _ _) as [[i fl] |]; [| reflexivity].
  apply onCheckpoint_rejected. apply (H i fl). reflexivity.
Qed.

(** C1.  On a track with [n] checkpoints:
    - a test without a hit, and a hit whose index is not
      [(checkpoint + 1) mod n], leave the whole racer state unchanged;
    - the checkpoint index changes only on a hit of index
      [(checkpoint + 1) mod n], and becomes that index;
    - the lap counter changes only on such a hit of index 0; it then grows
      by one and the checkpoint index is 0;
    - from a state with checkpoint index 0 (the constructor's state, or
      the state after a lap increment), if a run of tests leaves the lap
      counter unchanged and the next test changes it, the checkpoint index
      has taken the values [0, 1, ..., n - 1] in this order during the
      run. *)
Theorem checkpoints_in_order_then_lap (cfg : Config.t) (n : nat) :
  (forall now p, Potato.onCheckpoint cfg n now None p = p) /\
  (forall now i fl p,
     JS.mod_nat (Potato.checkpoint p + 1) n <> Some i ->
     Potato.onCheckpoint cfg n now (Some (i, fl)) p = p) /\
  (forall now hit p,
     Potato.checkpoint (Potato.onCheckpoint cfg n now hit p)
       <> Potato.checkpoint p ->
     exists i fl,
       hit = Some (i, fl) /\
       JS.mod_nat (Potato.checkpoint p + 1) n = Some i /\
       Potato.checkpoint (Potato.onCheckpoint cfg n now hit p) = i) /\
  (forall now hit p,
     Potato.lap (Potato.onCheckpoint cfg n now hit p) <> Potato.lap p ->
     Potato.lap (Potato.onCheckpoint cfg n now hit p) = S (Potato.lap p) /\
     Potato.checkpoint (Potato.onCheckpoint cfg n now hit p) = O /\
     JS.mod_nat (Potato.checkpoint p + 1) n = Some O /\
     exists fl, hit = Some (O, fl)) /\
  (forall p ticks tick,
     Potato.checkpoint p = O ->
     Potato.lap (Potato.progress cfg n p ticks) = Potato.lap p ->
     Potato.lap (Potato.onCheckpoint cfg n (fst tick) (snd tick)
                   (Potato.progress cfg n p ticks))
       <> Potato.lap (Potato.progress cfg n p ticks) ->
     subseq (seq 0 n) (Potato.visited cfg n p ticks) = true).
Proof.
  split; [reflexivity |].
  split; [intros; apply onCheckpoint_rejected; assumption |].
  split; [| split].
  - intros now [[i fl] |] p H; [| simpl in H; congruence].
    destruct (onCheckpoint_cases cfg n now i fl p)
      as [(_ & E) | [(Hm & _ & E) | (Hm & Hi & Hcp & _)]].
    + rewrite E in H. congruence.
    + exists i, fl. rewrite E. auto.
    + exists i, fl. subst i. auto.
  - intros now [[i fl] |] p H; [| simpl in H; congruence].
    destruct (onCheckpoint_cases cfg n now i fl p)
      as [(_ & E) | [(_ & _ & E) | (Hm & Hi & Hcp & Hl)]].
    + rewrite E in H. congruence.
    + rewrite E in H. simpl in H. congruence.
    + subst i. repeat split; try assumption. exists fl. reflexivity.
  - intros p ticks tick Hcp Hlap Hinc.
    assert (Hn : (Potato.checkpoint p < n)%nat).
    { rewrite Hcp. destruct n as [| n']; [| lia]. exfalso. apply Hinc.
      destruct tick as [now [[i fl] |]]; [| reflexivity].
      cbn [fst snd]. rewrite onCheckpoint_rejected; [reflexivity |].
      simpl. discriminate. }
    pose proof (cycle_before_lap cfg n ticks p tick Hn Hlap Hinc) as H.
    rewrite Hcp, Nat.sub_0_r in H. exact H.
Qed.

(** The scenario of the specification: at checkpoint 2 of 4, a hit of
    checkpoint 0 changes nothing. *)
Lemma out_of_order_hit_ignored (cfg : Config.t) (now : R) (p : Potato.t) :
  Potato.checkpoint p = 2%nat ->
  Potato.onCheckpoint cfg 4 now (Some (O, true)) p = p.
Proof.
  intro H. apply onCheckpoint_rejected. rewrite H. simpl. discriminate.
Qed.

(** A new potato on a track with 4 checkpoints.  The hits 1, 2, 3 advance
    the index, the stray hits 3 (at index 1) and 0 (at index 2) change
    nothing, and the hit of checkpoint 0 at index 3 starts lap 1. *)
Lemma first_lap_example (x y : R) :
  let p0 := Potato.constructor x y in
  Potato.lap (Potato.progress Config.defaults 4 p0 firstLapTicks) = O /\
  Potato.checkpoint (Potato.progress Config.defaults 4 p0 firstLapTicks)
    = 3%nat /\
  Potato.visited Config.defaults 4 p0 firstLapTicks
    = [0; 1; 1; 2; 2; 2; 3]%nat /\
  Potato.lap (Potato.onCheckpoint Config.defaults 4 7 (Some (O, true))
                (Potato.progress Config.defaults 4 p0 firstLapTicks))
    = 1%nat.
Proof. repeat split; reflexivity. Qed.

Lemma checkpoints_in_order_then_lap_witness :
  subseq (seq 0 4)
         (Potato.visited Config.defaults 4 (Potato.constructor 0 0)
                         firstLapTicks) = true.
Proof.
  apply (proj2 (proj2 (proj2 (proj2
           (checkpoints_in_order_then_lap Config.defaults 4))))
           (Potato.constructor 0 0) firstLapTicks (7, Some (O, true))).
  - reflexivity.
  - reflexivity.
  - simpl. discriminate.
Defined.

(** * Further properties of the engine

    Properties of the same code that the specification does not state:
    edge cases, invariants, round trips and the way the operations
    compose.  As above, numbers are real numbers. *)

(** ** [Helpers.clamp] *)

Lemma clamp_inside (value min max : R) :
  min <= value <= max -> Helpers.clamp value min max = value.
Proof.
  intros [H1 H2]. unfold Helpers.clamp.
  rewrite Rmin_right by assumption. apply Rmax_right. assumption.
Qed.

Lemma clamp_below (value min max : R) :
  min <= max -> value <= min -> Helpers.clamp value min max = min.
Proof.
  intros H1 H2. unfold Helpers.clamp.
  rewrite Rmin_right by lra. apply Rmax_left. assumption.
Qed.

Lemma clamp_above (value min max : R) :
  min <= max -> max <= value -> Helpers.clamp value min max = max.
Proof.
  intros H1 H2. unfold Helpers.clamp.
  rewrite Rmin_left by assumption. apply Rmax_right. assumption.
Qed.

Lemma clamp_bounds (value min max : R) :
  min <= max -> min <= Helpers.clamp value min max <= max.
Proof.
  intro H. destruct (Rle_dec value min); [rewrite clamp_below; lra |].
  destruct (Rle_dec max value); [rewrite clamp_above; lra |].
  rewrite clamp_inside; lra.
Qed.

(** ** [Physics.applyForce] and [Physics.resetAcceleration] *)

(** X1.  Forces accumulate: applying [f] then [g] is applying [g] then
    [f], and is applying their sum (in exact arithmetic); only the
    acceleration changes.  A mass that is missing or 0 counts as 1, and
    [resetAcceleration] clears what was accumulated. *)
Theorem applyForce_accumulates (o : Physics.object) (f g : Vec) :
  Forces.applyForce (Forces.applyForce o f) g =
    Forces.applyForce (Forces.applyForce o g) f /\
  Forces.applyForce (Forces.applyForce o f) g =
    Forces.applyForce o (vadd f g) /\
  Forces.applyForce o f =
    Forces.set_acceleration o
      (vadd (Physics.acceleration o)
            (Vector2.scale (/ JS.or_opt (Physics.mass o) 1) f)) /\
  (Physics.mass o = None \/ Physics.mass o = Some 0 ->
   Physics.acceleration (Forces.applyForce o f) =
     vadd (Physics.acceleration o) f) /\
  Physics.acceleration (Forces.resetAcceleration (Forces.applyForce o f)) =
    Vector2.mk 0 0.
Proof.
  assert (Hm : JS.or_opt (Physics.mass o) 1 <> 0)
    by (apply or_opt_nonzero; lra).
  unfold Forces.applyForce, Forces.set_acceleration, vadd, Vector2.scale;
    simpl.
  repeat split.
  - do 2 f_equal; field; assumption.
  - do 2 f_equal; field; assumption.
  - intros [H | H]; rewrite H; simpl; rewrite ?or_num_of_zero;
      f_equal; field.
Qed.

(** ** [Physics.resolveCollision]: momentum and restitution *)

Lemma unit_square (n : Vec) :
  Vector2.norm n = 1 ->
  Vector2.x n * Vector2.x n + Vector2.y n * Vector2.y n = 1.
Proof.
  unfold Vector2.norm. intro H.
  rewrite <- (sqrt_sqrt (Vector2.x n * Vector2.x n + Vector2.y n * Vector2.y n))
    by apply sum_squares_nonneg.
  rewrite H. ring.
Qed.

(** X2.  [resolveCollision] conserves the total momentum of the pair,
    whatever the collision data: what one body gains the other loses. *)
Theorem resolveCollision_conserves_momentum
  (a b : Physics.object) (c : collision) :
  1 / JS.or_opt (Physics.mass a) 1 + 1 / JS.or_opt (Physics.mass b) 1 <> 0 ->
  vadd (momentum (fst (Physics.resolveCollision a b c)))
       (momentum (snd (Physics.resolveCollision a b c))) =
  vadd (momentum a) (momentum b).
Proof.
  intro Hsum.
  assert (Hma : JS.or_opt (Physics.mass a) 1 <> 0)
    by (apply or_opt_nonzero; lra).
  assert (Hmb : JS.or_opt (Physics.mass b) 1 <> 0)
    by (apply or_opt_nonzero; lra).
  unfold Physics.resolveCollision.
  destruct (JS.gtb _ 0); [reflexivity |].
  pose proof (masses_sum_nonzero _ _ Hma Hmb Hsum) as Hab.
  destruct (JS.truthy (overlap c)); unfold momentum, vadd, Vector2.scale;
    simpl; f_equal; field; auto.
Qed.

Lemma resolveCollision_conserves_momentum_witness :
  vadd (momentum (fst (Physics.resolveCollision
                         (massiveBody (Vector2.mk 0 0) (Vector2.mk (-1) 0) 2)
                         (massiveBody (Vector2.mk (-1) 0) (Vector2.mk 1 0) 3)
                         (mkCollision true (Some (Vector2.mk 1 0)) (Some 1)
                                      None))))
       (momentum (snd (Physics.resolveCollision
                         (massiveBody (Vector2.mk 0 0) (Vector2.mk (-1) 0) 2)
                         (massiveBody (Vector2.mk (-1) 0) (Vector2.mk 1 0) 3)
                         (mkCollision true (Some (Vector2.mk 1 0)) (Some 1)
                                      None)))) =
  vadd (momentum (massiveBody (Vector2.mk 0 0) (Vector2.mk (-1) 0) 2))
       (momentum (massiveBody (Vector2.mk (-1) 0) (Vector2.mk 1 0) 3)).
Proof.
  apply resolveCollision_conserves_momentum.
  unfold massiveBody, JS.or_opt, JS.or_num; simpl. decide_numbers.
Defined.

(** X3.  When the bodies are not separating along a unit normal
    (relative normal velocity at most 0), the relative normal velocity
    after [resolveCollision] is the one before, reversed and multiplied by
    the restitution of the pair (the smaller of the two, 0.5 where
    undefined). *)
Theorem resolveCollision_restitution
  (a b : Physics.object) (c : collision) (n : Vec) :
  normal c = Some n ->
  Vector2.norm n = 1 ->
  Physics.relativeNormalVelocity a b c <= 0 ->
  1 / JS.or_opt (Physics.mass a) 1 + 1 / JS.or_opt (Physics.mass b) 1 <> 0 ->
  Physics.relativeNormalVelocity
    (fst (Physics.resolveCollision a b c))
    (snd (Physics.resolveCollision a b c)) c =
  - pairRestitution a b * Physics.relativeNormalVelocity a b c.
Proof.
  intros Hn Hunit Hdot Hsum.
  assert (Hma : JS.or_opt (Physics.mass a) 1 <> 0)
    by (apply or_opt_nonzero; lra).
  assert (Hmb : JS.or_opt (Physics.mass b) 1 <> 0)
    by (apply or_opt_nonzero; lra).
  pose proof (unit_square n Hunit) as Hsq.
  pose proof (masses_sum_nonzero _ _ Hma Hmb Hsum) as Hab.
  unfold Physics.resolveCollision.
  apply gtb_false in Hdot. rewrite Hdot.
  unfold Physics.relativeNormalVelocity, pairRestitution in *.
  rewrite Hn in *.
  set (e := Rmin _ _).
  set (ma := JS.or_opt (Physics.mass a) 1) in *.
  set (mb := JS.or_opt (Physics.mass b) 1) in *.
  set (nx := Vector2.x n) in *. set (ny := Vector2.y n) in *.
  set (d := (Vector2.x (Physics.velocity a) - Vector2.x (Physics.velocity b)) * nx
            + (Vector2.y (Physics.velocity a) - Vector2.y (Physics.velocity b)) * ny).
  destruct (JS.truthy (overlap c)); simpl;
    fold nx ny;
    match goal with
    | |- ?l = ?r =>
        replace l with (d - (1 + e) * d * (nx * nx + ny * ny))
          by (unfold d; field; auto)
    end;
    rewrite Hsq; unfold d; ring.
Qed.

(** Two bodies of mass 1 meeting head-on at speed 1 along the normal:
    closing at 2, they part at 1 with the default restitution 0.5. *)
Lemma resolveCollision_restitution_witness :
  Physics.relativeNormalVelocity
    (fst (Physics.resolveCollision
            (massiveBody (Vector2.mk 1 0) (Vector2.mk (-1) 0) 1)
            (massiveBody (Vector2.mk 0 0) (Vector2.mk 1 0) 1)
            (mkCollision true (Some (Vector2.mk 1 0)) None None)))
    (snd (Physics.resolveCollision
            (massiveBody (Vector2.mk 1 0) (Vector2.mk (-1) 0) 1)
            (massiveBody (Vector2.mk 0 0) (Vector2.mk 1 0) 1)
            (mkCollision true (Some (Vector2.mk 1 0)) None None)))
    (mkCollision true (Some (Vector2.mk 1 0)) None None) =
  - pairRestitution (massiveBody (Vector2.mk 1 0) (Vector2.mk (-1) 0) 1)
                    (massiveBody (Vector2.mk 0 0) (Vector2.mk 1 0) 1)
  * Physics.relativeNormalVelocity
      (massiveBody (Vector2.mk 1 0) (Vector2.mk (-1) 0) 1)
      (massiveBody (Vector2.mk 0 0) (Vector2.mk 1 0) 1)
      (mkCollision true (Some (Vector2.mk 1 0)) None None).
Proof.
  apply (resolveCollision_restitution _ _ _ (Vector2.mk 1 0)).
  - reflexivity.
  - apply norm_of; lra.
  - unfold Physics.relativeNormalVelocity; simpl. lra.
  - unfold massiveBody, JS.or_opt, JS.or_num; simpl. decide_numbers.
Defined.

(** ** [Physics.checkLineCollision] and [Track.lineCircleCollision] *)

Lemma Rmax_Rmin_low (l p : R) : 0 <= l -> p <= 0 -> Rmax 0 (Rmin l p) = 0.
Proof.
  intros Hl Hp. rewrite Rmin_right by lra. apply Rmax_left. assumption.
Qed.

Lemma Rmax_Rmin_high (l p : R) : 0 <= l -> l <= p -> Rmax 0 (Rmin l p) = l.
Proof.
  intros Hl Hp. rewrite Rmin_left by assumption. apply Rmax_right. assumption.
Qed.

Lemma Rmax_Rmin_mid (l p : R) : 0 <= p -> p <= l -> Rmax 0 (Rmin l p) = p.
Proof.
  intros H0 Hl. rewrite Rmin_right by assumption. apply Rmax_right. assumption.
Qed.

(** On a segment of positive length the two ways of finding the closest
    point, by projection on the unit vector and by the parameter
    [dot / lenSq], agree. *)
Lemma closest_agrees (p : Vec) (line : Track.segment) :
  Track.start line <> Track.end_ line ->
  LineCollision.closest p line =
  Track.closestPointOn p (Track.start line) (Track.end_ line).
Proof.
  destruct line as [[sx sy] [ex ey]], p as [px py]; simpl. intro Hne.
  unfold LineCollision.closest, Track.closestPointOn; simpl.
  set (C := ex - sx). set (D := ey - sy).
  set (A := px - sx). set (B := py - sy).
  set (L := sqrt (C * C + D * D)).
  assert (HS : 0 <= C * C + D * D) by apply sum_squares_nonneg.
  assert (HLL : L * L = C * C + D * D) by (apply sqrt_sqrt; exact HS).
  assert (HL : 0 < L).
  { destruct (sqrt_pos (C * C + D * D)) as [H | H]; [exact H |].
    exfalso. apply Hne. fold L in H.
    assert (H0 : C * C + D * D = 0) by (rewrite <- HLL, <- H; ring).
    apply sum_squares_zero in H0. destruct H0 as [HC HD].
    unfold C, D in *. f_equal; lra. }
  assert (HS0 : C * C + D * D <> 0) by (rewrite <- HLL; nra).
  destruct (Req_dec_T (C * C + D * D) 0) as [E | _]; [contradiction |].
  assert (Hproj : A * (C / L) + B * (D / L) = (A * C + B * D) / L)
    by (field; lra).
  assert (Hparam : (A * C + B * D) / (C * C + D * D)
                   = (A * C + B * D) / L / L).
  { rewrite <- HLL. field. lra. }
  rewrite Hproj, Hparam.
  set (q := (A * C + B * D) / L) in *.
  unfold JS.gtb, JS.ltb.
  destruct (Rlt_dec (q / L) 0) as [Hlow | Hlow].
  - assert (q < 0).
    { apply Rmult_lt_reg_r with (/ L); [apply Rinv_0_lt_compat; lra |].
      unfold Rdiv in Hlow. lra. }
    rewrite Rmax_Rmin_low by lra. f_equal; ring.
  - assert (Hq : 0 <= q).
    { apply Rnot_lt_le in Hlow. unfold Rdiv in Hlow.
      apply Rmult_le_reg_r with (/ L); [apply Rinv_0_lt_compat; lra |].
      lra. }
    destruct (Rlt_dec 1 (q / L)) as [Hhigh | Hhigh].
    + assert (L < q).
      { apply Rmult_lt_reg_r with (/ L); [apply Rinv_0_lt_compat; lra |].
        unfold Rdiv in Hhigh. rewrite Rinv_r by lra. lra. }
      rewrite Rmax_Rmin_high by lra. unfold C, D. f_equal; field; lra.
    + assert (q <= L).
      { apply Rnot_lt_le in Hhigh. unfold Rdiv in Hhigh.
        apply Rmult_le_reg_r with (/ L); [apply Rinv_0_lt_compat; lra |].
        rewrite Rinv_r by lra. lra. }
      rewrite Rmax_Rmin_mid by lra. f_equal; field; lra.
Qed.

(** X4.  On a segment whose end points differ, [Physics.checkLineCollision]
    and [Track.lineCircleCollision] return the same collision data for
    the same circle: the two implementations of the circle-segment test
    agree. *)
Theorem checkLineCollision_agrees_with_track
  (o : Physics.object) (line : Track.segment) (r : R) :
  Track.start line <> Track.end_ line ->
  Physics.radius o = Some r ->
  LineCollision.checkLineCollision o line =
  Track.lineCircleCollision (Track.start line) (Track.end_ line)
                            (Physics.position o) r.
Proof.
  intros Hne Hr.
  unfold LineCollision.checkLineCollision, Track.lineCircleCollision,
    Track.pointToLineDistance.
  rewrite Hr, (closest_agrees _ _ Hne). cbv zeta.
  set (dist := sqrt _).
  unfold JS.ltb, JS.geb.
  destruct (Rlt_dec dist r), (Rle_dec r dist); try reflexivity; lra.
Qed.

Lemma checkLineCollision_agrees_with_track_witness :
  LineCollision.checkLineCollision
    (circleAt (Vector2.mk 1 2) 3)
    (Track.mkSegment (Vector2.mk 0 10) (Vector2.mk 0 0)) =
  Track.lineCircleCollision (Vector2.mk 0 10) (Vector2.mk 0 0)
                            (Vector2.mk 1 2) 3.
Proof.
  apply (checkLineCollision_agrees_with_track
           (circleAt (Vector2.mk 1 2) 3)
           (Track.mkSegment (Vector2.mk 0 10) (Vector2.mk 0 0)) 3).
  - simpl. intro H. injection H as H. lra.
  - reflexivity.
Defined.

(** ** [Physics.resolveLineCollision] *)

(** X5.  For collision data with a unit normal, [resolveLineCollision]
    moves the object by [overlap] along the normal and keeps the velocity
    component along the line.  If the object moves into the line, the
    normal component of its velocity is reversed and multiplied by the
    restitution; otherwise the velocity is unchanged.  The restitution is
    read through [||]: a restitution that is missing or 0 counts as 0.5. *)
Theorem resolveLineCollision_reflects
  (o : Physics.object) (c : collision) (n : Vec) (ov : R) :
  normal c = Some n -> overlap c = Some ov -> Vector2.norm n = 1 ->
  exists o' : Physics.object,
    LineCollision.resolveLineCollision o c = Some o' /\
    Physics.position o' = vadd (Physics.position o) (Vector2.scale ov n) /\
    Vector2.dot (Physics.velocity o') (perp n) =
      Vector2.dot (Physics.velocity o) (perp n) /\
    (Vector2.dot (Physics.velocity o) n < 0 ->
     Vector2.dot (Physics.velocity o') n =
       - JS.or_opt (Physics.restitution o) (1 / 2)
       * Vector2.dot (Physics.velocity o) n) /\
    (0 <= Vector2.dot (Physics.velocity o) n ->
     Physics.velocity o' = Physics.velocity o) /\
    (Physics.restitution o = None \/ Physics.restitution o = Some 0 ->
     JS.or_opt (Physics.restitution o) (1 / 2) = 1 / 2).
Proof.
  intros Hn Hov Hunit. pose proof (unit_square n Hunit) as Hsq.
  unfold LineCollision.resolveLineCollision. rewrite Hn, Hov.
  unfold Vector2.dot, perp, vadd, Vector2.scale in *. simpl.
  set (e := JS.or_opt (Physics.restitution o) (1 / 2)).
  set (d := Vector2.x (Physics.velocity o) * Vector2.x n
            + Vector2.y (Physics.velocity o) * Vector2.y n) in *.
  assert (He : Physics.restitution o = None \/ Physics.restitution o = Some 0
               -> e = 1 / 2).
  { unfold e. intros [H | H]; rewrite H; simpl;
      [reflexivity | apply or_num_of_zero]. }
  destruct (JS.ltb d 0) eqn:E; eexists; split; try reflexivity; simpl.
  - apply ltb_true in E. repeat split; try assumption.
    + ring.
    + intros _.
      replace ((Vector2.x (Physics.velocity o) - (1 + e) * d * Vector2.x n)
               * Vector2.x n
               + (Vector2.y (Physics.velocity o) - (1 + e) * d * Vector2.y n)
                 * Vector2.y n)
        with (d - (1 + e) * d
                  * (Vector2.x n * Vector2.x n + Vector2.y n * Vector2.y n))
        by (unfold d; ring).
      rewrite Hsq. ring.
    + intro H. lra.
  - apply ltb_false in E. repeat split; try assumption.
    intro H. lra.
Qed.

Lemma resolveLineCollision_reflects_witness :
  exists o' : Physics.object,
    LineCollision.resolveLineCollision
      (bodyAt (Vector2.mk 0 1) (Vector2.mk 3 (-2)) 2)
      (mkCollision true (Some (Vector2.mk 0 1)) (Some 1)
                   (Some (Vector2.mk 0 0))) = Some o' /\
    Physics.position o' =
      vadd (Vector2.mk 0 1) (Vector2.scale 1 (Vector2.mk 0 1)).
Proof.
  destruct (resolveLineCollision_reflects
              (bodyAt (Vector2.mk 0 1) (Vector2.mk 3 (-2)) 2)
              (mkCollision true (Some (Vector2.mk 0 1)) (Some 1)
                           (Some (Vector2.mk 0 0)))
              (Vector2.mk 0 1) 1 eq_refl eq_refl)
    as (o' & H1 & H2 & _).
  - apply norm_of; lra.
  - exists o'. split; [exact H1 | exact H2].
Defined.

(** ** [Physics.seek] *)

(** X6.  [seek] returns the zero force when the target is closer than
    0.01.  Beyond that, for an object without [maxSpeed], as every object
    that the repository builds, the result is [{x: NaN, y: NaN}]; for an
    object with a [maxSpeed] and a non-negative [maxForce] the result is a
    force that never exceeds [maxForce] in length. *)
Theorem seek_bounded
  (o : Physics.object) (target : Vec) (maxForce : R) :
  0 <= maxForce ->
  (forall maxSpeed : option R,
     Vector2.norm (Vector2.sub target (Physics.position o)) < 1 / 100 ->
     Steering.seek o maxSpeed target maxForce = Some (Vector2.mk 0 0)) /\
  (1 / 100 <= Vector2.norm (Vector2.sub target (Physics.position o)) ->
   Steering.seek o None target maxForce = None) /\
  (forall speed : R,
     exists force : Vec,
       Steering.seek o (Some speed) target maxForce = Some force /\
       Vector2.norm force <= maxForce).
Proof.
  intro HF. unfold Steering.seek, Vector2.sub, Vector2.norm at 1 2. simpl.
  set (dist := sqrt _).
  split; [| split].
  - intros maxSpeed H. apply ltb_true in H. rewrite H. reflexivity.
  - intro H. apply ltb_false in H. rewrite H. reflexivity.
  - intro speed. destruct (JS.ltb dist (1 / 100)) eqn:Enear.
    + eexists. split; [reflexivity |].
      replace (Vector2.norm (Vector2.mk 0 0)) with 0; [assumption |].
      symmetry. apply norm_zero_iff. reflexivity.
    + set (sx := _ - Vector2.x (Physics.velocity o)).
      set (sy := _ - Vector2.y (Physics.velocity o)).
      set (m := sqrt (sx * sx + sy * sy)).
      destruct (JS.gtb m maxForce) eqn:Eover.
      * eexists. split; [reflexivity |].
        apply gtb_true in Eover.
        assert (Hm : 0 < m) by lra.
        assert (Hmm : m * m = sx * sx + sy * sy)
          by (apply sqrt_sqrt; apply sum_squares_nonneg).
        rewrite (norm_of _ _ maxForce); [lra | assumption |].
        replace (sx / m * maxForce * (sx / m * maxForce)
                 + sy / m * maxForce * (sy / m * maxForce))
          with ((sx * sx + sy * sy) / (m * m) * (maxForce * maxForce))
          by (field; lra).
        rewrite <- Hmm. field. lra.
      * eexists. split; [reflexivity |].
        apply gtb_false in Eover. exact Eover.
Qed.

(** A body at the origin seeking [(3, 4)] with force at most 1: without
    [maxSpeed] the result is not a vector of numbers; with [maxSpeed = 5]
    it is a force of length at most 1. *)
Lemma seek_bounded_witness :
  Steering.seek (movingBody (Vector2.mk 0 0)) None (Vector2.mk 3 4) 1 = None /\
  exists force : Vec,
    Steering.seek (movingBody (Vector2.mk 0 0)) (Some 5) (Vector2.mk 3 4) 1
    = Some force /\
    Vector2.norm force <= 1.
Proof.
  destruct (seek_bounded (movingBody (Vector2.mk 0 0)) (Vector2.mk 3 4) 1
              ltac:(lra)) as (_ & Hnone & Hsome).
  split; [| exact (Hsome 5)].
  apply Hnone. unfold Vector2.sub, movingBody, Vector2.zero. simpl.
  rewrite (norm_of _ _ 5) by lra. lra.
Defined.

(** ** [Track.pointToLineDistance] and [Track.lineCircleCollision] *)

Lemma pointToLineDistance_dist (p s e : Vec) :
  Track.pointToLineDistance p s e = dist p (Track.closestPointOn p s e).
Proof. reflexivity. Qed.

Lemma dist_pointAt_le (p s e : Vec) (t0 t : R) :
  (Vector2.x p - Vector2.x (pointAt s e t0))
  * (Vector2.x p - Vector2.x (pointAt s e t0))
  + (Vector2.y p - Vector2.y (pointAt s e t0))
    * (Vector2.y p - Vector2.y (pointAt s e t0))
  <= (Vector2.x p - Vector2.x (pointAt s e t))
     * (Vector2.x p - Vector2.x (pointAt s e t))
     + (Vector2.y p - Vector2.y (pointAt s e t))
       * (Vector2.y p - Vector2.y (pointAt s e t)) ->
  dist p (pointAt s e t0) <= dist p (pointAt s e t).
Proof.
  intro H. unfold dist, Vector2.norm, Vector2.sub; simpl.
  apply sqrt_le_1_alt. exact H.
Qed.

Lemma square_nonneg (u : R) : 0 <= u * u.
Proof. nra. Qed.

Lemma sq_dist_at (px py sx sy C D t : R) :
  (px - (sx + t * C)) * (px - (sx + t * C))
  + (py - (sy + t * D)) * (py - (sy + t * D)) =
  ((px - sx) * (px - sx) + (py - sy) * (py - sy))
  - 2 * t * ((px - sx) * C + (py - sy) * D)
  + t * t * (C * C + D * D).
Proof. ring. Qed.

(** The closest point is a point of the segment, and no point of the
    segment is closer. *)
Lemma closestPointOn_minimal (p s e : Vec) :
  exists t0 : R,
    0 <= t0 <= 1 /\
    Track.closestPointOn p s e = pointAt s e t0 /\
    forall t : R, 0 <= t <= 1 ->
                  dist p (pointAt s e t0) <= dist p (pointAt s e t).
Proof.
  destruct p as [px py], s as [sx sy], e as [ex ey].
  unfold Track.closestPointOn; simpl.
  set (C := ex - sx). set (D := ey - sy).
  set (N := (px - sx) * (px - sx) + (py - sy) * (py - sy)).
  set (d := (px - sx) * C + (py - sy) * D).
  set (S := C * C + D * D).
  assert (HS : 0 <= S) by apply sum_squares_nonneg.
  assert (Hmin : forall t0 t : R,
             N - 2 * t0 * d + t0 * t0 * S <= N - 2 * t * d + t * t * S ->
             dist (Vector2.mk px py)
                  (pointAt (Vector2.mk sx sy) (Vector2.mk ex ey) t0)
             <= dist (Vector2.mk px py)
                     (pointAt (Vector2.mk sx sy) (Vector2.mk ex ey) t)).
  { intros t0 t H. apply dist_pointAt_le. simpl. fold C D.
    rewrite !sq_dist_at. exact H. }
  destruct (Req_dec_T S 0) as [E0 | E0].
  - (* a segment reduced to a point *)
    exists 0. split; [lra |].
    replace (JS.ltb (-1) 0) with true by (symmetry; apply ltb_true; lra).
    split; [unfold pointAt; simpl; f_equal; ring |].
    intros t Ht. apply Hmin.
    assert (HC : C = 0 /\ D = 0) by (apply sum_squares_zero; exact E0).
    destruct HC as [HC HD]. unfold d. rewrite E0, HC, HD.
    apply Req_le. ring.
  - assert (HSpos : 0 < S) by lra.
    set (q := d / S).
    assert (Hq : d = q * S) by (unfold q; field; exact E0).
    clearbody q N d S. unfold JS.gtb, JS.ltb.
    destruct (Rlt_dec q 0) as [Hlow | Hlow].
    + exists 0. split; [lra |].
      split; [unfold pointAt; simpl; f_equal; ring |].
      intros t Ht. apply Hmin. subst d.
      assert (0 <= t * t * S) by (apply Rmult_le_pos; [nra | lra]).
      assert (0 <= t * (- q) * S)
        by (apply Rmult_le_pos; [apply Rmult_le_pos |]; lra).
      nra.
    + destruct (Rlt_dec 1 q) as [Hhigh | Hhigh].
      * exists 1. split; [lra |].
        split; [unfold pointAt; simpl; f_equal; ring |].
        intros t Ht. apply Hmin. subst d.
        assert (H1 : 0 <= (1 - t) * (q - 1) * S)
          by (apply Rmult_le_pos; [apply Rmult_le_pos |]; lra).
        assert (H2 : 0 <= (1 - t) * (1 - t) * S)
          by (apply Rmult_le_pos; [apply square_nonneg | lra]).
        nra.
      * exists q. split; [lra |].
        split; [reflexivity |].
        intros t Ht. apply Hmin. subst d.
        assert (H1 : 0 <= (t - q) * (t - q) * S)
          by (apply Rmult_le_pos; [apply square_nonneg | lra]).
        nra.
Qed.

(** X7.  [pointToLineDistance] is the distance from the point to the
    segment: it is the distance to a point of the segment, and no point of
    the segment is closer.  A segment whose end points coincide is
    treated as that point. *)
Theorem pointToLineDistance_is_minimum (p s e : Vec) :
  (exists t0 : R,
     0 <= t0 <= 1 /\
     Track.pointToLineDistance p s e = dist p (pointAt s e t0)) /\
  (forall t : R, 0 <= t <= 1 ->
     Track.pointToLineDistance p s e <= dist p (pointAt s e t)) /\
  (s = e -> Track.pointToLineDistance p s e = dist p s).
Proof.
  destruct (closestPointOn_minimal p s e) as (t0 & Ht0 & Hc & Hmin).
  rewrite pointToLineDistance_dist, Hc.
  split; [exists t0; auto |]. split; [exact Hmin |].
  intros ->. unfold dist, pointAt, Vector2.sub, Vector2.norm; simpl.
  f_equal. ring.
Qed.

(** X8.  A colliding result of [lineCircleCollision] carries the closest
    point of the segment as contact point and [radius - distance] as
    overlap, with [0 <= distance < radius].  When the centre is not on the
    segment the normal is the unit vector from the contact point to the
    centre, and moving the centre by [overlap] along the normal puts it at
    distance exactly [radius] from the contact point. *)
Theorem lineCircleCollision_contact (s e p : Vec) (r : R) :
  colliding (Track.lineCircleCollision s e p r) = true ->
  0 <= Track.pointToLineDistance p s e < r /\
  overlap (Track.lineCircleCollision s e p r)
    = Some (r - Track.pointToLineDistance p s e) /\
  point (Track.lineCircleCollision s e p r)
    = Some (Track.closestPointOn p s e) /\
  (0 < Track.pointToLineDistance p s e ->
   exists n : Vec,
     normal (Track.lineCircleCollision s e p r) = Some n /\
     Vector2.norm n = 1 /\
     n = direction (Vector2.sub p (Track.closestPointOn p s e)) /\
     dist (vadd p (Vector2.scale (r - Track.pointToLineDistance p s e) n))
          (Track.closestPointOn p s e) = r).
Proof.
  intro Hc. assert (Hd := Hc).
  rewrite lineCircleCollision_colliding in Hd. apply ltb_true in Hd.
  split; [split; [apply sqrt_pos | exact Hd] |].
  split; [apply lineCircleCollision_overlap; exact Hc |].
  unfold Track.lineCircleCollision in *.
  destruct (JS.geb _ r); [discriminate |]. simpl.
  split; [reflexivity |].
  intro Hpos. eexists. split; [reflexivity |].
  unfold Track.pointToLineDistance in *.
  set (c := Track.closestPointOn p s e) in *. cbv zeta in *.
  set (dx := Vector2.x p - Vector2.x c) in *.
  set (dy := Vector2.y p - Vector2.y c) in *.
  assert (Hdd : sqrt (dx * dx + dy * dy) * sqrt (dx * dx + dy * dy)
                = dx * dx + dy * dy)
    by (apply sqrt_sqrt; apply sum_squares_nonneg).
  split; [apply unit_normal; exact Hpos |].
  split.
  - unfold direction, Vector2.sub, Vector2.norm, Vector2.scale; simpl.
    fold dx dy. f_equal; unfold Rdiv; ring.
  - unfold dist, vadd, Vector2.sub, Vector2.scale; simpl. fold dx dy.
    set (d := sqrt (dx * dx + dy * dy)) in *.
    apply norm_of; [lra |].
    replace ((Vector2.x p + dx / d * (r - d) - Vector2.x c)
             * (Vector2.x p + dx / d * (r - d) - Vector2.x c)
             + (Vector2.y p + dy / d * (r - d) - Vector2.y c)
               * (Vector2.y p + dy / d * (r - d) - Vector2.y c))
      with ((dx * dx + dy * dy) / (d * d) * (r * r))
      by (unfold dx, dy; field; lra).
    rewrite <- Hdd. field. lra.
Qed.

(** The circle of radius 3 at [(1, 2)] against the left side of the square
    track: distance 1, overlap 2. *)
Lemma lineCircleCollision_contact_witness :
  overlap (Track.lineCircleCollision (Vector2.mk 0 10) (Vector2.mk 0 0)
                                     (Vector2.mk 1 2) 3)
  = Some (3 - Track.pointToLineDistance (Vector2.mk 1 2) (Vector2.mk 0 10)
                                        (Vector2.mk 0 0)).
Proof.
  apply (lineCircleCollision_contact (Vector2.mk 0 10) (Vector2.mk 0 0)
                                     (Vector2.mk 1 2) 3).
  exact (proj1 left_side_collides).
Defined.

(** ** [Track.createBoundarySegments] *)

Lemma createBoundarySegments_nth (boundary : list Vec) (i : nat) :
  (2 <= length boundary)%nat -> (i < length boundary)%nat ->
  nth i (Track.createBoundarySegments boundary)
      (Track.mkSegment Vector2.zero Vector2.zero) =
  Track.mkSegment (nth i boundary Vector2.zero)
                  (nth (Nat.modulo (i + 1) (length boundary)) boundary
                       Vector2.zero).
Proof.
  intros Hn Hi. unfold Track.createBoundarySegments.
  replace (Nat.ltb (length boundary) 2) with false
    by (symmetry; apply Nat.ltb_ge; exact Hn).
  set (f := fun i0 : nat => _).
  rewrite (nth_indep _ _ (f O)) by (rewrite length_map, length_seq; exact Hi).
  rewrite map_nth. rewrite seq_nth by exact Hi. simpl.
  unfold f. rewrite !vec_eta. reflexivity.
Qed.

(** X9.  A boundary of fewer than 2 points gives no segment.  A boundary
    of [n >= 2] points gives [n] segments that form a closed chain:
    segment [i] runs from point [i] to point [(i + 1) mod n], so every
    segment ends where the next one starts and the last one ends at the
    first point. *)
Theorem createBoundarySegments_closed_chain (boundary : list Vec) :
  ((length boundary < 2)%nat -> Track.createBoundarySegments boundary = []) /\
  ((2 <= length boundary)%nat ->
   length (Track.createBoundarySegments boundary) = length boundary /\
   forall i : nat,
     (i < length boundary)%nat ->
     let seg j := nth j (Track.createBoundarySegments boundary)
                      (Track.mkSegment Vector2.zero Vector2.zero) in
     Track.start (seg i) = nth i boundary Vector2.zero /\
     Track.end_ (seg i) =
       nth (Nat.modulo (i + 1) (length boundary)) boundary Vector2.zero /\
     Track.end_ (seg i) =
       Track.start (seg (Nat.modulo (i + 1) (length boundary)))).
Proof.
  split.
  - intro H. unfold Track.createBoundarySegments.
    replace (Nat.ltb (length boundary) 2) with true
      by (symmetry; apply Nat.ltb_lt; exact H).
    reflexivity.
  - intro Hn. split.
    + unfold Track.createBoundarySegments.
      replace (Nat.ltb (length boundary) 2) with false
        by (symmetry; apply Nat.ltb_ge; exact Hn).
      rewrite length_map, length_seq. reflexivity.
    + intros i Hi seg. unfold seg.
      assert (Hnext : (Nat.modulo (i + 1) (length boundary)
                       < length boundary)%nat)
        by (apply Nat.mod_upper_bound; lia).
      rewrite !createBoundarySegments_nth by assumption. simpl. auto.
Qed.

(** ** [Track.createCheckpointHitboxes] and [Track.checkCheckpoint] *)

Lemma hitboxes_length (cps : list Track.checkpoint) :
  length (Track.createCheckpointHitboxes cps) = length cps.
Proof.
  unfold Track.createCheckpointHitboxes.
  rewrite length_map, length_combine, length_seq. apply Nat.min_id.
Qed.

Lemma combine_seq_nth (A : Type) (l : list A) :
  forall (k j : nat) (c : A),
    nth_error l j = Some c ->
    nth_error (combine (seq k (length l)) l) j = Some ((k + j)%nat, c).
Proof.
  induction l as [| a l IH]; intros k [| j] c H; simpl in *;
    try discriminate.
  - injection H as ->. rewrite Nat.add_0_r. reflexivity.
  - rewrite (IH (S k) j c H). f_equal. f_equal. lia.
Qed.

Lemma hitbox_nth (cps : list Track.checkpoint) (j : nat) (h : Track.hitbox) :
  nth_error (Track.createCheckpointHitboxes cps) j = Some h ->
  Track.index h = j /\ Track.isFinishLine h = Nat.eqb j 0 /\
  exists c : Track.checkpoint,
    nth_error cps j = Some c /\
    let halfWidth := JS.or_opt (Track.width c) 50 / 2 in
    let angleRad := JS.or_opt (Track.angle c) 0 * (PI / 180) in
    Track.hstart h = Vector2.mk (Track.cx c - cos angleRad * halfWidth)
                                (Track.cy c - sin angleRad * halfWidth) /\
    Track.hend h = Vector2.mk (Track.cx c + cos angleRad * halfWidth)
                              (Track.cy c + sin angleRad * halfWidth).
Proof.
  intro H.
  destruct (nth_error cps j) as [c |] eqn:Ec.
  - unfold Track.createCheckpointHitboxes in H.
    rewrite nth_error_map, (combine_seq_nth _ cps 0 j c Ec) in H.
    simpl in H. injection H as <-. simpl.
    split; [reflexivity |]. split; [reflexivity |].
    exists c. auto.
  - exfalso. apply nth_error_None in Ec.
    assert (Hlt : (j < length (Track.createCheckpointHitboxes cps))%nat)
      by (apply nth_error_Some; congruence).
    rewrite hitboxes_length in Hlt. lia.
Qed.

(** X10.  Checkpoint [j] of a track gets hitbox [j]: it carries index [j],
    is the finish line exactly when [j] is 0, is centred on the
    checkpoint, and its length is the absolute value of the checkpoint's
    width, 50 when the width is missing or 0. *)
Theorem createCheckpointHitboxes_geometry
  (cps : list Track.checkpoint) (j : nat) (c : Track.checkpoint) :
  nth_error cps j = Some c ->
  exists h : Track.hitbox,
    nth_error (Track.createCheckpointHitboxes cps) j = Some h /\
    Track.index h = j /\
    Track.isFinishLine h = Nat.eqb j 0 /\
    midpoint h = Vector2.mk (Track.cx c) (Track.cy c) /\
    dist (Track.hstart h) (Track.hend h)
      = Rabs (JS.or_opt (Track.width c) 50).
Proof.
  intro Hc.
  destruct (nth_error (Track.createCheckpointHitboxes cps) j) as [h |] eqn:Eh.
  - exists h. split; [reflexivity |].
    destruct (hitbox_nth cps j h Eh) as (Hi & Hf & c' & Hc' & Hs & He).
    rewrite Hc in Hc'. injection Hc' as <-.
    split; [exact Hi |]. split; [exact Hf |].
    unfold midpoint, dist, Vector2.sub. rewrite Hs, He. simpl.
    set (a := JS.or_opt (Track.angle c) 0 * (PI / 180)).
    set (w := JS.or_opt (Track.width c) 50).
    split; [f_equal; field |].
    apply norm_of; [apply Rabs_pos |].
    replace (Rabs w * Rabs w) with (w * w)
      by (rewrite <- Rabs_mult; symmetry; apply Rabs_right;
          apply Rle_ge, square_nonneg).
    pose proof (sin2_cos2 a) as Hsc. unfold Rsqr in Hsc.
    replace ((Track.cx c - cos a * (w / 2) - (Track.cx c + cos a * (w / 2)))
             * (Track.cx c - cos a * (w / 2) - (Track.cx c + cos a * (w / 2)))
             + (Track.cy c - sin a * (w / 2) - (Track.cy c + sin a * (w / 2)))
               * (Track.cy c - sin a * (w / 2) - (Track.cy c + sin a * (w / 2))))
      with ((sin a * sin a + cos a * cos a) * (w * w)) by field.
    rewrite Hsc. ring.
  - exfalso. apply nth_error_None in Eh. rewrite hitboxes_length in Eh.
    assert ((j < length cps)%nat) by (apply nth_error_Some; congruence).
    lia.
Qed.

Lemma createCheckpointHitboxes_geometry_witness :
  exists h : Track.hitbox,
    nth_error (Track.checkpointHitboxes twoGateTrack) 1 = Some h /\
    Track.index h = 1%nat /\
    Track.isFinishLine h = false.
Proof.
  destruct (createCheckpointHitboxes_geometry
              (Track.checkpoints twoGateTrack) 1
              (Track.mkCheckpoint 100 0 None None) eq_refl)
    as (h & H1 & H2 & H3 & _).
  exists h. split; [exact H1 |]. split; [exact H2 | exact H3].
Defined.

Lemma firstHit_spec (px py radius : R) (hs : list Track.hitbox) :
  match Track.firstHit px py radius hs with
  | Some (i, fl) =>
      exists (j : nat) (h : Track.hitbox),
        nth_error hs j = Some h /\
        i = Track.index h /\ fl = Track.isFinishLine h /\
        hitboxDistance px py h < radius /\
        forall (j' : nat) (h' : Track.hitbox),
          (j' < j)%nat -> nth_error hs j' = Some h' ->
          radius <= hitboxDistance px py h'
  | None =>
      forall h : Track.hitbox, In h hs -> radius <= hitboxDistance px py h
  end.
Proof.
  induction hs as [| h hs IH]; simpl; [tauto |].
  fold (hitboxDistance px py h).
  destruct (JS.ltb (hitboxDistance px py h) radius) eqn:E.
  - apply ltb_true in E. exists O, h. repeat split; auto.
    intros j' h' Hj. lia.
  - apply ltb_false in E.
    destruct (Track.firstHit px py radius hs) as [[i fl] |].
    + destruct IH as (j & h0 & Hn & Hi & Hf & Hd & Hbefore).
      exists (S j), h0. repeat split; auto.
      intros [| j'] h' Hj Hn'; simpl in Hn'.
      * injection Hn' as <-. exact E.
      * apply (Hbefore j' h'); [lia | exact Hn'].
    + intros h' [<- | Hin]; auto.
Qed.

(** X11.  [checkCheckpoint] reports the first checkpoint, in index order,
    whose hitbox is closer than [radius] to the point: the reported index
    is below the number of checkpoints, the hitbox of that index is
    within [radius], every hitbox of a smaller index is not, and the
    finish-line flag says whether the index is 0.  It reports no hit
    exactly when no hitbox is within [radius]. *)
Theorem checkCheckpoint_first_hit (tr : Track.t) (px py radius : R) :
  (forall (i : nat) (fl : bool),
     Track.checkCheckpoint tr px py radius = Some (i, fl) ->
     (i < length (Track.checkpoints tr))%nat /\
     fl = Nat.eqb i 0 /\
     exists h : Track.hitbox,
       nth_error (Track.checkpointHitboxes tr) i = Some h /\
       hitboxDistance px py h < radius /\
       forall (j : nat) (h' : Track.hitbox),
         (j < i)%nat ->
         nth_error (Track.checkpointHitboxes tr) j = Some h' ->
         radius <= hitboxDistance px py h') /\
  (Track.checkCheckpoint tr px py radius = None <->
   forall h : Track.hitbox,
     In h (Track.checkpointHitboxes tr) ->
     radius <= hitboxDistance px py h).
Proof.
  unfold Track.checkCheckpoint.
  pose proof (firstHit_spec px py radius (Track.checkpointHitboxes tr)) as H.
  split.
  - intros i fl E. rewrite E in H.
    destruct H as (j & h & Hn & Hi & Hf & Hd & Hbefore).
    unfold Track.checkpointHitboxes in *.
    destruct (hitbox_nth _ _ _ Hn) as (Hidx & Hfin & _).
    assert (Hj : j = i) by congruence.
    rewrite Hj in Hn, Hbefore, Hidx, Hfin.
    split.
    + rewrite <- hitboxes_length. apply nth_error_Some. congruence.
    + split; [congruence |]. exists h. auto.
  - split.
    + intro E. rewrite E in H. exact H.
    + intro Hall.
      destruct (Track.firstHit _ _ _ _) as [[i fl] |]; [| reflexivity].
      destruct H as (j & h & Hn & _ & _ & Hd & _).
      apply nth_error_In in Hn. specialize (Hall h Hn). lra.
Qed.

(** ** Polygons and the drivable area *)

Lemma scan_xor (x y : R) (rest : list Vec) :
  forall pj b, Area.scan x y pj rest b = xorb b (Area.scan x y pj rest false).
Proof.
induction rest as [|p rest IH]; intros pj b; simpl.
- now rewrite xorb_false_r.
- rewrite IH. rewrite (IH p (if Area.intersect x y p pj then true else false)).
  destruct (Area.intersect x y p pj), b; simpl;
    try reflexivity; now destruct (Area.scan x y p rest false).
Qed.

Lemma last_cons_default (A : Type) (a d : A) (l : list A) :
  last (a :: l) d = last l a.
Proof.
revert a d. induction l as [|b l IH]; intros a d.
- reflexivity.
- change (last (a :: b :: l) d) with (last (b :: l) d).
  change (last (b :: l) a) with (last (b :: l) a).
  now rewrite !IH.
Qed.

Lemma scan_app (x y : R) (l1 l2 : list Vec) :
  forall pj b,
    Area.scan x y pj (l1 ++ l2) b
    = Area.scan x y (last l1 pj) l2 (Area.scan x y pj l1 b).
Proof.
induction l1 as [|p l1 IH]; intros pj b.
- reflexivity.
- change ((p :: l1) ++ l2) with (p :: (l1 ++ l2)).
  cbn [Area.scan]. rewrite IH. now rewrite last_cons_default.
Qed.

Lemma scan_rotate_one (x y : R) (a : Vec) (l : list Vec) :
  Area.scan x y (last (l ++ [a]) Vector2.zero) (l ++ [a]) false
  = Area.scan x y (last (a :: l) Vector2.zero) (a :: l) false.
Proof.
rewrite last_last, last_cons_default.
rewrite scan_app. cbn [Area.scan].
rewrite (scan_xor x y l a (if Area.intersect x y a (last l a) then _ else _)).
destruct (Area.intersect x y a (last l a)), (Area.scan x y a l false);
  reflexivity.
Qed.

Lemma isPointInPolygon_rotate_one (x y : R) (a : Vec) (l : list Vec) :
  Area.isPointInPolygon x y (l ++ [a]) = Area.isPointInPolygon x y (a :: l).
Proof.
unfold Area.isPointInPolygon.
rewrite length_app, Nat.add_comm. cbn [length Nat.add].
destruct (Nat.ltb (S (length l)) 3); [reflexivity|].
apply scan_rotate_one.
Qed.

Lemma isPointInPolygon_rotate (x y : R) (k : nat) :
  forall l,
    Area.isPointInPolygon x y (skipn k l ++ firstn k l)
    = Area.isPointInPolygon x y l.
Proof.
induction k as [|k IH]; intros l.
- now rewrite skipn_O, firstn_O, app_nil_r.
- destruct l as [|a l]; [reflexivity|].
  cbn [skipn firstn].
  destruct (Nat.le_gt_cases k (length l)) as [Hle|Hgt].
  + rewrite <- (isPointInPolygon_rotate_one x y a l).
    rewrite <- (IH (l ++ [a])).
    rewrite skipn_app, firstn_app.
    replace (k - length l)%nat with 0%nat by lia.
    rewrite skipn_O, firstn_O, app_nil_r.
    now rewrite <- app_assoc.
  + rewrite (skipn_all2 l) by lia.
    now rewrite (firstn_all2 l) by lia.
Qed.

Lemma intersect_sym (x y : R) (p q : Vec) :
  Area.intersect x y p q = Area.intersect x y q p.
Proof.
unfold Area.intersect. cbv zeta.
destruct (Req_dec_T (Vector2.y p) (Vector2.y q)) as [E|N];
  destruct (Req_dec_T (Vector2.y q) (Vector2.y p)) as [E'|N'].
- reflexivity.
- exfalso. apply N'. now symmetry.
- exfalso. apply N. now symmetry.
- rewrite xorb_comm. f_equal. f_equal.
  field. split; intro H; [apply N | apply N']; lra.
Qed.

(** The crossings along an open path of vertices. *)
Lemma scan_path_rev (x y : R) (l : list Vec) :
  forall a,
    Area.scan x y a l false
    = Area.scan x y (last l a) (tl (rev (a :: l))) false.
Proof.
induction l as [|p l IH]; intros a.
- reflexivity.
- cbn [Area.scan]. rewrite scan_xor, IH.
  rewrite last_cons_default.
  change (rev (a :: p :: l)) with (rev (p :: l) ++ [a]).
  assert (Hne : exists h t, rev (p :: l) = h :: t).
  { destruct (rev (p :: l)) as [|h t] eqn:E.
    - apply (f_equal (@length _)) in E. rewrite length_rev in E. discriminate.
    - now exists h, t. }
  destruct Hne as (h & t & E). rewrite E. cbn [app tl].
  rewrite scan_app. cbn [Area.scan].
  assert (Hlast : last t (last l p) = p).
  { assert (H : last (rev (p :: l)) (last l p) = p).
    { change (rev (p :: l)) with (rev l ++ [p]). apply last_last. }
    rewrite E in H. rewrite last_cons_default in H.
    destruct t as [|t0 t].
    - assert (Hl : l = []).
      { destruct l as [|q l]; [reflexivity|].
        exfalso. apply (f_equal (@length _)) in E.
        rewrite length_rev in E. discriminate. }
      now rewrite Hl.
    - rewrite last_cons_default in H. now rewrite last_cons_default. }
  rewrite Hlast.
  rewrite (intersect_sym x y a p).
  rewrite xorb_comm.
  destruct (Area.intersect x y p a), (Area.scan x y (last l p) t false);
    reflexivity.
Qed.

Lemma isPointInPolygon_rev (x y : R) (l : list Vec) :
  Area.isPointInPolygon x y (rev l) = Area.isPointInPolygon x y l.
Proof.
unfold Area.isPointInPolygon. rewrite length_rev.
destruct (Nat.ltb (length l) 3); [reflexivity|].
destruct l as [|e l' _] using rev_ind; [reflexivity|].
rewrite rev_app_distr. cbn [rev app].
rewrite <- scan_rotate_one.
rewrite !last_last.
rewrite (scan_path_rev x y (l' ++ [e]) e).
rewrite last_last.
change (rev (e :: l' ++ [e])) with (rev (l' ++ [e]) ++ [e]).
rewrite rev_app_distr. reflexivity.
Qed.

(** X12 ([isPointInPolygon]): whether a point is inside a polygon depends
    neither on the vertex the list of points starts at nor on the
    direction in which it runs round the polygon. *)
Theorem isPointInPolygon_start_and_orientation (x y : R) (polygon : list Vec)
  (k : nat) :
  Area.isPointInPolygon x y (skipn k polygon ++ firstn k polygon)
  = Area.isPointInPolygon x y polygon
  /\ Area.isPointInPolygon x y (rev polygon)
     = Area.isPointInPolygon x y polygon.
Proof.
split.
- apply isPointInPolygon_rotate.
- apply isPointInPolygon_rev.
Qed.

Lemma firstPatch_skip (TERRAIN : Area.table) (x y : R)
  (before rest : list Area.patch) (current : Area.value) :
  (forall q, In q before -> Area.isPointInPatch x y q = false) ->
  Area.firstPatch TERRAIN x y (before ++ rest) current
  = Area.firstPatch TERRAIN x y rest current.
Proof.
induction before as [|q before IH]; intros H.
- reflexivity.
- change ((q :: before) ++ rest) with (q :: (before ++ rest)).
  cbn [Area.firstPatch].
  rewrite (H q (or_introl eq_refl)).
  apply IH. intros q' Hq'. apply H. now right.
Qed.

(** [CONFIG.TERRAIN.ASPHALT] is an own property or undefined: no object
    inherits that name. *)
Lemma lookup_ASPHALT (TERRAIN : Area.table) :
  Area.lookup "ASPHALT"%string TERRAIN
  = option_map Area.Terrain (Area.own "ASPHALT"%string TERRAIN).
Proof.
unfold Area.lookup.
destruct (Area.own "ASPHALT"%string TERRAIN); reflexivity.
Qed.

(** X13 ([getTerrainAt], [isPointInPatch]): the first terrain patch that
    contains the point decides the result, whatever patches follow it and
    whether or not the point is off the track: the terrain that the table
    holds under the patch's type; when the table has no such key but every
    object inherits a member of that name ([toString], [constructor] and
    the like), that member, which is no terrain; and otherwise the asphalt
    of the table. *)
Theorem getTerrainAt_first_patch (TERRAIN : Area.table) (tr : Track.t)
  (before after : list Area.patch) (p : Area.patch) (x y : R)
  (Hbefore : forall q, In q before -> Area.isPointInPatch x y q = false)
  (Hin : Area.isPointInPatch x y p = true) :
  (forall t, Area.own (Area.typeKey p) TERRAIN = Some t ->
     Area.getTerrainAt TERRAIN tr (before ++ p :: after) x y
     = Area.Terrain t)
  /\ (Area.own (Area.typeKey p) TERRAIN = None ->
      Area.isInherited (Area.typeKey p) = true ->
      Area.getTerrainAt TERRAIN tr (before ++ p :: after) x y
      = Area.Member (Area.typeKey p))
  /\ (forall a, Area.own (Area.typeKey p) TERRAIN = None ->
        Area.isInherited (Area.typeKey p) = false ->
        Area.own "ASPHALT"%string TERRAIN = Some a ->
        Area.getTerrainAt TERRAIN tr (before ++ p :: after) x y
        = Area.Terrain a).
Proof.
unfold Area.getTerrainAt. cbv zeta.
rewrite (firstPatch_skip _ _ _ _ _ _ Hbefore).
cbn [Area.firstPatch]. rewrite Hin.
rewrite lookup_ASPHALT.
split; [| split].
- intros t Ht. unfold Area.lookup at 1. now rewrite Ht.
- intros Hnone Hinh. unfold Area.lookup at 1. now rewrite Hnone, Hinh.
- intros a Hnone Hinh Ha. unfold Area.lookup at 1.
  now rewrite Hnone, Hinh, Ha.
Qed.

(** At [(21, 21)], past a far patch: a patch of type ["mud"], which is no
    key of the table (the key is ["MUD"]), gives asphalt, and a patch of
    type ["toString"] gives the method of that name; the square of mud
    that follows is not looked at. *)
Lemma getTerrainAt_first_patch_witness :
  Area.getTerrainAt asphaltAndMud squareTrack
    ([farMud] ++ lowerCaseMud :: [squareOfMud]) 21 21
  = Area.Terrain Area.asphaltLiteral
  /\ Area.getTerrainAt asphaltAndMud squareTrack
       ([farMud] ++ toStringPatch :: [squareOfMud]) 21 21
     = Area.Member "toString"%string.
Proof.
assert (Hfar : forall q, In q [farMud] ->
                 Area.isPointInPatch 21 21 q = false).
{ intros q [Hq | []]; subst q.
  unfold Area.isPointInPatch, farMud; simpl. apply ltb_false; lra. }
split.
- apply (proj2 (proj2 (getTerrainAt_first_patch asphaltAndMud squareTrack
                  [farMud] [squareOfMud] lowerCaseMud 21 21 Hfar
                  ltac:(unfold Area.isPointInPatch, lowerCaseMud; simpl;
                        apply ltb_true; lra))));
    reflexivity.
- apply (proj1 (proj2 (getTerrainAt_first_patch asphaltAndMud squareTrack
                  [farMud] [squareOfMud] toStringPatch 21 21 Hfar
                  ltac:(unfold Area.isPointInPatch, toStringPatch; simpl;
                        apply ltb_true; lra))));
    reflexivity.
Defined.

(** ** Health and race progress of a potato *)

Lemma withHealth_health (p : Potato.t) (h : R) :
  Potato.health (PotatoHealth.withHealth p h) = h.
Proof. reflexivity. Qed.

Lemma healthStep_range (cfg : Config.t) (regen : R) (p : Potato.t)
  (c : healthCall) :
  0 <= regen ->
  0 <= Config.LAP_HEALTH_BONUS cfg ->
  (forall dt, c = RegenerateHealth dt -> 0 <= dt) ->
  0 <= Potato.health p <= 100 ->
  0 <= Potato.health (healthStep cfg regen p c) <= 100.
Proof.
intros Hregen Hbonus Hdt Hp.
destruct c as [amount | dt | now]; cbn [healthStep].
- unfold PotatoHealth.applyDamage.
  destruct (Potato.isShielded p); cbn [negb]; [assumption|].
  rewrite withHealth_health. apply clamp_bounds. lra.
- unfold PotatoHealth.regenerateHealth.
  destruct (JS.ltb (Potato.health p) 100); [|assumption].
  rewrite withHealth_health.
  assert (0 <= dt) by (apply Hdt; reflexivity).
  assert (0 <= regen * dt) by (apply Rmult_le_pos; assumption).
  split.
  + apply Rmin_glb; lra.
  + apply Rmin_r.
- unfold Potato.completeLap. cbv zeta. cbn [Potato.withLap Potato.health].
  split.
  + apply Rmin_glb; lra.
  + apply Rmin_r.
Qed.

(** X14 ([applyDamage], [regenerateHealth], [completeLap]): the health of
    a potato stays between 0 and 100 through every run of the three calls
    that write it, when the regeneration rate, the lap bonus and the frame
    times are not negative. *)
Theorem health_stays_in_range (cfg : Config.t) (regen : R)
  (cs : list healthCall) (p : Potato.t)
  (Hregen : 0 <= regen)
  (Hbonus : 0 <= Config.LAP_HEALTH_BONUS cfg)
  (Hframes : forall dt, In (RegenerateHealth dt) cs -> 0 <= dt)
  (Hp : 0 <= Potato.health p <= 100) :
  0 <= Potato.health (healthRun cfg regen p cs) <= 100.
Proof.
unfold healthRun.
revert p Hp. induction cs as [|c cs IH]; intros p Hp.
- exact Hp.
- cbn [fold_left]. apply IH.
  + intros dt Hin. apply Hframes. now right.
  + apply healthStep_range; try assumption.
    intros dt ->. apply Hframes. now left.
Qed.

Lemma health_stays_in_range_witness :
  0 <= Potato.health
         (healthRun Config.defaults (1 / 2) (Potato.constructor 0 0)
            [ApplyDamage 130; RegenerateHealth 1; CompleteLap 5;
             ApplyDamage (-500)])
    <= 100.
Proof.
apply (health_stays_in_range Config.defaults (1 / 2)
         [ApplyDamage 130; RegenerateHealth 1; CompleteLap 5;
          ApplyDamage (-500)]
         (Potato.constructor 0 0)).
- lra.
- simpl. lra.
- intros dt [H | [H | [H | [H | []]]]]; try discriminate.
  injection H as <-. lra.
- simpl. lra.
Defined.

Lemma clamp_mono (v v' lo hi : R) :
  v <= v' -> Helpers.clamp v lo hi <= Helpers.clamp v' lo hi.
Proof.
intro H. unfold Helpers.clamp.
apply Rle_max_compat_l. apply Rle_min_compat_l. exact H.
Qed.

Lemma mod_nat_next (c n i : nat) :
  (c < n)%nat -> JS.mod_nat (c + 1) n = Some i ->
  (i = c + 1 /\ c + 1 < n)%nat \/ (i = 0 /\ c + 1 = n)%nat.
Proof.
intros Hc H. unfold JS.mod_nat in H.
destruct n as [|n]; [lia|].
assert (H' : ((c + 1) mod S n)%nat = i) by congruence.
clear H. rename H' into H.
destruct (Nat.eq_dec (c + 1) (S n)) as [E|E].
- right. split; [|exact E].
  rewrite <- H, E. apply Nat.Div0.mod_same.
- left. split; [|lia].
  rewrite <- H. apply Nat.mod_small. lia.
Qed.

(** X15 ([getRaceProgress], [updateRaceProgress]): the race progress is a
    value of [[0, 1]], and on a track with [n > 0] checkpoints no
    checkpoint test lowers it, for a potato whose checkpoint index is below
    [n]; the index stays below [n]. *)
Theorem getRaceProgress_never_decreases (cfg : Config.t) (n : nat)
  (totalLaps now : R) (hit : option (nat * bool)) (p : Potato.t)
  (Hn : (0 < n)%nat)
  (Hlaps : 0 < totalLaps)
  (Hcp : (Potato.checkpoint p < n)%nat) :
  0 <= PotatoHealth.getRaceProgress (INR n) totalLaps p <= 1
  /\ PotatoHealth.getRaceProgress (INR n) totalLaps p
     <= PotatoHealth.getRaceProgress (INR n) totalLaps
          (Potato.onCheckpoint cfg n now hit p)
  /\ (Potato.checkpoint (Potato.onCheckpoint cfg n now hit p) < n)%nat.
Proof.
assert (HnR : 0 < INR n) by (apply lt_0_INR; exact Hn).
split; [apply clamp_bounds; lra|].
destruct hit as [[i fl]|]; [|split; [apply Rle_refl | exact Hcp]].
destruct (onCheckpoint_cases cfg n now i fl p)
  as [(_ & ->) | [(Hm & Hi & ->) | (Hm & Hi & Hc & Hl)]].
- split; [apply Rle_refl | exact Hcp].
- destruct (mod_nat_next _ _ _ Hcp Hm) as [(E & Hlt) | (E & _)]; [|lia].
  split; [|cbn [Potato.withProgress Potato.checkpoint]; lia].
  unfold PotatoHealth.getRaceProgress. cbv zeta.
  cbn [Potato.withProgress Potato.checkpoint Potato.lap].
  apply clamp_mono.
  rewrite E, plus_INR. simpl INR.
  apply Rplus_le_compat_l.
  apply Rmult_le_compat_r; [left; apply Rinv_0_lt_compat; exact Hlaps|].
  apply Rmult_le_compat_r; [left; apply Rinv_0_lt_compat; exact HnR|].
  lra.
- split; [|lia].
  unfold PotatoHealth.getRaceProgress. cbv zeta.
  rewrite Hc, Hl. apply clamp_mono.
  rewrite S_INR. simpl INR.
  assert (Hfrac : INR (Potato.checkpoint p) / INR n <= 1).
  { apply (Rmult_le_reg_r (INR n)); [exact HnR|].
    unfold Rdiv. rewrite Rmult_assoc, Rinv_l by lra.
    rewrite Rmult_1_r, Rmult_1_l. apply le_INR. lia. }
  unfold Rdiv in *. rewrite Rmult_0_l, Rmult_0_l, Rplus_0_r.
  assert (Hinv : 0 < / totalLaps) by (apply Rinv_0_lt_compat; exact Hlaps).
  nra.
Qed.

Lemma getRaceProgress_never_decreases_witness :
  PotatoHealth.getRaceProgress (INR 4) 3 (Potato.constructor 0 0)
  <= PotatoHealth.getRaceProgress (INR 4) 3
       (Potato.onCheckpoint Config.defaults 4 7 (Some (1%nat, false))
          (Potato.constructor 0 0)).
Proof.
apply (proj1 (proj2 (getRaceProgress_never_decreases Config.defaults 4 3 7
                       (Some (1%nat, false)) (Potato.constructor 0 0)
                       ltac:(lia) ltac:(lra) ltac:(simpl; lia)))).
Defined.

(** ** Power-ups over time *)

Lemma tick_twice (dt1 dt2 : R) (l : list Potato.powerup) :
  0 <= dt2 ->
  filter (fun q => JS.gtb (Potato.timeRemaining q) 0)
    (map (fun q => Potato.mkPowerup (Potato.type q)
                     (Potato.timeRemaining q - dt2 * 1000))
       (filter (fun q => JS.gtb (Potato.timeRemaining q) 0)
          (map (fun q => Potato.mkPowerup (Potato.type q)
                           (Potato.timeRemaining q - dt1 * 1000)) l)))
  = filter (fun q => JS.gtb (Potato.timeRemaining q) 0)
      (map (fun q => Potato.mkPowerup (Potato.type q)
                       (Potato.timeRemaining q - (dt1 + dt2) * 1000)) l).
Proof.
intro Hdt. induction l as [|q l IH]; [reflexivity|].
cbn [map filter Potato.timeRemaining Potato.type].
replace (Potato.timeRemaining q - (dt1 + dt2) * 1000)
  with (Potato.timeRemaining q - dt1 * 1000 - dt2 * 1000) by ring.
destruct (JS.gtb (Potato.timeRemaining q - dt1 * 1000) 0) eqn:E1.
- cbn [map filter Potato.timeRemaining Potato.type].
  destruct (JS.gtb (Potato.timeRemaining q - dt1 * 1000 - dt2 * 1000) 0);
    rewrite IH; reflexivity.
- apply gtb_false in E1.
  assert (E2 : JS.gtb (Potato.timeRemaining q - dt1 * 1000 - dt2 * 1000) 0
               = false).
  { apply gtb_false. nra. }
  rewrite E2. exact IH.
Qed.

(** X16 ([updatePowerups]): two updates in a row are one update over the
    sum of the two frame times, when the second frame time is not
    negative. *)
Theorem updatePowerups_adds_up (cfg : Config.t) (dt1 dt2 : R) (p : Potato.t)
  (Hdt : 0 <= dt2) :
  Potato.updatePowerups cfg dt2 (Potato.updatePowerups cfg dt1 p)
  = Potato.updatePowerups cfg (dt1 + dt2) p.
Proof.
unfold Potato.updatePowerups at 1. cbv zeta.
rewrite updatePowerups_activePowerups.
rewrite (tick_twice dt1 dt2 (Potato.activePowerups p) Hdt).
unfold Potato.updatePowerups. cbv zeta.
destruct p. cbn.
repeat match goal with
       | |- context [if ?b then _ else _] => destruct b
       end; reflexivity.
Qed.

Lemma updatePowerups_adds_up_witness :
  Potato.updatePowerups Config.defaults 2
    (Potato.updatePowerups Config.defaults 1
       (fst (Potato.addPowerup Config.defaults "shield"
               (Potato.constructor 0 0))))
  = Potato.updatePowerups Config.defaults (1 + 2)
      (fst (Potato.addPowerup Config.defaults "shield"
              (Potato.constructor 0 0))).
Proof.
apply (updatePowerups_adds_up Config.defaults 1 2). lra.
Defined.

Lemma updatePowerups_isShielded (cfg : Config.t) (dt : R) (p : Potato.t) :
  Potato.isShielded (Potato.updatePowerups cfg dt p)
  = Potato.hasType (Config.id (Config.SHIELD cfg))
      (Potato.activePowerups (Potato.updatePowerups cfg dt p)).
Proof.
rewrite updatePowerups_activePowerups.
unfold Potato.updatePowerups. cbv zeta.
destruct (Potato.hasType (Config.id (Config.SIZE_REDUCTION cfg)) _);
  reflexivity.
Qed.

Lemma updatePowerups_health (cfg : Config.t) (dt : R) (p : Potato.t) :
  Potato.health (Potato.updatePowerups cfg dt p) = Potato.health p.
Proof.
unfold Potato.updatePowerups. cbv zeta.
destruct (Potato.hasType (Config.id (Config.SIZE_REDUCTION cfg)) _);
  reflexivity.
Qed.

Lemma addPowerup_health (cfg : Config.t) (ty : string) (p : Potato.t) :
  Potato.health (fst (Potato.addPowerup cfg ty p)) = Potato.health p.
Proof.
unfold Potato.addPowerup. cbv zeta.
destruct (String.eqb ty _); reflexivity.
Qed.

(** X17 ([addPowerup], [updatePowerups], [applyDamage]): for a potato
    with one entry per kind.  After a shield was collected and
    [updatePowerups(dt)] has run with [dt * 1000] below the shield's
    duration, the potato is shielded and damage leaves it unchanged.  With
    [dt * 1000] at or above the duration the potato is not shielded and
    damage lowers its health, not below 0. *)
Theorem shield_lasts_its_duration (cfg : Config.t) (p : Potato.t)
  (dt amount : R) (Hnd : NoDup (kinds p)) :
  let shield := Config.id (Config.SHIELD cfg) in
  let collected := fst (Potato.addPowerup cfg shield p) in
  let later := Potato.updatePowerups cfg dt collected in
  (dt * 1000 < Potato.getPowerupDuration cfg shield ->
   Potato.isShielded later = true
   /\ PotatoHealth.applyDamage amount later = later)
  /\ (Potato.getPowerupDuration cfg shield <= dt * 1000 ->
      Potato.isShielded later = false
      /\ Potato.health (PotatoHealth.applyDamage amount later)
         = Helpers.clamp (Potato.health p - amount) 0 100).
Proof.
intros shield collected later.
destruct (addPowerup_entry cfg shield p Hnd) as ((q & Hq & Hty) & Hall).
fold collected in Hq, Hall.
assert (Hsh : Potato.isShielded later
              = Potato.hasType shield (Potato.activePowerups later)).
{ apply updatePowerups_isShielded. }
assert (Hl : Potato.activePowerups later
             = filter (fun q => JS.gtb (Potato.timeRemaining q) 0)
                 (map (fun q => Potato.mkPowerup (Potato.type q)
                                  (Potato.timeRemaining q - dt * 1000))
                    (Potato.activePowerups collected))).
{ apply updatePowerups_activePowerups. }
split; intro Hdt.
- assert (Hs : Potato.isShielded later = true).
  { rewrite Hsh. apply hasType_true.
    exists (Potato.mkPowerup (Potato.type q)
                             (Potato.timeRemaining q - dt * 1000)).
    split; [|exact Hty].
    rewrite Hl. apply filter_In. split.
    - apply in_map_iff. exists q. split; [reflexivity | exact Hq].
    - cbn [Potato.timeRemaining]. apply gtb_true.
      rewrite (Hall q Hq Hty). lra. }
  split; [exact Hs|].
  unfold PotatoHealth.applyDamage. now rewrite Hs.
- assert (Hs : Potato.isShielded later = false).
  { rewrite Hsh.
    destruct (Potato.hasType shield (Potato.activePowerups later)) eqn:E;
      [|reflexivity].
    exfalso. apply hasType_true in E. destruct E as (q' & Hq' & Hty').
    rewrite Hl in Hq'. apply filter_In in Hq'. destruct Hq' as (Hin & Hpos).
    apply in_map_iff in Hin. destruct Hin as (q0 & <- & Hq0).
    cbn [Potato.timeRemaining Potato.type] in Hpos, Hty'.
    apply gtb_true in Hpos. rewrite (Hall q0 Hq0 Hty') in Hpos. lra. }
  split; [exact Hs|].
  unfold PotatoHealth.applyDamage. rewrite Hs. cbn [negb].
  rewrite withHealth_health.
  unfold later, collected.
  now rewrite updatePowerups_health, addPowerup_health.
Qed.

Lemma shield_lasts_its_duration_witness :
  PotatoHealth.applyDamage 30
    (Potato.updatePowerups Config.defaults 4
       (fst (Potato.addPowerup Config.defaults "shield"
               (Potato.constructor 0 0))))
  = Potato.updatePowerups Config.defaults 4
      (fst (Potato.addPowerup Config.defaults "shield"
              (Potato.constructor 0 0))).
Proof.
apply (proj1 (shield_lasts_its_duration Config.defaults
                (Potato.constructor 0 0) 4 30 ltac:(constructor))).
change (Potato.getPowerupDuration Config.defaults
          (Config.id (Config.SHIELD Config.defaults))) with 5000.
lra.
Defined.

Lemma removeAt_refreshed (i : nat) (d : R) (l : list Potato.powerup) :
  Potato.removeAt i (Potato.setTimeRemaining i d l) = Potato.removeAt i l.
Proof.
revert i. induction l as [|q l IH]; intros [|i]; simpl; try reflexivity.
now rewrite IH.
Qed.

Lemma removeAt_found (ty : string) (l : list Potato.powerup) :
  forall i, Potato.findIndex ty l = Some i ->
            NoDup (map Potato.type l) ->
            ~ In ty (map Potato.type (Potato.removeAt i l)).
Proof.
induction l as [|q l IH]; intros i Hi Hnd; simpl in Hi; [discriminate|].
inversion Hnd as [|? ? Hnotin Hnd']; subst.
destruct (String.eqb (Potato.type q) ty) eqn:E.
- injection Hi as <-. simpl. apply String.eqb_eq in E. now rewrite <- E.
- destruct (Potato.findIndex ty l) as [j|] eqn:Ej; [|discriminate].
  injection Hi as <-. simpl. intros [H | H].
  + apply String.eqb_neq in E. contradiction.
  + exact (IH j eq_refl Hnd' H).
Qed.

Lemma removeAt_others (ty : string) (l : list Potato.powerup) :
  forall i, Potato.findIndex ty l = Some i ->
            forall q, Potato.type q <> ty ->
                      (In q (Potato.removeAt i l) <-> In q l).
Proof.
induction l as [|q0 l IH]; intros i Hi q Hty; simpl in Hi; [discriminate|].
destruct (String.eqb (Potato.type q0) ty) eqn:E.
- injection Hi as <-. simpl. apply String.eqb_eq in E.
  split; [auto|]. intros [H | H]; [|exact H]. subst. contradiction.
- destruct (Potato.findIndex ty l) as [j|] eqn:Ej; [|discriminate].
  injection Hi as <-. simpl. rewrite (IH j eq_refl q Hty). tauto.
Qed.

Lemma sin_cos_square (a : R) : cos a * cos a + sin a * sin a = 1.
Proof.
pose proof (sin2_cos2 a) as H. unfold Rsqr in H. lra.
Qed.

(** X18 ([useActivePowerup], [addPowerup]): a potato that holds an oil
    slick drops it one potato width behind itself (at distance [width]
    from its position, with radius 40 and the configured duration) and no
    longer holds an oil slick afterwards, while its other power-ups are
    kept; a potato without an oil slick is left unchanged and [null] is
    returned. *)
Theorem useActivePowerup_drops_slick (cfg : Config.t) (p : Potato.t)
  (Hnd : NoDup (kinds p)) (Hw : 0 <= Potato.width p) :
  let oil := Config.id (Config.OIL_SLICK cfg) in
  (In oil (kinds p) ->
   exists s,
     snd (Potato.useActivePowerup cfg p) = Some s
     /\ dist (Potato.slickPosition s) (Potato.position p) = Potato.width p
     /\ Potato.slickPosition s
        = Vector2.sub (Potato.position p)
            (Vector2.scale (Potato.width p)
               (Sprite.getDirection (Potato.rotation p)))
     /\ Potato.slickRadius s = 40
     /\ Potato.slickDuration s = Config.duration (Config.OIL_SLICK cfg)
     /\ ~ In oil (kinds (fst (Potato.useActivePowerup cfg p)))
     /\ forall q, Potato.type q <> oil ->
                  (In q (Potato.activePowerups
                           (fst (Potato.useActivePowerup cfg p)))
                   <-> In q (Potato.activePowerups p)))
  /\ (~ In oil (kinds p) -> Potato.useActivePowerup cfg p = (p, None)).
Proof.
intro oil. split.
- intro Hin. destruct (findIndex_some _ _ Hin) as (i & Hi).
  fold oil in Hi.
  assert (Hlist : Potato.activePowerups (fst (Potato.useActivePowerup cfg p))
                  = Potato.removeAt i (Potato.activePowerups p)).
  { unfold Potato.useActivePowerup. cbv zeta. fold oil. rewrite Hi.
    pose proof (addPowerup_activePowerups cfg oil p) as Hadd.
    rewrite Hi in Hadd.
    destruct (Potato.addPowerup cfg oil p) as [p' r]. cbn [fst] in *.
    cbn [Potato.withPowerups Potato.activePowerups].
    rewrite Hadd. apply removeAt_refreshed. }
  eexists. split; [|split; [|split; [|split; [|split; [|split]]]]].
  + unfold Potato.useActivePowerup. cbv zeta. fold oil. rewrite Hi.
    unfold Potato.addPowerup. cbv zeta. fold oil.
    rewrite String.eqb_refl. cbn [snd]. reflexivity.
  + cbn [Potato.slickPosition]. unfold dist.
    apply norm_of; [exact Hw|]. unfold Vector2.sub, Sprite.getDirection.
    cbn [Vector2.x Vector2.y].
    pose proof (sin_cos_square (Potato.rotation p)) as Hsc.
    set (c := cos (Potato.rotation p)) in *.
    set (s := sin (Potato.rotation p)) in *.
    set (w := Potato.width p).
    replace ((Vector2.x (Potato.position p) - c * w
              - Vector2.x (Potato.position p))
             * (Vector2.x (Potato.position p) - c * w
                - Vector2.x (Potato.position p))
             + (Vector2.y (Potato.position p) - s * w
                - Vector2.y (Potato.position p))
               * (Vector2.y (Potato.position p) - s * w
                  - Vector2.y (Potato.position p)))
      with ((c * c + s * s) * (w * w)) by ring.
    rewrite Hsc. ring.
  + reflexivity.
  + reflexivity.
  + reflexivity.
  + unfold kinds. rewrite Hlist. exact (removeAt_found oil _ i Hi Hnd).
  + intros q Hq. rewrite Hlist. exact (removeAt_others oil _ i Hi q Hq).
- intro Hnot. unfold Potato.useActivePowerup. cbv zeta. fold oil.
  destruct (Potato.findIndex oil (Potato.activePowerups p)) as [i|] eqn:E;
    [|reflexivity].
  exfalso. apply Hnot. exact (findIndex_found _ _ _ E).
Qed.

(** A fresh potato that has collected an oil slick drops it 40 units away,
    with radius 40 and duration 5000, and holds none afterwards; a fresh
    potato without one is left as it is. *)
Lemma useActivePowerup_drops_slick_witness :
  (exists s,
     snd (Potato.useActivePowerup Config.defaults holdingSlick) = Some s
     /\ dist (Potato.slickPosition s) (Potato.position holdingSlick) = 40
     /\ Potato.slickRadius s = 40
     /\ Potato.slickDuration s = 5000
     /\ ~ In "oil"%string
            (kinds (fst (Potato.useActivePowerup Config.defaults
                           holdingSlick))))
  /\ Potato.useActivePowerup Config.defaults (Potato.constructor 0 0)
     = (Potato.constructor 0 0, None).
Proof.
split.
- assert (Hnd : NoDup (kinds holdingSlick))
    by (repeat constructor; simpl; tauto).
  assert (Hw : 0 <= Potato.width holdingSlick) by (simpl; lra).
  assert (Hin : In "oil"%string (kinds holdingSlick)) by (simpl; tauto).
  destruct (proj1 (useActivePowerup_drops_slick Config.defaults holdingSlick
                     Hnd Hw) Hin)
    as (s & Hs & Hd & _ & Hr & Ht & Hgone & _).
  exists s. repeat split; assumption.
- apply (proj2 (useActivePowerup_drops_slick Config.defaults
                  (Potato.constructor 0 0)
                  ltac:(constructor) ltac:(simpl; lra))).
  simpl. tauto.
Defined.

(** ** Collecting a power-up and its respawn *)

Lemma frames_inactive (dts : list R) :
  forall u : PowerUp.t,
    PowerUp.active u = false ->
    (forall k, (k <= length dts)%nat ->
               PowerUp.respawnTimer u + elapsed (firstn k dts)
               < PowerUp.respawnTime u) ->
    PowerUp.active (frames dts u) = false
    /\ PowerUp.respawnTimer (frames dts u)
       = PowerUp.respawnTimer u + elapsed dts
    /\ PowerUp.respawnTime (frames dts u) = PowerUp.respawnTime u
    /\ PowerUp.type (frames dts u) = PowerUp.type u.
Proof.
induction dts as [|dt dts IH]; intros u Hu Hlt.
- cbn. repeat split; try assumption. unfold elapsed. simpl. ring.
- unfold frames. cbn [fold_left]. fold (frames dts (PowerUp.update dt u)).
  assert (Hstep : PowerUp.update dt u
                  = PowerUp.mk false (PowerUp.type u) (PowerUp.respawnTime u)
                      (PowerUp.respawnTimer u + dt * 1000)
                      (PowerUp.effectDuration u) (PowerUp.effectStrength u)).
  { unfold PowerUp.update. rewrite Hu. cbn [negb]. cbv zeta.
    assert (E : JS.geb (PowerUp.respawnTimer u + dt * 1000)
                       (PowerUp.respawnTime u) = false).
    { apply geb_false. specialize (Hlt 1%nat ltac:(simpl; lia)).
      cbn in Hlt. lra. }
    now rewrite E. }
  rewrite Hstep.
  destruct (IH (PowerUp.mk false (PowerUp.type u) (PowerUp.respawnTime u)
                  (PowerUp.respawnTimer u + dt * 1000)
                  (PowerUp.effectDuration u) (PowerUp.effectStrength u)))
    as (Ha & Ht & Hr & Hty).
  + reflexivity.
  + intros k Hk. cbn [PowerUp.respawnTimer PowerUp.respawnTime].
    specialize (Hlt (S k) ltac:(simpl; lia)).
    cbn [firstn] in Hlt. unfold elapsed in *. cbn [fold_right] in Hlt. lra.
  + cbn [PowerUp.respawnTimer PowerUp.respawnTime PowerUp.type] in *.
    repeat split; try assumption.
    rewrite Ht. unfold elapsed. cbn [fold_right]. ring.
Qed.

(** X19 ([PowerUp.collect], [PowerUp.update]): a collected power-up gives
    its kind to the potato once.  While the frames since the collection
    add up to less than [respawnTime] milliseconds it stays inactive, and
    a further [collect] returns [null] and leaves the potato alone; the
    frame at which the sum reaches [respawnTime] makes it active again. *)
Theorem collect_then_respawn (cfg : Config.t) (u : PowerUp.t)
  (potato other : Potato.t) (dts : list R) (dt : R)
  (Hactive : PowerUp.active u = true)
  (Hwait : forall k, (k <= length dts)%nat ->
                     elapsed (firstn k dts) < PowerUp.respawnTime u) :
  let collected := fst (fst (PowerUp.collect cfg u potato)) in
  snd (fst (PowerUp.collect cfg u potato))
  = fst (Potato.addPowerup cfg (PowerUp.type u) potato)
  /\ PowerUp.active (frames dts collected) = false
  /\ PowerUp.collect cfg (frames dts collected) other
     = (frames dts collected, other, None)
  /\ (PowerUp.respawnTime u <= elapsed dts + dt * 1000 ->
      PowerUp.active (PowerUp.update dt (frames dts collected)) = true
      /\ PowerUp.respawnTimer (PowerUp.update dt (frames dts collected)) = 0).
Proof.
intro collected.
assert (Hc : collected
             = PowerUp.mk false (PowerUp.type u) (PowerUp.respawnTime u) 0
                 (PowerUp.effectDuration u) (PowerUp.effectStrength u)).
{ unfold collected, PowerUp.collect. now rewrite Hactive. }
destruct (frames_inactive dts collected) as (Ha & Ht & Hr & _).
- now rewrite Hc.
- intros k Hk. rewrite Hc. cbn [PowerUp.respawnTimer PowerUp.respawnTime].
  specialize (Hwait k Hk). lra.
- split; [unfold PowerUp.collect; now rewrite Hactive|].
  split; [exact Ha|].
  split; [unfold PowerUp.collect; now rewrite Ha|].
  intro Hdt.
  assert (E : JS.geb (PowerUp.respawnTimer (frames dts collected) + dt * 1000)
                     (PowerUp.respawnTime (frames dts collected)) = true).
  { apply geb_true. rewrite Ht, Hr, Hc.
    cbn [PowerUp.respawnTimer PowerUp.respawnTime]. lra. }
  unfold PowerUp.update. rewrite Ha. cbn [negb]. cbv zeta. rewrite E.
  split; reflexivity.
Qed.

Lemma collect_then_respawn_witness :
  PowerUp.active
    (frames [4; 5] (fst (fst (PowerUp.collect Config.defaults
                                (PowerUp.constructor None "boost")
                                (Potato.constructor 0 0)))))
  = false.
Proof.
apply (proj1 (proj2 (collect_then_respawn Config.defaults
                       (PowerUp.constructor None "boost")
                       (Potato.constructor 0 0) (Potato.constructor 0 0)
                       [4; 5] 1 eq_refl
                       ltac:(intros [|[|[|k]]] Hk; cbn; try lra;
                             simpl in Hk; lia)))).
Defined.

(** ** The speed limit of a potato *)

Lemma hasType_absent (ty : string) (l : list Potato.powerup) :
  ~ In ty (map Potato.type l) -> Potato.hasType ty l = false.
Proof.
intro H. destruct (Potato.hasType ty l) eqn:E; [|reflexivity].
exfalso. apply H. apply hasType_true in E. destruct E as (q & Hq & <-).
now apply in_map.
Qed.

Lemma boosted_bounds (cfg : Config.t) (l : list Potato.powerup) :
  NoDup (map Potato.type l) ->
  forall s, 0 <= s ->
    s <= fold_left (PotatoMotion.boosted cfg) l s
    /\ fold_left (PotatoMotion.boosted cfg) l s
       <= s
          * (if Potato.hasType (Config.id (Config.SPEED_BOOST cfg)) l
             then 13 / 10 else 1)
          * (if Potato.hasType (Config.id (Config.SIZE_REDUCTION cfg)) l
             then 11 / 10 else 1).
Proof.
induction l as [|q l IH]; intros Hnd s Hs.
- cbn. split; lra.
- inversion Hnd as [|? ? Hnotin Hnd']; subst.
  cbn [fold_left]. unfold Potato.hasType. cbn [existsb].
  fold (Potato.hasType (Config.id (Config.SPEED_BOOST cfg)) l).
  fold (Potato.hasType (Config.id (Config.SIZE_REDUCTION cfg)) l).
  unfold PotatoMotion.boosted at 2 4.
  destruct (String.eqb (Potato.type q) (Config.id (Config.SPEED_BOOST cfg)))
    eqn:E1.
  + assert (Hb : Potato.hasType (Config.id (Config.SPEED_BOOST cfg)) l
                 = false).
    { apply hasType_absent. apply String.eqb_eq in E1. now rewrite <- E1. }
    destruct (IH Hnd' (s * (13 / 10)) ltac:(nra)) as [H1 H2].
    rewrite Hb in H2. cbn [orb].
    destruct (String.eqb (Potato.type q)
                         (Config.id (Config.SIZE_REDUCTION cfg)));
      destruct (Potato.hasType (Config.id (Config.SIZE_REDUCTION cfg)) l);
      cbn [orb]; split; nra.
  + destruct (String.eqb (Potato.type q)
                         (Config.id (Config.SIZE_REDUCTION cfg))) eqn:E2.
    * assert (Hb : Potato.hasType (Config.id (Config.SIZE_REDUCTION cfg)) l
                   = false).
      { apply hasType_absent. apply String.eqb_eq in E2. now rewrite <- E2. }
      destruct (IH Hnd' (s * (11 / 10)) ltac:(nra)) as [H1 H2].
      rewrite Hb in H2. cbn [orb].
      destruct (Potato.hasType (Config.id (Config.SPEED_BOOST cfg)) l);
        split; nra.
    * destruct (IH Hnd' s Hs) as [H1 H2]. cbn [orb].
      split; assumption.
Qed.

(** X20 ([Potato.limitSpeed]): for a potato with one entry per kind of
    power-up and a top speed that is not negative, in exact arithmetic:
    the effective top speed lies between 0.7 and 1.43 times the top speed;
    a potato faster than that leaves [limitSpeed] with exactly the
    effective top speed, its velocity scaled and nothing else changed; a
    potato that is not faster is left as it is. *)
Theorem Potato_limitSpeed_caps (cfg : Config.t) (r : PotatoMotion.t)
  (Hnd : NoDup (kinds (PotatoMotion.potato r)))
  (Htop : 0 <= PotatoMotion.topSpeed r) :
  7 / 10 * PotatoMotion.topSpeed r <= PotatoMotion.effectiveTopSpeed cfg r
  /\ PotatoMotion.effectiveTopSpeed cfg r
     <= 143 / 100 * PotatoMotion.topSpeed r
  /\ (PotatoMotion.effectiveTopSpeed cfg r < speed r ->
      speed (PotatoMotion.limitSpeed cfg r)
      = PotatoMotion.effectiveTopSpeed cfg r
      /\ PotatoMotion.limitSpeed cfg r
         = PotatoMotion.withVelocity r
             (Vector2.scale (PotatoMotion.effectiveTopSpeed cfg r / speed r)
                            (PotatoMotion.velocity r)))
  /\ (speed r <= PotatoMotion.effectiveTopSpeed cfg r ->
      PotatoMotion.limitSpeed cfg r = r).
Proof.
assert (Hb := boosted_bounds cfg _ Hnd _ Htop).
assert (Heff : 7 / 10 * PotatoMotion.topSpeed r
               <= PotatoMotion.effectiveTopSpeed cfg r
               <= 143 / 100 * PotatoMotion.topSpeed r).
{ unfold PotatoMotion.effectiveTopSpeed. cbv zeta.
  set (s := fold_left _ _ _) in *.
  assert (Hs : PotatoMotion.topSpeed r <= s
               <= 143 / 100 * PotatoMotion.topSpeed r).
  { destruct Hb as [H1 H2]. split; [exact H1|].
    destruct (Potato.hasType (Config.id (Config.SPEED_BOOST cfg)) _);
      destruct (Potato.hasType (Config.id (Config.SIZE_REDUCTION cfg)) _);
      nra. }
  destruct (PotatoMotion.currentTerrain r) as [terrain|]; [|lra].
  destruct (String.eqb (Area.id terrain) "mud"); lra. }
split; [apply Heff|]. split; [apply Heff|].
assert (Hspeed : Physics.getSpeed (PotatoMotion.asObject r) = speed r).
{ rewrite getSpeed_norm. reflexivity. }
split.
- intro Hfast.
  assert (Hover : PotatoMotion.effectiveTopSpeed cfg r
                  < Physics.getSpeed (PotatoMotion.asObject r))
    by (rewrite Hspeed; exact Hfast).
  split.
  + unfold speed, PotatoMotion.limitSpeed.
    cbn [PotatoMotion.withVelocity PotatoMotion.velocity].
    rewrite <- getSpeed_norm.
    apply limitSpeed_speed; [lra | exact Hover].
  + unfold PotatoMotion.limitSpeed.
    rewrite (limitSpeed_over _ _ Hover), Hspeed. reflexivity.
- intro Hslow. unfold PotatoMotion.limitSpeed.
  rewrite limitSpeed_under by (rewrite Hspeed; exact Hslow).
  destruct r. reflexivity.
Qed.

Lemma Potato_limitSpeed_caps_witness :
  speed (PotatoMotion.limitSpeed Config.defaults
           (racer 0 0 (Vector2.mk 6 8)))
  = PotatoMotion.effectiveTopSpeed Config.defaults
      (racer 0 0 (Vector2.mk 6 8)).
Proof.
apply (proj1 (proj2 (proj2 (Potato_limitSpeed_caps Config.defaults
                              (racer 0 0 (Vector2.mk 6 8))
                              ltac:(constructor) ltac:(simpl; lra))))).
unfold speed. cbn.
rewrite (norm_of 6 8 10) by lra. lra.
Defined.

(** ** A potato against the track boundary *)

Lemma checkBoundaryCollision_hit (tr : Track.t) (p : Vec) (r : R) :
  colliding (Track.checkBoundaryCollision tr p r) = true ->
  exists s, In s (boundarySegments tr)
            /\ Track.checkBoundaryCollision tr p r = segmentHit p r s
            /\ colliding (segmentHit p r s) = true.
Proof.
intro Hc. unfold Track.checkBoundaryCollision in *. cbv zeta in *.
fold (boundarySegments tr) in *.
destruct (fold_keepDeeper p r (boundarySegments tr) Track.noBoundaryCollision)
  as ([Hsame | Hex] & _).
- intro H. discriminate H.
- rewrite Hsame in Hc. discriminate Hc.
- exact Hex.
Qed.

Lemma segmentHit_data (p : Vec) (r : R) (s : Track.segment) :
  colliding (segmentHit p r s) = true ->
  segmentDistance p s < r
  /\ overlap (segmentHit p r s) = Some (r - segmentDistance p s)
  /\ normal (segmentHit p r s)
     = Some (Vector2.mk
               ((Vector2.x p
                 - Vector2.x (Track.closestPointOn p (Track.start s)
                                                   (Track.end_ s)))
                / segmentDistance p s)
               ((Vector2.y p
                 - Vector2.y (Track.closestPointOn p (Track.start s)
                                                   (Track.end_ s)))
                / segmentDistance p s)).
Proof.
intro Hc. unfold segmentHit, segmentDistance in *.
assert (Hd := Hc).
rewrite lineCircleCollision_colliding in Hd. apply ltb_true in Hd.
split; [exact Hd|].
split; [apply lineCircleCollision_overlap; exact Hc|].
unfold Track.lineCircleCollision in *.
destruct (JS.geb _ r); [discriminate|]. reflexivity.
Qed.

Lemma norm_le_scaled (a b c d k : R) :
  0 <= k ->
  a * a + b * b <= k * k * (c * c + d * d) ->
  Vector2.norm (Vector2.mk a b) <= k * Vector2.norm (Vector2.mk c d).
Proof.
intros Hk H. unfold Vector2.norm. cbn [Vector2.x Vector2.y].
rewrite <- (sqrt_of_square k Hk) at 1.
rewrite <- sqrt_mult_alt by (apply square_nonneg).
apply sqrt_le_1_alt. exact H.
Qed.

Lemma segmentHit_unit (p : Vec) (s : Track.segment) :
  0 < segmentDistance p s ->
  Vector2.norm
    (Vector2.mk
       ((Vector2.x p
         - Vector2.x (Track.closestPointOn p (Track.start s) (Track.end_ s)))
        / segmentDistance p s)
       ((Vector2.y p
         - Vector2.y (Track.closestPointOn p (Track.start s) (Track.end_ s)))
        / segmentDistance p s)) = 1.
Proof.
intro Hpos. unfold segmentDistance, Track.pointToLineDistance in *.
cbv zeta in *. apply unit_normal. exact Hpos.
Qed.

(** X21 ([checkTrackBoundaries]): for a bounce factor between 0 and 1 and
    a potato whose centre is on no boundary segment, in exact arithmetic.
    Without a collision only the collision flag is cleared.  With one, the
    normal is a unit vector; a potato moving toward the boundary keeps 0.8
    of its velocity along the boundary and [0.8 * (1 - 2 * BOUNCE_FACTOR)]
    of its velocity along the normal, so that its speed drops to at most
    0.8 of what it was, it is flagged as colliding and it loses 5 health
    (not below 0) unless it is shielded; a potato not moving toward the
    boundary keeps its velocity and its health. *)
Theorem checkTrackBoundaries_bounce (BOUNCE_FACTOR : R) (track : Track.t)
  (r : PotatoMotion.t)
  (HB : 0 <= BOUNCE_FACTOR <= 1)
  (Hoff : forall s, In s (boundarySegments track) ->
                    0 < segmentDistance (PotatoMotion.position r) s) :
  let r' := PotatoMotion.checkTrackBoundaries BOUNCE_FACTOR track r in
  let c := Track.checkBoundaryCollision
             track (PotatoMotion.position r)
             (Potato.colliderRadius (PotatoMotion.potato r)) in
  (colliding c = false -> r' = PotatoMotion.withColliding r false)
  /\ (colliding c = true ->
      exists n,
        normal c = Some n
        /\ Vector2.norm n = 1
        /\ (Vector2.dot (PotatoMotion.velocity r) n < 0 ->
            Vector2.dot (PotatoMotion.velocity r') n
            = 8 / 10 * (1 - 2 * BOUNCE_FACTOR)
              * Vector2.dot (PotatoMotion.velocity r) n
            /\ Vector2.dot (PotatoMotion.velocity r') (perp n)
               = 8 / 10 * Vector2.dot (PotatoMotion.velocity r) (perp n)
            /\ speed r' <= 8 / 10 * speed r
            /\ PotatoMotion.isColliding r' = Some true
            /\ Potato.health (PotatoMotion.potato r')
               = if Potato.isShielded (PotatoMotion.potato r)
                 then Potato.health (PotatoMotion.potato r)
                 else Helpers.clamp
                        (Potato.health (PotatoMotion.potato r) - 5) 0 100)
        /\ (0 <= Vector2.dot (PotatoMotion.velocity r) n ->
            PotatoMotion.velocity r' = PotatoMotion.velocity r
            /\ Potato.health (PotatoMotion.potato r')
               = Potato.health (PotatoMotion.potato r)
            /\ PotatoMotion.isColliding r' = PotatoMotion.isColliding r)).
Proof.
intros r' c. split.
- intro Hc. unfold r', PotatoMotion.checkTrackBoundaries. cbv zeta.
  fold c. now rewrite Hc.
- intro Hc.
  destruct (checkBoundaryCollision_hit _ _ _ Hc) as (s & Hin & Heq & Hcs).
  destruct (segmentHit_data _ _ _ Hcs) as (Hlt & Hov & Hn).
  fold c in Heq. rewrite <- Heq in Hov, Hn.
  eexists. split; [exact Hn|].
  split; [apply segmentHit_unit; apply Hoff; exact Hin|].
  set (n := Vector2.mk _ _) in *.
  assert (Hunit : Vector2.x n * Vector2.x n + Vector2.y n * Vector2.y n = 1).
  { apply unit_square. unfold n. apply segmentHit_unit. apply Hoff.
    exact Hin. }
  clearbody n.
  assert (Hr' : r' = PotatoMotion.checkTrackBoundaries BOUNCE_FACTOR track r)
    by reflexivity.
  unfold PotatoMotion.checkTrackBoundaries in Hr'. cbv zeta in Hr'.
  fold c in Hr'. rewrite Hc, Hn, Hov in Hr'.
  unfold Vector2.dot.
  split.
  + intro Hdot. apply ltb_true in Hdot. rewrite Hdot in Hr'.
    apply ltb_true in Hdot.
    set (d := Vector2.x (PotatoMotion.velocity r) * Vector2.x n
              + Vector2.y (PotatoMotion.velocity r) * Vector2.y n) in *.
    assert (Hv : PotatoMotion.velocity r'
                 = Vector2.mk
                     ((Vector2.x (PotatoMotion.velocity r)
                       - 2 * d * Vector2.x n * BOUNCE_FACTOR) * (8 / 10))
                     ((Vector2.y (PotatoMotion.velocity r)
                       - 2 * d * Vector2.y n * BOUNCE_FACTOR) * (8 / 10))).
    { rewrite Hr'. cbn [PotatoMotion.withColliding PotatoMotion.withVelocity
                        PotatoMotion.withPotato PotatoMotion.potato
                        PotatoMotion.setPosition Potato.isShielded].
      destruct (Potato.isShielded (PotatoMotion.potato r)); reflexivity. }
    assert (Hcol : PotatoMotion.isColliding r' = Some true).
    { rewrite Hr'. cbn [PotatoMotion.withColliding PotatoMotion.withVelocity
                        PotatoMotion.withPotato PotatoMotion.potato
                        PotatoMotion.setPosition Potato.isShielded].
      destruct (Potato.isShielded (PotatoMotion.potato r)); reflexivity. }
    assert (Hh : Potato.health (PotatoMotion.potato r')
                 = if Potato.isShielded (PotatoMotion.potato r)
                   then Potato.health (PotatoMotion.potato r)
                   else Helpers.clamp
                          (Potato.health (PotatoMotion.potato r) - 5) 0 100).
    { rewrite Hr'. cbn [PotatoMotion.withColliding PotatoMotion.withVelocity
                        PotatoMotion.withPotato PotatoMotion.potato
                        PotatoMotion.setPosition Potato.isShielded].
      destruct (Potato.isShielded (PotatoMotion.potato r)) eqn:Hs;
        cbn [negb].
      - reflexivity.
      - unfold PotatoHealth.applyDamage.
        cbn [PotatoMotion.setPosition Potato.isShielded]. rewrite Hs.
        reflexivity. }
    rewrite Hv. cbn [Vector2.x Vector2.y perp].
    split.
    { replace ((Vector2.x (PotatoMotion.velocity r)
                - 2 * d * Vector2.x n * BOUNCE_FACTOR) * (8 / 10)
               * Vector2.x n
               + (Vector2.y (PotatoMotion.velocity r)
                  - 2 * d * Vector2.y n * BOUNCE_FACTOR) * (8 / 10)
                 * Vector2.y n)
        with (8 / 10
              * (d - 2 * d * BOUNCE_FACTOR
                     * (Vector2.x n * Vector2.x n + Vector2.y n * Vector2.y n)))
        by (unfold d; ring).
      rewrite Hunit. ring. }
    split; [ring|].
    split; [|split; [exact Hcol | exact Hh]].
    unfold speed. rewrite Hv.
    rewrite <- (vec_eta (PotatoMotion.velocity r)) at 3.
    apply norm_le_scaled; [lra|].
    set (vx := Vector2.x (PotatoMotion.velocity r)) in *.
    set (vy := Vector2.y (PotatoMotion.velocity r)) in *.
    set (nx := Vector2.x n) in *. set (ny := Vector2.y n) in *.
    replace ((vx - 2 * d * nx * BOUNCE_FACTOR) * (8 / 10)
             * ((vx - 2 * d * nx * BOUNCE_FACTOR) * (8 / 10))
             + (vy - 2 * d * ny * BOUNCE_FACTOR) * (8 / 10)
               * ((vy - 2 * d * ny * BOUNCE_FACTOR) * (8 / 10)))
      with (8 / 10 * (8 / 10)
            * ((vx * vx + vy * vy)
               - 4 * BOUNCE_FACTOR * d * (vx * nx + vy * ny)
               + 4 * BOUNCE_FACTOR * BOUNCE_FACTOR * d * d
                 * (nx * nx + ny * ny))) by ring.
    rewrite Hunit. fold d.
    assert (H0 : 0 <= BOUNCE_FACTOR * (1 - BOUNCE_FACTOR) * (d * d)).
    { apply Rmult_le_pos; [apply Rmult_le_pos; lra | apply square_nonneg]. }
    nra.
  + intro Hdot. apply Rle_not_lt in Hdot.
    assert (E : JS.ltb (Vector2.x (PotatoMotion.velocity r) * Vector2.x n
                        + Vector2.y (PotatoMotion.velocity r) * Vector2.y n) 0
                = false).
    { apply ltb_false. lra. }
    rewrite E in Hr'. rewrite Hr'. repeat split; reflexivity.
Qed.

Lemma wallTrack_segments :
  boundarySegments wallTrack
  = [Track.mkSegment (Vector2.mk 0 0) (Vector2.mk 10 0);
     Track.mkSegment (Vector2.mk 10 0) (Vector2.mk 0 0)].
Proof. reflexivity. Qed.

Lemma wallTrack_distance (s : Track.segment) :
  In s (boundarySegments wallTrack) ->
  segmentDistance (Vector2.mk 5 3) s = 3.
Proof.
rewrite wallTrack_segments.
intros [<- | [<- | []]];
  unfold segmentDistance, Track.pointToLineDistance, Track.closestPointOn,
    JS.gtb, JS.ltb;
  simpl; decide_numbers; simpl; apply sqrt_is; try lra; field.
Qed.

Lemma checkTrackBoundaries_bounce_witness :
  (colliding (Track.checkBoundaryCollision wallTrack (Vector2.mk 5 3) 25)
   = false ->
   PotatoMotion.checkTrackBoundaries (1 / 2) wallTrack
     (racer 5 3 (Vector2.mk 0 (-4)))
   = PotatoMotion.withColliding (racer 5 3 (Vector2.mk 0 (-4))) false)
  /\ (colliding (Track.checkBoundaryCollision wallTrack (Vector2.mk 5 3) 25)
      = true ->
      exists n,
        normal (Track.checkBoundaryCollision wallTrack (Vector2.mk 5 3) 25)
        = Some n
        /\ Vector2.norm n = 1).
Proof.
destruct (checkTrackBoundaries_bounce (1 / 2) wallTrack
            (racer 5 3 (Vector2.mk 0 (-4)))
            ltac:(lra)
            ltac:(intros s Hs;
                  change (PotatoMotion.position
                            (racer 5 3 (Vector2.mk 0 (-4))))
                    with (Vector2.mk 5 3);
                  rewrite (wallTrack_distance s Hs); lra))
  as [H1 H2].
split; [exact H1|].
intro Hc. destruct (H2 Hc) as (n & Hn & Hu & _).
exists n. split; assumption.
Defined.

(** The closest point [c] of a segment to [p] sees every point of the
    segment at an angle of at least a right angle from [p]. *)
Lemma closestPointOn_obtuse (p s e : Vec) (t : R) :
  0 <= t <= 1 ->
  (Vector2.x p - Vector2.x (Track.closestPointOn p s e))
  * (Vector2.x (pointAt s e t) - Vector2.x (Track.closestPointOn p s e))
  + (Vector2.y p - Vector2.y (Track.closestPointOn p s e))
    * (Vector2.y (pointAt s e t) - Vector2.y (Track.closestPointOn p s e))
  <= 0.
Proof.
intro Ht.
destruct p as [px py], s as [sx sy], e as [ex ey].
unfold Track.closestPointOn, pointAt; simpl.
set (C := ex - sx). set (D := ey - sy).
set (d := (px - sx) * C + (py - sy) * D).
set (S := C * C + D * D).
assert (HS : 0 <= S) by apply sum_squares_nonneg.
destruct (Req_dec_T S 0) as [E0 | E0].
- replace (JS.ltb (-1) 0) with true by (symmetry; apply ltb_true; lra).
  simpl.
  assert (HC : C = 0 /\ D = 0) by (apply sum_squares_zero; exact E0).
  destruct HC as [HC HD]. rewrite HC, HD. apply Req_le. ring.
- assert (HSpos : 0 < S) by lra.
  set (q := d / S).
  assert (Hq : d = q * S) by (unfold q; field; exact E0).
  unfold JS.gtb, JS.ltb.
  destruct (Rlt_dec q 0) as [Hlow | Hlow].
  + simpl.
    replace ((px - sx) * (sx + t * C - sx) + (py - sy) * (sy + t * D - sy))
      with (t * d) by (unfold d; ring).
    rewrite Hq.
    assert (0 <= t * (- q) * S)
      by (apply Rmult_le_pos; [apply Rmult_le_pos |]; lra).
    nra.
  + destruct (Rlt_dec 1 q) as [Hhigh | Hhigh].
    * simpl.
      replace ((px - ex) * (sx + t * C - ex) + (py - ey) * (sy + t * D - ey))
        with ((t - 1) * (d - S)) by (unfold d, S, C, D; ring).
      rewrite Hq.
      assert (0 <= (1 - t) * (q - 1) * S)
        by (apply Rmult_le_pos; [apply Rmult_le_pos |]; lra).
      nra.
    * simpl.
      replace ((px - (sx + q * C)) * (sx + t * C - (sx + q * C))
               + (py - (sy + q * D)) * (sy + t * D - (sy + q * D)))
        with ((t - q) * (d - q * S)) by (unfold d, S; ring).
      rewrite <- Hq. apply Req_le. ring.
Qed.

(** Moving [p] away from its closest point [c] along the line through
    both, to distance [r] from [c], puts it at distance [r] from the
    segment. *)
Lemma pushed_distance (p s e : Vec) (r : R) :
  0 < Track.pointToLineDistance p s e ->
  0 <= r ->
  let c := Track.closestPointOn p s e in
  let d := Track.pointToLineDistance p s e in
  let p' := Vector2.mk
              (Vector2.x p + (Vector2.x p - Vector2.x c) / d * (r - d))
              (Vector2.y p + (Vector2.y p - Vector2.y c) / d * (r - d)) in
  Track.pointToLineDistance p' s e = r.
Proof.
intros Hd Hr c d p'.
destruct (closestPointOn_minimal p s e) as (t0 & Ht0 & Hc & _).
destruct (closestPointOn_minimal p' s e) as (t1 & Ht1 & Hc' & Hmin').
fold c in Hc.
assert (Hdd : d * d
              = (Vector2.x p - Vector2.x c) * (Vector2.x p - Vector2.x c)
                + (Vector2.y p - Vector2.y c) * (Vector2.y p - Vector2.y c)).
{ unfold d, Track.pointToLineDistance. cbv zeta. fold c.
  apply sqrt_sqrt. apply sum_squares_nonneg. }
fold d in Hd.
(* the new point seen from [c] *)
assert (Hx : Vector2.x p' - Vector2.x c
             = (Vector2.x p - Vector2.x c) * (r / d)).
{ unfold p'. cbn [Vector2.x]. field. lra. }
assert (Hy : Vector2.y p' - Vector2.y c
             = (Vector2.y p - Vector2.y c) * (r / d)).
{ unfold p'. cbn [Vector2.y]. field. lra. }
assert (Hk : 0 <= r / d).
{ apply Rmult_le_pos; [exact Hr|]. left. apply Rinv_0_lt_compat. exact Hd. }
assert (Hpc : dist p' c = r).
{ unfold dist, Vector2.sub. apply norm_of; [exact Hr|].
  rewrite Hx, Hy.
  replace ((Vector2.x p - Vector2.x c) * (r / d)
           * ((Vector2.x p - Vector2.x c) * (r / d))
           + (Vector2.y p - Vector2.y c) * (r / d)
             * ((Vector2.y p - Vector2.y c) * (r / d)))
    with (((Vector2.x p - Vector2.x c) * (Vector2.x p - Vector2.x c)
           + (Vector2.y p - Vector2.y c) * (Vector2.y p - Vector2.y c))
          * (r / d * (r / d))) by ring.
  rewrite <- Hdd. field. lra. }
rewrite pointToLineDistance_dist, Hc'.
apply Rle_antisym.
- rewrite <- Hpc, Hc. apply Hmin'. exact Ht0.
- pose proof (closestPointOn_obtuse p s e t1 Ht1) as Hob. fold c in Hob.
  set (q := pointAt s e t1) in *.
  unfold dist, Vector2.sub, Vector2.norm. cbn [Vector2.x Vector2.y].
  rewrite <- (sqrt_of_square r Hr) at 1.
  apply sqrt_le_1_alt.
  assert (Hrr : r * r
                = (Vector2.x p' - Vector2.x c) * (Vector2.x p' - Vector2.x c)
                  + (Vector2.y p' - Vector2.y c) * (Vector2.y p' - Vector2.y c)).
  { rewrite Hx, Hy.
    replace ((Vector2.x p - Vector2.x c) * (r / d)
             * ((Vector2.x p - Vector2.x c) * (r / d))
             + (Vector2.y p - Vector2.y c) * (r / d)
               * ((Vector2.y p - Vector2.y c) * (r / d)))
      with (((Vector2.x p - Vector2.x c) * (Vector2.x p - Vector2.x c)
             + (Vector2.y p - Vector2.y c) * (Vector2.y p - Vector2.y c))
            * (r / d * (r / d))) by ring.
    rewrite <- Hdd. field. lra. }
  rewrite Hrr.
  assert (Hcross :
            (Vector2.x p' - Vector2.x c) * (Vector2.x q - Vector2.x c)
            + (Vector2.y p' - Vector2.y c) * (Vector2.y q - Vector2.y c)
            <= 0).
  { rewrite Hx, Hy.
    replace ((Vector2.x p - Vector2.x c) * (r / d) * (Vector2.x q - Vector2.x c)
             + (Vector2.y p - Vector2.y c) * (r / d)
               * (Vector2.y q - Vector2.y c))
      with (r / d
            * ((Vector2.x p - Vector2.x c) * (Vector2.x q - Vector2.x c)
               + (Vector2.y p - Vector2.y c) * (Vector2.y q - Vector2.y c)))
      by ring.
    assert (H0 : 0 <= r / d
                      * - ((Vector2.x p - Vector2.x c)
                           * (Vector2.x q - Vector2.x c)
                           + (Vector2.y p - Vector2.y c)
                             * (Vector2.y q - Vector2.y c)))
      by (apply Rmult_le_pos; lra).
    lra. }
  set (ax := Vector2.x p' - Vector2.x c) in *.
  set (ay := Vector2.y p' - Vector2.y c) in *.
  set (bx := Vector2.x q - Vector2.x c) in *.
  set (by_ := Vector2.y q - Vector2.y c) in *.
  replace (Vector2.x p' - Vector2.x q) with (ax - bx) by (unfold ax, bx; ring).
  replace (Vector2.y p' - Vector2.y q) with (ay - by_)
    by (unfold ay, by_; ring).
  assert (Hsq : 0 <= bx * bx + by_ * by_) by apply sum_squares_nonneg.
  clearbody ax ay bx by_. nra.
Qed.

Lemma checkTrackBoundaries_position (BOUNCE_FACTOR : R) (track : Track.t)
  (r : PotatoMotion.t) (n : Vec) (ov : R) :
  colliding (Track.checkBoundaryCollision
               track (PotatoMotion.position r)
               (Potato.colliderRadius (PotatoMotion.potato r))) = true ->
  normal (Track.checkBoundaryCollision
            track (PotatoMotion.position r)
            (Potato.colliderRadius (PotatoMotion.potato r))) = Some n ->
  overlap (Track.checkBoundaryCollision
             track (PotatoMotion.position r)
             (Potato.colliderRadius (PotatoMotion.potato r))) = Some ov ->
  PotatoMotion.position
    (PotatoMotion.checkTrackBoundaries BOUNCE_FACTOR track r)
  = Vector2.mk (Vector2.x (PotatoMotion.position r) + Vector2.x n * ov)
               (Vector2.y (PotatoMotion.position r) + Vector2.y n * ov)
  /\ Potato.colliderRadius
       (PotatoMotion.potato
          (PotatoMotion.checkTrackBoundaries BOUNCE_FACTOR track r))
     = Potato.colliderRadius (PotatoMotion.potato r).
Proof.
intros Hc Hn Hov. unfold PotatoMotion.checkTrackBoundaries. cbv zeta.
rewrite Hc, Hn, Hov.
destruct (JS.ltb _ 0); [|split; reflexivity].
cbn [PotatoMotion.withColliding PotatoMotion.withVelocity
     PotatoMotion.withPotato PotatoMotion.potato
     PotatoMotion.setPosition Potato.isShielded].
destruct (Potato.isShielded (PotatoMotion.potato r)) eqn:Hs; cbn [negb].
- split; reflexivity.
- unfold PotatoHealth.applyDamage.
  cbn [PotatoMotion.setPosition Potato.isShielded]. rewrite Hs.
  split; reflexivity.
Qed.

(** X22 ([checkTrackBoundaries], [checkBoundaryCollision]): a potato
    that overlaps the boundary, its centre on no boundary segment, is
    moved off the nearest segment until its circle just touches it: in
    exact arithmetic its distance to that segment is the collider radius
    afterwards, and the segment no longer collides with it. *)
Theorem checkTrackBoundaries_pushes_out (BOUNCE_FACTOR : R)
  (track : Track.t) (r : PotatoMotion.t)
  (Hoff : forall s, In s (boundarySegments track) ->
                    0 < segmentDistance (PotatoMotion.position r) s)
  (Hc : colliding (Track.checkBoundaryCollision
                     track (PotatoMotion.position r)
                     (Potato.colliderRadius (PotatoMotion.potato r)))
        = true) :
  let r' := PotatoMotion.checkTrackBoundaries BOUNCE_FACTOR track r in
  exists s,
    In s (boundarySegments track)
    /\ (forall s', In s' (boundarySegments track) ->
                   segmentDistance (PotatoMotion.position r) s
                   <= segmentDistance (PotatoMotion.position r) s')
    /\ segmentDistance (PotatoMotion.position r) s
       < Potato.colliderRadius (PotatoMotion.potato r)
    /\ segmentDistance (PotatoMotion.position r') s
       = Potato.colliderRadius (PotatoMotion.potato r')
    /\ colliding (segmentHit (PotatoMotion.position r')
                             (Potato.colliderRadius (PotatoMotion.potato r'))
                             s) = false.
Proof.
intro r'.
set (pos := PotatoMotion.position r) in *.
set (rad := Potato.colliderRadius (PotatoMotion.potato r)) in *.
destruct (checkBoundaryCollision_hit _ _ _ Hc) as (s & Hin & Heq & Hcs).
destruct (segmentHit_data _ _ _ Hcs) as (Hlt & Hov & Hn).
rewrite <- Heq in Hov, Hn.
destruct (checkTrackBoundaries_position BOUNCE_FACTOR track r _ _ Hc Hn Hov)
  as (Hpos & Hrad).
fold r' pos rad in Hpos, Hrad.
assert (Hd : 0 < segmentDistance pos s) by (apply Hoff; exact Hin).
assert (Hdist : segmentDistance (PotatoMotion.position r') s = rad).
{ rewrite Hpos. cbn [Vector2.x Vector2.y].
  unfold segmentDistance in *.
  apply (pushed_distance pos (Track.start s) (Track.end_ s) rad Hd). lra. }
exists s. split; [exact Hin|].
split.
- intros s' Hin'.
  destruct (colliding (segmentHit pos rad s')) eqn:Hcs'.
  + unfold Track.checkBoundaryCollision in Heq. cbv zeta in Heq.
    fold (boundarySegments track) in Heq.
    destruct (fold_keepDeeper pos rad (boundarySegments track)
                Track.noBoundaryCollision) as (_ & _ & Hdeep).
    { intro H. discriminate H. }
    destruct (Hdeep s' Hin' Hcs') as (_ & (o1 & o2 & Ho1 & Ho2 & Hle)).
    rewrite Heq in Ho2.
    destruct (segmentHit_data _ _ _ Hcs') as (_ & Hov' & _).
    destruct (segmentHit_data _ _ _ Hcs) as (_ & Hov0 & _).
    rewrite Hov' in Ho1. rewrite Hov0 in Ho2.
    injection Ho1 as <-. injection Ho2 as <-. lra.
  + unfold segmentHit in Hcs'. rewrite lineCircleCollision_colliding in Hcs'.
    apply ltb_false in Hcs'. unfold segmentDistance in *. lra.
- split; [exact Hlt|]. split; [rewrite Hrad; exact Hdist|].
  unfold segmentHit. rewrite lineCircleCollision_colliding.
  apply ltb_false. rewrite Hrad. unfold segmentDistance in Hdist.
  rewrite Hdist. apply Rle_refl.
Qed.

Lemma wallTrack_collides :
  colliding (Track.checkBoundaryCollision wallTrack (Vector2.mk 5 3) 25)
  = true.
Proof.
unfold Track.checkBoundaryCollision. cbv zeta.
fold (boundarySegments wallTrack).
destruct (fold_keepDeeper (Vector2.mk 5 3) 25 (boundarySegments wallTrack)
            Track.noBoundaryCollision) as (_ & _ & Hdeep).
{ intro H. discriminate H. }
apply (Hdeep (Track.mkSegment (Vector2.mk 0 0) (Vector2.mk 10 0))).
- rewrite wallTrack_segments. now left.
- unfold segmentHit. rewrite lineCircleCollision_colliding.
  apply ltb_true.
  change (segmentDistance (Vector2.mk 5 3)
            (Track.mkSegment (Vector2.mk 0 0) (Vector2.mk 10 0)) < 25).
  rewrite wallTrack_distance; [lra|].
  rewrite wallTrack_segments. now left.
Qed.

Lemma checkTrackBoundaries_pushes_out_witness :
  exists s,
    In s (boundarySegments wallTrack)
    /\ segmentDistance
         (PotatoMotion.position
            (PotatoMotion.checkTrackBoundaries (1 / 2) wallTrack
               (racer 5 3 (Vector2.mk 0 (-4))))) s
       = Potato.colliderRadius
           (PotatoMotion.potato
              (PotatoMotion.checkTrackBoundaries (1 / 2) wallTrack
                 (racer 5 3 (Vector2.mk 0 (-4))))).
Proof.
destruct (checkTrackBoundaries_pushes_out (1 / 2) wallTrack
            (racer 5 3 (Vector2.mk 0 (-4)))
            ltac:(intros s Hs;
                  change (PotatoMotion.position
                            (racer 5 3 (Vector2.mk 0 (-4))))
                    with (Vector2.mk 5 3);
                  rewrite (wallTrack_distance s Hs); lra)
            wallTrack_collides)
  as (s & Hin & _ & _ & Hd & _).
exists s. split; assumption.
Defined.

(** ** Collisions between potatoes *)

Lemma resolveCollision_without_data (a b : Physics.object) :
  Physics.velocity
    (fst (Physics.resolveCollision a b (mkCollision false None None None)))
  = Physics.velocity a
  /\ Physics.position
       (fst (Physics.resolveCollision a b (mkCollision false None None None)))
     = Physics.position a
  /\ Physics.velocity
       (snd (Physics.resolveCollision a b (mkCollision false None None None)))
     = Physics.velocity b
  /\ Physics.position
       (snd (Physics.resolveCollision a b (mkCollision false None None None)))
     = Physics.position b.
Proof.
unfold Physics.resolveCollision, Physics.relativeNormalVelocity.
cbn [normal overlap JS.truthy Vector2.zero Vector2.x Vector2.y].
cbv zeta.
assert (E : JS.gtb ((Vector2.x (Physics.velocity a)
                     - Vector2.x (Physics.velocity b)) * 0
                    + (Vector2.y (Physics.velocity a)
                       - Vector2.y (Physics.velocity b)) * 0) 0 = false).
{ apply gtb_false. lra. }
rewrite E. cbn [fst snd Physics.set_velocity Physics.velocity Physics.position].
repeat split; try reflexivity.
- transitivity (Vector2.mk (Vector2.x (Physics.velocity a))
                           (Vector2.y (Physics.velocity a)));
    [f_equal; unfold Rdiv; ring | apply vec_eta].
- transitivity (Vector2.mk (Vector2.x (Physics.velocity b))
                           (Vector2.y (Physics.velocity b)));
    [f_equal; unfold Rdiv; ring | apply vec_eta].
Qed.

Lemma damaged_motion (cfg : Config.t) (factor rel : R) (r : PotatoMotion.t) :
  PotatoMotion.velocity (PotatoMotion.damaged factor rel r)
  = PotatoMotion.velocity r
  /\ PotatoMotion.position (PotatoMotion.damaged factor rel r)
     = PotatoMotion.position r
  /\ PotatoMotion.advancedCollision (PotatoMotion.damaged factor rel r)
     = PotatoMotion.advancedCollision r.
Proof.
unfold PotatoMotion.damaged.
destruct (negb _ && _); [|repeat split; reflexivity].
unfold PotatoHealth.applyDamage.
destruct (negb (Potato.isShielded (PotatoMotion.potato r)));
  repeat split; reflexivity.
Qed.

Lemma pairCollision_motion (cfg : Config.t) (dmg : option R)
  (this other : PotatoMotion.t) :
  PotatoMotion.advancedCollision this = false ->
  let r := PotatoMotion.pairCollision cfg dmg this other in
  PotatoMotion.velocity (fst r) = PotatoMotion.velocity this
  /\ PotatoMotion.position (fst r) = PotatoMotion.position this
  /\ PotatoMotion.advancedCollision (fst r) = false
  /\ PotatoMotion.velocity (snd r) = PotatoMotion.velocity other
  /\ PotatoMotion.position (snd r) = PotatoMotion.position other.
Proof.
intros Hadv r. unfold r, PotatoMotion.pairCollision.
destruct (negb (PotatoMotion.active other)); [repeat split; auto|].
destruct (PotatoMotion.hasGhost cfg this || PotatoMotion.hasGhost cfg other);
  [repeat split; auto|].
rewrite Hadv. unfold SpriteCollision.checkCollision. cbv zeta.
destruct (JS.ltb _ _); [|repeat split; auto].
cbn [SpriteCollision.dataOf].
destruct (resolveCollision_without_data
            (PotatoMotion.asObject this) (PotatoMotion.asObject other))
  as (Hva & Hpa & Hvb & Hpb).
destruct (Physics.resolveCollision (PotatoMotion.asObject this)
            (PotatoMotion.asObject other) (mkCollision false None None None))
  as [a b].
cbn [fst snd] in *.
set (rel := Rabs _).
destruct (damaged_motion cfg (JS.or_opt dmg 5) rel
            (PotatoMotion.fromObject this a)) as (H1 & H2 & H3).
destruct (damaged_motion cfg (JS.or_opt dmg 5) rel
            (PotatoMotion.fromObject other b)) as (H4 & H5 & _).
rewrite H1, H2, H3, H4, H5.
unfold PotatoMotion.fromObject, PotatoMotion.position.
cbn [PotatoMotion.withVelocity PotatoMotion.withPotato PotatoMotion.velocity
     PotatoMotion.potato PotatoMotion.setPosition Potato.position
     PotatoMotion.advancedCollision].
rewrite Hva, Hpa, Hvb, Hpb.
repeat split; try reflexivity. exact Hadv.
Qed.

Lemma checkPotatoCollisions_motion (cfg : Config.t) (dmg : option R)
  (others : list PotatoMotion.t) :
  forall this,
    PotatoMotion.advancedCollision this = false ->
    let r := PotatoMotion.checkPotatoCollisions cfg dmg this others in
    PotatoMotion.velocity (fst r) = PotatoMotion.velocity this
    /\ PotatoMotion.position (fst r) = PotatoMotion.position this
    /\ map PotatoMotion.velocity (snd r) = map PotatoMotion.velocity others
    /\ map PotatoMotion.position (snd r) = map PotatoMotion.position others.
Proof.
induction others as [|other rest IH]; intros this Hadv.
- cbn. repeat split; reflexivity.
- cbn [PotatoMotion.checkPotatoCollisions].
  destruct (pairCollision_motion cfg dmg this other Hadv)
    as (H1 & H2 & H3 & H4 & H5).
  destruct (PotatoMotion.pairCollision cfg dmg this other) as [this1 other1].
  cbn [fst snd] in *.
  specialize (IH this1 H3). cbv zeta in IH.
  destruct (PotatoMotion.checkPotatoCollisions cfg dmg this1 rest)
    as [this2 rest1].
  cbn [fst snd map] in *.
  destruct IH as (I1 & I2 & I3 & I4).
  rewrite I1, I2, I3, I4, H1, H2, H4, H5.
  repeat split; reflexivity.
Qed.

Lemma checkPotatoCollisions_ghost (cfg : Config.t) (dmg : option R)
  (others : list PotatoMotion.t) (this : PotatoMotion.t) :
  PotatoMotion.hasGhost cfg this = true ->
  PotatoMotion.checkPotatoCollisions cfg dmg this others = (this, others).
Proof.
intro Hg. induction others as [|other rest IH]; [reflexivity|].
cbn [PotatoMotion.checkPotatoCollisions].
assert (E : PotatoMotion.pairCollision cfg dmg this other = (this, other)).
{ unfold PotatoMotion.pairCollision.
  destruct (negb (PotatoMotion.active other)); [reflexivity|].
  rewrite Hg. reflexivity. }
rewrite E, IH. reflexivity.
Qed.

(** X23 ([checkPotatoCollisions], [Sprite.checkCollision],
    [Physics.resolveCollision]): a potato has no [advancedCollision], so
    its collision test returns [true] without collision data, and
    resolving the collision with it changes no velocity and no position:
    after the loop over the other potatoes (all masses positive) every
    potato moves as before; collisions change health only.  A potato that
    holds a ghost power-up leaves the loop with nothing changed at all. *)
Theorem checkPotatoCollisions_never_moves (cfg : Config.t) (dmg : option R)
  (this : PotatoMotion.t) (others : list PotatoMotion.t)
  (Hadv : PotatoMotion.advancedCollision this = false)
  (Hmass : positiveMasses (this :: others)) :
  let r := PotatoMotion.checkPotatoCollisions cfg dmg this others in
  PotatoMotion.velocity (fst r) = PotatoMotion.velocity this
  /\ PotatoMotion.position (fst r) = PotatoMotion.position this
  /\ map PotatoMotion.velocity (snd r) = map PotatoMotion.velocity others
  /\ map PotatoMotion.position (snd r) = map PotatoMotion.position others
  /\ (PotatoMotion.hasGhost cfg this = true -> r = (this, others)).
Proof.
intro r.
destruct (checkPotatoCollisions_motion cfg dmg others this Hadv)
  as (H1 & H2 & H3 & H4).
fold r in H1, H2, H3, H4.
repeat split; try assumption.
apply checkPotatoCollisions_ghost.
Qed.

Lemma checkPotatoCollisions_never_moves_witness :
  PotatoMotion.velocity
    (fst (PotatoMotion.checkPotatoCollisions Config.defaults (Some 10)
            (racer 0 0 (Vector2.mk 3 0)) [racer 10 0 (Vector2.mk (-3) 0)]))
  = Vector2.mk 3 0.
Proof.
apply (proj1 (checkPotatoCollisions_never_moves Config.defaults (Some 10)
                (racer 0 0 (Vector2.mk 3 0))
                [racer 10 0 (Vector2.mk (-3) 0)]
                eq_refl
                ltac:(repeat constructor; simpl; lra))).
Defined.

(** ** [checkCircleCollision] followed by [resolveCollision] *)

Lemma sqrt_scaled (k x y : R) :
  sqrt (x * k * (x * k) + y * k * (y * k)) = Rabs k * sqrt (x * x + y * y).
Proof.
replace (x * k * (x * k) + y * k * (y * k))
  with (k * k * (x * x + y * y)) by ring.
rewrite sqrt_mult_alt by apply square_nonneg.
f_equal. fold (Rsqr k). apply sqrt_Rsqr_abs.
Qed.

(** X24 ([Physics.checkCircleCollision], [Physics.resolveCollision]):
    with the collision data of [checkCircleCollision(a, b)], whose normal
    points from [a] to [b], [resolveCollision(a, b, data)] takes two
    overlapping circles that approach each other for separating and leaves
    them unchanged; two circles that do not approach each other are moved
    toward each other: the distance of their centres [d] becomes
    [|d - 0.2 * overlap|], which is less than [d] when
    [0.2 * overlap <= d].  Masses are positive and the centres differ. *)
Theorem resolveCollision_of_checkCircleCollision (a b : Physics.object)
  (Hma : 0 < JS.or_opt (Physics.mass a) 1)
  (Hmb : 0 < JS.or_opt (Physics.mass b) 1)
  (Hpos : Physics.position a <> Physics.position b)
  (Hc : colliding (Physics.checkCircleCollision a b) = true) :
  let c := Physics.checkCircleCollision a b in
  let d := Physics.centreDistance a b in
  let approach :=
    Vector2.dot (Vector2.sub (Physics.position b) (Physics.position a))
                (Vector2.sub (Physics.velocity b) (Physics.velocity a)) in
  (approach < 0 -> Physics.resolveCollision a b c = (a, b))
  /\ (0 <= approach ->
      exists ov,
        overlap c = Some ov
        /\ 0 < ov
        /\ Physics.centreDistance (fst (Physics.resolveCollision a b c))
                                  (snd (Physics.resolveCollision a b c))
           = Rabs (d - 2 / 10 * ov)
        /\ (2 / 10 * ov <= d ->
            Physics.centreDistance (fst (Physics.resolveCollision a b c))
                                   (snd (Physics.resolveCollision a b c))
            < d)).
Proof.
intros c d approach.
assert (Hd : 0 < d) by (apply centreDistance_pos; exact Hpos).
assert (HD : Physics.normalDivisor a b = d).
{ unfold Physics.normalDivisor. apply or_num_keep. fold d. lra. }
pose proof (checkCircleCollision_normal a b Hc) as Hn.
rewrite HD in Hn. fold c in Hn.
assert (Hlt := Hc). rewrite checkCircleCollision_colliding in Hlt.
apply ltb_true in Hlt. fold d in Hlt.
set (minDistance := JS.or_opt (Physics.radius a) 0
                    + JS.or_opt (Physics.radius b) 0) in *.
assert (Hov : overlap c = Some (minDistance - d)).
{ unfold c, Physics.checkCircleCollision. cbv zeta.
  fold d minDistance.
  replace (JS.ltb d minDistance) with true
    by (symmetry; apply ltb_true; exact Hlt).
  reflexivity. }
assert (Hrel : Physics.relativeNormalVelocity a b c = - approach / d).
{ unfold Physics.relativeNormalVelocity. rewrite Hn.
  unfold approach, Vector2.dot, Vector2.sub. cbn [Vector2.x Vector2.y].
  field. lra. }
split.
- intro Happ. apply resolveCollision_skips. rewrite Hrel.
  apply Rmult_lt_0_compat; [lra | apply Rinv_0_lt_compat; exact Hd].
- intro Happ. exists (minDistance - d).
  split; [exact Hov|]. split; [lra|].
  assert (Hdist : Physics.centreDistance
                    (fst (Physics.resolveCollision a b c))
                    (snd (Physics.resolveCollision a b c))
                  = Rabs (d - 2 / 10 * (minDistance - d))).
  { unfold Physics.resolveCollision. cbv zeta.
    assert (E : JS.gtb (Physics.relativeNormalVelocity a b c) 0 = false).
    { apply gtb_false. rewrite Hrel.
      assert (0 <= approach * / d)
        by (apply Rmult_le_pos;
            [exact Happ | left; apply Rinv_0_lt_compat; exact Hd]).
      unfold Rdiv. lra. }
    rewrite E, Hn, Hov.
    assert (T : JS.truthy (Some (minDistance - d)) = true).
    { unfold JS.truthy. destruct (Req_dec_T (minDistance - d) 0); [lra|].
      reflexivity. }
    rewrite T. cbn [fst snd JS.defined_or].
    unfold Physics.centreDistance.
    cbn [Physics.set_position Physics.set_velocity Physics.position
         Vector2.x Vector2.y].
    set (ma := JS.or_opt (Physics.mass a) 1) in *.
    set (mb := JS.or_opt (Physics.mass b) 1) in *.
    set (dx := Vector2.x (Physics.position b) - Vector2.x (Physics.position a)).
    set (dy := Vector2.y (Physics.position b) - Vector2.y (Physics.position a)).
    set (k := 1 - (minDistance - d) * (2 / 10) / d).
    replace (Vector2.x (Physics.position b)
             - dx / d * ((minDistance - d) * (2 / 10)) * ma / (ma + mb)
             - (Vector2.x (Physics.position a)
                + dx / d * ((minDistance - d) * (2 / 10)) * mb / (ma + mb)))
      with (dx * k) by (unfold dx, k; field; lra).
    replace (Vector2.y (Physics.position b)
             - dy / d * ((minDistance - d) * (2 / 10)) * ma / (ma + mb)
             - (Vector2.y (Physics.position a)
                + dy / d * ((minDistance - d) * (2 / 10)) * mb / (ma + mb)))
      with (dy * k) by (unfold dy, k; field; lra).
    rewrite sqrt_scaled.
    change (sqrt (dx * dx + dy * dy)) with d.
    replace (Rabs k * d) with (Rabs k * Rabs d)
      by (rewrite (Rabs_pos_eq d) by lra; reflexivity).
    rewrite <- Rabs_mult. f_equal. unfold k. field. lra. }
  split; [exact Hdist|].
  intro Hsmall. rewrite Hdist.
  rewrite Rabs_pos_eq by lra. lra.
Qed.

(** A circle moving at [(1, 0)] into a resting circle one unit to its
    right, both of radius 1: left as they are. *)
Lemma resolveCollision_of_checkCircleCollision_witness :
  Physics.resolveCollision
    (bodyAt (Vector2.mk 0 0) (Vector2.mk 1 0) 1)
    (bodyAt (Vector2.mk 1 0) (Vector2.mk 0 0) 1)
    (Physics.checkCircleCollision
       (bodyAt (Vector2.mk 0 0) (Vector2.mk 1 0) 1)
       (bodyAt (Vector2.mk 1 0) (Vector2.mk 0 0) 1))
  = (bodyAt (Vector2.mk 0 0) (Vector2.mk 1 0) 1,
     bodyAt (Vector2.mk 1 0) (Vector2.mk 0 0) 1).
Proof.
apply (proj1 (resolveCollision_of_checkCircleCollision
                (bodyAt (Vector2.mk 0 0) (Vector2.mk 1 0) 1)
                (bodyAt (Vector2.mk 1 0) (Vector2.mk 0 0) 1)
                ltac:(simpl; lra) ltac:(simpl; lra)
                ltac:(simpl; intro H; injection H; lra)
                ltac:(rewrite checkCircleCollision_colliding;
                      apply ltb_true;
                      unfold Physics.centreDistance, JS.or_opt, JS.or_num;
                      simpl;
                      rewrite (sqrt_is _ 1) by (try lra; ring);
                      decide_numbers))).
unfold Vector2.dot, Vector2.sub. simpl. lra.
Defined.

(** ** The starting grid *)

Lemma far_enough (X : R) : 2500 <= X -> 50 <= sqrt X.
Proof.
intro H. rewrite <- (sqrt_of_square 50) at 1 by lra.
apply sqrt_le_1_alt. lra.
Qed.

(** X25 ([generateStartPositions], [Sprite.checkCollision]): the grid has
    four places, all at the start angle, the front row centred on the
    start position; in exact arithmetic any two places are at least 50
    apart, so that two sprites put there do not collide when their
    collision radii add up to at most 50, as the constructor's 25 and 25
    do. *)
Theorem generateStartPositions_spacing (startPosition : Vec)
  (startAngle : R) (advancedCollision : bool) :
  let grid := Grid.generateStartPositions startPosition startAngle in
  let place i := fst (nth i grid (Vector2.zero, 0)) in
  length grid = 4%nat
  /\ (forall q, In q grid -> snd q = startAngle)
  /\ Vector2.mk ((Vector2.x (place 0%nat) + Vector2.x (place 1%nat)) / 2)
                ((Vector2.y (place 0%nat) + Vector2.y (place 1%nat)) / 2)
     = startPosition
  /\ forall i j r1 r2, (i < 4)%nat -> (j < 4)%nat -> i <> j ->
       r1 + r2 <= 50 ->
       50 <= dist (place i) (place j)
       /\ SpriteCollision.checkCollision advancedCollision
            (place i) r1 (place j) r2
          = SpriteCollision.NoCollision.
Proof.
intros grid place.
pose proof (sin_cos_square (startAngle * (PI / 180))) as Hsc.
split; [reflexivity|].
split.
{ intros q [<- | [<- | [<- | [<- | []]]]]; reflexivity. }
split.
{ unfold place, grid, Grid.generateStartPositions. cbn [nth fst Vector2.x Vector2.y].
  rewrite <- (vec_eta startPosition) at 5. f_equal; field. }
intros i j r1 r2 Hi Hj Hij Hr.
assert (Hfar : 50 <= dist (place i) (place j)).
{ unfold dist, Vector2.norm, Vector2.sub. cbn [Vector2.x Vector2.y].
  apply far_enough.
  unfold place, grid, Grid.generateStartPositions.
  set (c := cos (startAngle * (PI / 180))) in *.
  set (s := sin (startAngle * (PI / 180))) in *.
  destruct i as [|[|[|[|i]]]]; try lia;
    destruct j as [|[|[|[|j]]]]; try lia;
    cbn [nth fst Vector2.x Vector2.y]; nra. }
split; [exact Hfar|].
unfold SpriteCollision.checkCollision. cbv zeta.
assert (E : JS.ltb
              (sqrt ((Vector2.x (place i) - Vector2.x (place j))
                     * (Vector2.x (place i) - Vector2.x (place j))
                     + (Vector2.y (place i) - Vector2.y (place j))
                       * (Vector2.y (place i) - Vector2.y (place j))))
              (r1 + r2) = false).
{ apply ltb_false. unfold dist, Vector2.norm, Vector2.sub in Hfar.
  cbn [Vector2.x Vector2.y] in Hfar. lra. }
rewrite E. reflexivity.
Qed.

(** ** [Sprite.checkCollision] *)

Lemma component_quotient (dx d : R) :
  d <> 0 -> SpriteCollision.component dx d = dx / d.
Proof.
intro H. unfold SpriteCollision.component.
destruct (Req_dec_T d 0); [contradiction|]. apply or_num_zero.
Qed.

(** X26 ([Sprite.checkCollision]): the test reports a collision for a pair
    exactly when it reports one for the swapped pair.  With
    [advancedCollision], for overlapping circles whose centres differ, the
    data carry the unit normal that points from the other sprite to this
    one, the overlap [r1 + r2 - distance] and, as contact point, the point
    of this sprite's circle that lies away from the other sprite; when the
    centres coincide the normal is the zero vector. *)
Theorem Sprite_checkCollision_data (advancedCollision advancedOther : bool)
  (thisPos otherPos : Vec) (thisRadius otherRadius : R) :
  (SpriteCollision.checkCollision advancedCollision thisPos thisRadius
                                  otherPos otherRadius
   = SpriteCollision.NoCollision
   <-> SpriteCollision.checkCollision advancedOther otherPos otherRadius
                                      thisPos thisRadius
       = SpriteCollision.NoCollision)
  /\ (thisPos <> otherPos ->
      dist thisPos otherPos < thisRadius + otherRadius ->
      exists n,
        SpriteCollision.checkCollision true thisPos thisRadius
                                       otherPos otherRadius
        = SpriteCollision.Advanced
            (mkCollision true (Some n)
               (Some (thisRadius + otherRadius - dist thisPos otherPos))
               (Some (vadd thisPos (Vector2.scale thisRadius n))))
        /\ Vector2.norm n = 1
        /\ n = direction (Vector2.sub thisPos otherPos)
        /\ (0 <= thisRadius ->
            dist (vadd thisPos (Vector2.scale thisRadius n)) otherPos
            = dist thisPos otherPos + thisRadius))
  /\ (thisPos = otherPos ->
      0 < thisRadius + otherRadius ->
      SpriteCollision.checkCollision true thisPos thisRadius
                                     otherPos otherRadius
      = SpriteCollision.Advanced
          (mkCollision true (Some Vector2.zero)
             (Some (thisRadius + otherRadius)) (Some thisPos))).
Proof.
split; [|split].
- unfold SpriteCollision.checkCollision. cbv zeta.
  replace (sqrt ((Vector2.x otherPos - Vector2.x thisPos)
                 * (Vector2.x otherPos - Vector2.x thisPos)
                 + (Vector2.y otherPos - Vector2.y thisPos)
                   * (Vector2.y otherPos - Vector2.y thisPos)))
    with (sqrt ((Vector2.x thisPos - Vector2.x otherPos)
                * (Vector2.x thisPos - Vector2.x otherPos)
                + (Vector2.y thisPos - Vector2.y otherPos)
                  * (Vector2.y thisPos - Vector2.y otherPos)))
    by (f_equal; ring).
  rewrite (Rplus_comm otherRadius thisRadius).
  destruct (JS.ltb _ (thisRadius + otherRadius));
    destruct advancedCollision, advancedOther;
    split; intro H; try reflexivity; discriminate H.
- intros Hne Hlt.
  set (dx := Vector2.x thisPos - Vector2.x otherPos).
  set (dy := Vector2.y thisPos - Vector2.y otherPos).
  assert (Hd : dist thisPos otherPos = sqrt (dx * dx + dy * dy))
    by reflexivity.
  assert (Hpos : 0 < sqrt (dx * dx + dy * dy)).
  { destruct (sqrt_pos (dx * dx + dy * dy)) as [H | H]; [exact H|].
    exfalso. apply Hne. symmetry in H.
    apply sqrt_eq_0 in H; [|apply sum_squares_nonneg].
    apply sum_squares_zero in H. destruct H as [Hx Hy].
    destruct thisPos as [x1 y1], otherPos as [x2 y2].
    unfold dx, dy in Hx, Hy. cbn [Vector2.x Vector2.y] in Hx, Hy.
    f_equal; lra. }
  set (d := sqrt (dx * dx + dy * dy)) in *.
  exists (Vector2.mk (dx / d) (dy / d)).
  assert (Hdd : d * d = dx * dx + dy * dy)
    by (apply sqrt_sqrt; apply sum_squares_nonneg).
  split; [|split; [|split]].
  + unfold SpriteCollision.checkCollision. cbv zeta. fold dx dy. fold d.
    rewrite Hd in Hlt. apply ltb_true in Hlt. rewrite Hlt.
    rewrite !component_quotient by lra.
    rewrite Hd. unfold vadd, Vector2.scale. cbn [Vector2.x Vector2.y].
    repeat f_equal; ring.
  + apply unit_normal. exact Hpos.
  + unfold direction, Vector2.sub, Vector2.norm, Vector2.scale.
    cbn [Vector2.x Vector2.y]. fold dx dy. fold d.
    f_equal; unfold Rdiv; ring.
  + intro Hr. rewrite Hd. unfold dist, vadd, Vector2.scale, Vector2.sub.
    cbn [Vector2.x Vector2.y].
    apply norm_of; [lra|].
    replace (Vector2.x thisPos + dx / d * thisRadius - Vector2.x otherPos)
      with (dx * (1 + thisRadius / d)) by (unfold dx; field; lra).
    replace (Vector2.y thisPos + dy / d * thisRadius - Vector2.y otherPos)
      with (dy * (1 + thisRadius / d)) by (unfold dy; field; lra).
    replace (dx * (1 + thisRadius / d) * (dx * (1 + thisRadius / d))
             + dy * (1 + thisRadius / d) * (dy * (1 + thisRadius / d)))
      with ((dx * dx + dy * dy)
            * ((1 + thisRadius / d) * (1 + thisRadius / d))) by ring.
    rewrite <- Hdd. field. lra.
- intros Heq Hr. subst otherPos.
  unfold SpriteCollision.checkCollision. cbv zeta.
  rewrite !Rminus_diag.
  replace (0 * 0 + 0 * 0) with 0 by ring. rewrite sqrt_0.
  apply ltb_true in Hr. rewrite Hr.
  unfold SpriteCollision.component.
  destruct (Req_dec_T 0 0) as [_ | H]; [|exfalso; apply H; reflexivity].
  rewrite !Rmult_0_l, !Rplus_0_r, Rminus_0_r, vec_eta. reflexivity.
Qed.

(** ** The camera *)

(** X27 ([Camera.setZoom], [worldToScreen], [screenToWorld]): with
    [0 < minZoom <= maxZoom], as the constructor sets them, [setZoom]
    leaves a zoom between [minZoom] and [maxZoom], and with it the two
    coordinate changes undo each other. *)
Theorem Camera_round_trip (c : Camera.t) (z x y : R)
  (Hmin : 0 < Camera.minZoom c)
  (Hle : Camera.minZoom c <= Camera.maxZoom c) :
  let c' := Camera.setZoom z c in
  Camera.minZoom c <= Camera.zoom c' <= Camera.maxZoom c
  /\ Camera.screenToWorld
       c' (Vector2.x (Camera.worldToScreen c' x y))
          (Vector2.y (Camera.worldToScreen c' x y))
     = Vector2.mk x y
  /\ Camera.worldToScreen
       c' (Vector2.x (Camera.screenToWorld c' x y))
          (Vector2.y (Camera.screenToWorld c' x y))
     = Vector2.mk x y.
Proof.
intro c'.
assert (Hz : Camera.minZoom c <= Camera.zoom c' <= Camera.maxZoom c).
{ unfold c', Camera.setZoom. cbn [Camera.zoom]. apply clamp_bounds.
  exact Hle. }
split; [exact Hz|].
unfold Camera.screenToWorld, Camera.worldToScreen.
cbn [Vector2.x Vector2.y].
split; f_equal; field; lra.
Qed.

Lemma Camera_round_trip_witness :
  Camera.screenToWorld
    (Camera.setZoom 5 (Camera.constructor 800 600))
    (Vector2.x (Camera.worldToScreen
                  (Camera.setZoom 5 (Camera.constructor 800 600)) 3 4))
    (Vector2.y (Camera.worldToScreen
                  (Camera.setZoom 5 (Camera.constructor 800 600)) 3 4))
  = Vector2.mk 3 4.
Proof.
apply (proj1 (proj2 (Camera_round_trip (Camera.constructor 800 600) 5 3 4
                       ltac:(simpl; lra) ltac:(simpl; lra)))).
Defined.

(** ** A coasting sprite *)

Lemma update_coasting (s : Sprite.t) (dt : R) :
  Sprite.active s = true ->
  Sprite.acceleration s = Vector2.zero ->
  Sprite.update s dt
  = Sprite.mk true
      (vadd (Sprite.position s) (Vector2.scale dt (Sprite.velocity s)))
      (Vector2.scale (JS.defined_or (Sprite.friction s) (98 / 100))
                     (Sprite.velocity s))
      Vector2.zero
      (match Sprite.angularVelocity s with
       | Some w => Sprite.rotation s + w * dt
       | None => Sprite.rotation s
       end)
      (Sprite.angularVelocity s) (Sprite.friction s).
Proof.
intros Ha Hacc. unfold Sprite.update. rewrite Ha, Hacc. cbn [negb].
cbv zeta. unfold vadd, Vector2.scale, Vector2.zero.
cbn [Vector2.x Vector2.y].
f_equal; f_equal; ring.
Qed.

Lemma updates_coasting (dt : R) (n : nat) :
  forall s : Sprite.t,
    Sprite.active s = true ->
    Sprite.acceleration s = Vector2.zero ->
    let f := JS.defined_or (Sprite.friction s) (98 / 100) in
    Sprite.active (updates n dt s) = true
    /\ Sprite.acceleration (updates n dt s) = Vector2.zero
    /\ Sprite.friction (updates n dt s) = Sprite.friction s
    /\ Sprite.velocity (updates n dt s)
       = Vector2.scale (f ^ n) (Sprite.velocity s)
    /\ (1 - f)
       * Vector2.x (Vector2.sub (Sprite.position (updates n dt s))
                                (Sprite.position s))
       = dt * (1 - f ^ n) * Vector2.x (Sprite.velocity s)
    /\ (1 - f)
       * Vector2.y (Vector2.sub (Sprite.position (updates n dt s))
                                (Sprite.position s))
       = dt * (1 - f ^ n) * Vector2.y (Sprite.velocity s).
Proof.
induction n as [|n IH]; intros s Ha Hacc f.
- cbn. repeat split; try assumption.
  + unfold Vector2.scale. rewrite !Rmult_1_r. symmetry. apply vec_eta.
  + ring.
  + ring.
- destruct (IH s Ha Hacc) as (Ha' & Hacc' & Hf' & Hv' & Hx' & Hy').
  fold f in Hv', Hx', Hy'.
  change (updates (S n) dt s) with (Sprite.update (updates n dt s) dt).
  rewrite (update_coasting _ dt Ha' Hacc').
  cbn [Sprite.active Sprite.acceleration Sprite.friction Sprite.velocity
       Sprite.position].
  rewrite Hf', Hv'. fold f.
  split; [reflexivity|]. split; [reflexivity|]. split; [reflexivity|].
  split.
  + unfold Vector2.scale. cbn [Vector2.x Vector2.y pow]. f_equal; ring.
  + unfold vadd, Vector2.scale, Vector2.sub in *.
    cbn [Vector2.x Vector2.y pow] in *.
    split; nra.
Qed.

(** X28 ([Sprite.update]): an active sprite without acceleration coasts:
    after [n] updates of [dt] each its velocity is [friction ^ n] times
    the velocity it had, whatever [dt] is, and with [friction <> 1] it has
    moved by [dt * (1 - friction ^ n) / (1 - friction)] times that
    velocity.  An inactive sprite stays as it is. *)
Theorem Sprite_coasting (s : Sprite.t) (dt : R) (n : nat)
  (Hacc : Sprite.acceleration s = Vector2.zero) :
  let f := JS.defined_or (Sprite.friction s) (98 / 100) in
  (Sprite.active s = true ->
   Sprite.velocity (updates n dt s)
   = Vector2.scale (f ^ n) (Sprite.velocity s)
   /\ (f <> 1 ->
       Sprite.position (updates n dt s)
       = vadd (Sprite.position s)
              (Vector2.scale (dt * (1 - f ^ n) / (1 - f))
                             (Sprite.velocity s))))
  /\ (Sprite.active s = false -> updates n dt s = s).
Proof.
intro f. split.
- intro Ha.
  destruct (updates_coasting dt n s Ha Hacc) as (_ & _ & _ & Hv & Hx & Hy).
  fold f in Hv, Hx, Hy.
  split; [exact Hv|].
  intro Hf.
  rewrite <- (vec_eta (Sprite.position (updates n dt s))).
  unfold vadd, Vector2.scale, Vector2.sub in *.
  cbn [Vector2.x Vector2.y] in *.
  f_equal.
  + apply (Rmult_eq_reg_l (1 - f)); [|lra].
    transitivity ((1 - f) * Vector2.x (Sprite.position s)
                  + dt * (1 - f ^ n) * Vector2.x (Sprite.velocity s)).
    * rewrite <- Hx. ring.
    * field. lra.
  + apply (Rmult_eq_reg_l (1 - f)); [|lra].
    transitivity ((1 - f) * Vector2.y (Sprite.position s)
                  + dt * (1 - f ^ n) * Vector2.y (Sprite.velocity s)).
    * rewrite <- Hy. ring.
    * field. lra.
- intro Ha. induction n as [|n IH]; [reflexivity|].
  change (updates (S n) dt s) with (Sprite.update (updates n dt s) dt).
  rewrite IH. unfold Sprite.update. now rewrite Ha.
Qed.

Lemma Sprite_coasting_witness :
  Sprite.velocity (updates 2 1 slidingSprite)
  = Vector2.scale
      (JS.defined_or (Sprite.friction slidingSprite) (98 / 100) ^ 2)
      (Sprite.velocity slidingSprite).
Proof.
apply (proj1 (Sprite_coasting slidingSprite 1 2 eq_refl)).
reflexivity.
Defined.

(** ** Points in a rectangular track *)

Lemma isPointInPolygon_rectangle (x0 y0 x1 y1 x y : R) :
  x0 < x1 -> y0 < y1 ->
  Area.isPointInPolygon x y (rectangle x0 y0 x1 y1)
  = JS.geb x x0 && JS.ltb x x1 && JS.geb y y0 && JS.ltb y y1.
Proof.
intros Hx Hy.
unfold Area.isPointInPolygon, rectangle. cbn [length Nat.ltb Nat.leb last].
cbn [Area.scan]. unfold Area.intersect. cbn [Vector2.x Vector2.y].
replace ((x0 - x0) * (y - y0) / (y1 - y0) + x0) with x0 by (field; lra).
replace ((x1 - x1) * (y - y1) / (y0 - y1) + x1) with x1 by (field; lra).
unfold JS.gtb, JS.geb, JS.ltb.
destruct (Req_dec_T y0 y1) as [E|_]; [lra|].
destruct (Req_dec_T y0 y0) as [_|E]; [|exfalso; apply E; reflexivity].
destruct (Req_dec_T y1 y0) as [E|_]; [lra|].
destruct (Req_dec_T y1 y1) as [_|E]; [|exfalso; apply E; reflexivity].
destruct (Rlt_dec y y0), (Rlt_dec y y1), (Rlt_dec x x0), (Rlt_dec x x1),
         (Rle_dec x0 x), (Rle_dec y0 y);
  cbn; try reflexivity; lra.
Qed.

(** X29 ([isPointOutsideTrack], [isPointInPolygon]): on a track whose
    outer boundary is the rectangle from [(x0, y0)] to [(x1, y1)] and that
    has no inner boundary, a point is on the track exactly when
    [x0 <= x < x1] and [y0 <= y < y1]: the left and bottom sides belong to
    the track, the right and top sides do not. *)
Theorem isPointOutsideTrack_rectangle (x0 y0 x1 y1 x y : R)
  (inner : list Vec) (checkpoints : list Track.checkpoint)
  (Hx : x0 < x1) (Hy : y0 < y1) (Hinner : (length inner < 3)%nat) :
  Area.isPointOutsideTrack
    (Track.mk inner (rectangle x0 y0 x1 y1) checkpoints) x y
  = negb (JS.geb x x0 && JS.ltb x x1 && JS.geb y y0 && JS.ltb y y1).
Proof.
unfold Area.isPointOutsideTrack.
cbn [Track.outerBoundary Track.innerBoundary].
change (Nat.ltb (length (rectangle x0 y0 x1 y1)) 3) with false.
cbv zeta.
replace (Nat.leb 3 (length inner)) with false
  by (symmetry; apply Nat.leb_gt; exact Hinner).
rewrite orb_false_r.
now rewrite isPointInPolygon_rectangle.
Qed.

Lemma isPointOutsideTrack_rectangle_witness :
  Area.isPointOutsideTrack
    (Track.mk [] (rectangle 0 0 10 10) []) 10 5
  = negb (JS.geb 10 0 && JS.ltb 10 10 && JS.geb 5 0 && JS.ltb 5 10).
Proof.
apply (isPointOutsideTrack_rectangle 0 0 10 10 10 5 [] []); simpl; lra || lia.
Defined.

(** ** [Sprite.checkCollision] followed by [resolveCollision] *)

(** X30 ([Sprite.checkCollision], [Physics.resolveCollision]): with the
    data of a sprite with [advancedCollision], whose normal points from
    the other sprite to this one, [resolveCollision(this, other, data)]
    leaves two overlapping sprites that move apart unchanged, and moves
    two that do not move apart away from each other: the distance of their
    centres [d] becomes [d + 0.2 * overlap].  Masses are positive and the
    centres differ. *)
Theorem resolveCollision_of_Sprite_data (a b : Physics.object)
  (ra rb : R)
  (Hma : 0 < JS.or_opt (Physics.mass a) 1)
  (Hmb : 0 < JS.or_opt (Physics.mass b) 1)
  (Hpos : Physics.position a <> Physics.position b)
  (Hlt : Physics.centreDistance a b < ra + rb) :
  let c := SpriteCollision.dataOf
             (SpriteCollision.checkCollision
                true (Physics.position a) ra (Physics.position b) rb) in
  let d := Physics.centreDistance a b in
  let apart :=
    Vector2.dot (Vector2.sub (Physics.position b) (Physics.position a))
                (Vector2.sub (Physics.velocity b) (Physics.velocity a)) in
  overlap c = Some (ra + rb - d)
  /\ (0 < apart -> Physics.resolveCollision a b c = (a, b))
  /\ (apart <= 0 ->
      Physics.centreDistance (fst (Physics.resolveCollision a b c))
                             (snd (Physics.resolveCollision a b c))
      = d + 2 / 10 * (ra + rb - d)).
Proof.
intros c d apart.
assert (Hd : 0 < d) by (apply centreDistance_pos; exact Hpos).
fold d in Hlt.
set (dx := Vector2.x (Physics.position a) - Vector2.x (Physics.position b)).
set (dy := Vector2.y (Physics.position a) - Vector2.y (Physics.position b)).
assert (Hdd : d = sqrt (dx * dx + dy * dy)).
{ unfold d, Physics.centreDistance. cbv zeta. f_equal. unfold dx, dy. ring. }
assert (Hc : c = mkCollision true
                   (Some (Vector2.mk (dx / d) (dy / d)))
                   (Some (ra + rb - d))
                   (Some (Vector2.mk
                            (Vector2.x (Physics.position a) + dx / d * ra)
                            (Vector2.y (Physics.position a) + dy / d * ra)))).
{ unfold c, SpriteCollision.checkCollision. cbv zeta. fold dx dy.
  rewrite <- Hdd.
  replace (JS.ltb d (ra + rb)) with true
    by (symmetry; apply ltb_true; exact Hlt).
  rewrite !component_quotient by lra. reflexivity. }
assert (Hrel : Physics.relativeNormalVelocity a b c = apart / d).
{ unfold Physics.relativeNormalVelocity. rewrite Hc. cbn [normal].
  unfold apart, Vector2.dot, Vector2.sub, dx, dy. cbn [Vector2.x Vector2.y].
  field. lra. }
split; [rewrite Hc; reflexivity|].
split.
- intro Hap. apply resolveCollision_skips. rewrite Hrel.
  apply Rmult_lt_0_compat; [exact Hap | apply Rinv_0_lt_compat; exact Hd].
- intro Hap.
  unfold Physics.resolveCollision. cbv zeta.
  assert (E : JS.gtb (Physics.relativeNormalVelocity a b c) 0 = false).
  { apply gtb_false. rewrite Hrel.
    assert (0 <= - apart * / d)
      by (apply Rmult_le_pos;
          [lra | left; apply Rinv_0_lt_compat; exact Hd]).
    unfold Rdiv. lra. }
  rewrite E. rewrite Hc. cbn [normal overlap].
  assert (T : JS.truthy (Some (ra + rb - d)) = true).
  { unfold JS.truthy. destruct (Req_dec_T (ra + rb - d) 0); [lra|].
    reflexivity. }
  rewrite T. cbn [fst snd JS.defined_or].
  unfold Physics.centreDistance.
  cbn [Physics.set_position Physics.set_velocity Physics.position
       Vector2.x Vector2.y].
  set (ma := JS.or_opt (Physics.mass a) 1) in *.
  set (mb := JS.or_opt (Physics.mass b) 1) in *.
  set (k := - (1 + (ra + rb - d) * (2 / 10) / d)).
  replace (Vector2.x (Physics.position b)
           - dx / d * ((ra + rb - d) * (2 / 10)) * ma / (ma + mb)
           - (Vector2.x (Physics.position a)
              + dx / d * ((ra + rb - d) * (2 / 10)) * mb / (ma + mb)))
    with (dx * k) by (unfold dx, k; field; lra).
  replace (Vector2.y (Physics.position b)
           - dy / d * ((ra + rb - d) * (2 / 10)) * ma / (ma + mb)
           - (Vector2.y (Physics.position a)
              + dy / d * ((ra + rb - d) * (2 / 10)) * mb / (ma + mb)))
    with (dy * k) by (unfold dy, k; field; lra).
  rewrite sqrt_scaled. rewrite <- Hdd.
  assert (Hk : k < 0).
  { unfold k.
    assert (0 <= (ra + rb - d) * (2 / 10) * / d)
      by (apply Rmult_le_pos;
          [lra | left; apply Rinv_0_lt_compat; exact Hd]).
    unfold Rdiv. lra. }
  rewrite Rabs_left by exact Hk. unfold k. field. lra.
Qed.

(** Two sprites of radius 1, one unit apart, at rest: pushed to 1.2
    apart. *)
Lemma resolveCollision_of_Sprite_data_witness :
  overlap
    (SpriteCollision.dataOf
       (SpriteCollision.checkCollision
          true (Vector2.mk 0 0) 1 (Vector2.mk 1 0) 1))
  = Some (1 + 1
          - Physics.centreDistance
              (bodyAt (Vector2.mk 0 0) (Vector2.mk 0 0) 1)
              (bodyAt (Vector2.mk 1 0) (Vector2.mk 0 0) 1)).
Proof.
apply (proj1 (resolveCollision_of_Sprite_data
                (bodyAt (Vector2.mk 0 0) (Vector2.mk 0 0) 1)
                (bodyAt (Vector2.mk 1 0) (Vector2.mk 0 0) 1) 1 1
                ltac:(simpl; lra) ltac:(simpl; lra)
                ltac:(simpl; intro H; injection H; lra)
                ltac:(unfold Physics.centreDistance; simpl;
                      rewrite (sqrt_is _ 1) by (try lra; ring); lra))).
Defined.
